(** * Subscription resolvers of the API package

    A shallow embedding of [packages/api/src/resolvers/subscriptions/index.ts]:
    the subscriptions table is a list of rows, every resolver is a function
    over that table in a small state-and-exception monad, and the external
    collaborators (feed parser, task queue, HTTP client, feed search) are
    fields of an environment record. Two further parts embed the chunking
    and the speech marks of the text-to-speech utility and the sign-in
    handler of [packages/api/src/routers/auth/google_auth.ts]. *)

From stdpp Require Import base decidable option numbers strings pretty sorting
  relations list.
From Stdlib Require SpecFloat.

Open Scope Z_scope.

(** ** JavaScript values *)

(** An optional GraphQL input field: omitted ([undefined]), explicit [null],
    or a value. *)
Inductive nullable (A : Type) : Type :=
  | Undefined
  | Null
  | Val (a : A).
Arguments Undefined {A}.
Arguments Null {A}.
Arguments Val {A} a.

(** The result of a call that may throw [new Error(message)]. *)
Inductive outcome (A : Type) : Type :=
  | Returned (a : A)
  | Thrown (message : string).
Arguments Returned {A} a.
Arguments Thrown {A} message.

(** Truthiness of a string: every string but the empty one. *)
Definition truthy (s : string) : bool := bool_decide (s ≠ "").

(** [x || undefined] and [x || null] on an optional string. *)
Definition or_undefined (x : nullable string) : option string :=
  match x with
  | Val s => if truthy s then Some s else None
  | _ => None
  end.

Definition or_null (x : option string) : option string :=
  match x with
  | Some s => if truthy s then Some s else None
  | None => None
  end.

(** [x || ''] on the result of [getAttribute]. *)
Definition or_empty (x : option string) : string := default "" x.

(** [x ?? undefined] and [x ?? null]: only [null] and [undefined] are
    replaced, [false] is kept. *)
Definition nullish {A} (x : nullable A) : option A :=
  match x with
  | Val a => Some a
  | _ => None
  end.

(** [!!x] on an optional boolean. *)
Definition to_boolean (x : option bool) : bool := default false x.

(** [s.includes(t)]. *)
Fixpoint starts_with (t s : string) : bool :=
  match t, s with
  | EmptyString, _ => true
  | String a t', String b s' => bool_decide (a = b) && starts_with t' s'
  | String _ _, EmptyString => false
  end.

Fixpoint includes (s t : string) : bool :=
  starts_with t s ||
  match s with
  | EmptyString => false
  | String _ s' => includes s' t
  end.

(** ** Data model *)

Definition UserId := string.
Definition Id := nat.
Definition Timestamp := Z.

Inductive SubscriptionType := Rss | Newsletter.

(** Modelled from the spec: the members of [SubscriptionStatus]
    ([generated/graphql] is not part of the sources); the spec names the two
    states ACTIVE and UNSUBSCRIBED. *)
Inductive SubscriptionStatus := Active | Unsubscribed.

Global Instance SubscriptionType_eq_dec : EqDecision SubscriptionType.
Proof. solve_decision. Defined.
Global Instance SubscriptionStatus_eq_dec : EqDecision SubscriptionStatus.
Proof. solve_decision. Defined.

(** The error codes of the resolvers (BadRequest, NotFound,
    AlreadySubscribed, ExceededMaxSubscriptions). *)
Inductive ErrorCode :=
  | BadRequest
  | NotFound
  | AlreadySubscribed
  | ExceededMaxSubscriptions.

Global Instance ErrorCode_eq_dec : EqDecision ErrorCode.
Proof. solve_decision. Defined.

(** A row of [omnivore.subscriptions]. The [newsletterEmail] relation is
    joined one-to-one on reads and is left out, as in [PartialSubscription]. *)
Module Subscription.
Record t := mk {
  id : Id;
  user : UserId;
  type : SubscriptionType;
  url : option string;
  name : string;
  description : option string;
  icon : option string;
  status : SubscriptionStatus;
  createdAt : Timestamp;
  lastFetchedAt : option Timestamp;
  lastFetchedChecksum : option string;
  scheduledAt : option Timestamp;
  autoAddToLibrary : option bool;
  isPrivate : option bool;
  unsubscribeMailTo : option string;
  unsubscribeHttpUrl : option string
}.
End Subscription.

(** The object the ORM's [save] accepts: the primary key and any subset of
    the columns. [None] is a property that is [undefined] (the column is
    skipped); for a nullable column [Some None] writes NULL. *)
Module DeepPartial.
Record t := mk {
  id : Id;
  user : option UserId;
  type : option SubscriptionType;
  url : option (option string);
  name : option string;
  description : option (option string);
  icon : option (option string);
  status : option SubscriptionStatus;
  createdAt : option Timestamp;
  lastFetchedAt : option (option Timestamp);
  lastFetchedChecksum : option (option string);
  scheduledAt : option (option Timestamp);
  autoAddToLibrary : option (option bool);
  isPrivate : option (option bool);
  unsubscribeMailTo : option (option string);
  unsubscribeHttpUrl : option (option string)
}.
End DeepPartial.

(** What [parseFeed] returns, and what the scan returns for every feed it
    finds; a property the object does not carry is [None]. *)
Module Feed.
Record t := mk {
  title : string;
  url : string;
  description : option string;
  thumbnail : option string;
  type : option string
}.
End Feed.

(** The payload of [enqueueRssFeedFetch]: parallel arrays. *)
Module FetchRequest.
Record t := mk {
  userIds : list UserId;
  url : string;
  subscriptionIds : list Id;
  scheduledDates : list Timestamp;
  fetchedDates : list (option Timestamp);
  checksums : list (option string);
  addToLibraryFlags : list bool
}.
End FetchRequest.

(** ** The store *)

(** The table, the next server-generated key and the task queue. *)
Record Db := mkDb {
  rows : list Subscription.t;
  next_id : Id;
  tasks : list FetchRequest.t
}.

(** ** Numbers

    A number of the language is an IEEE 754 double: the Standard Library's
    specification of binary64 arithmetic, rounding to the nearest number
    with ties to the even mantissa. *)
Abbreviation number := SpecFloat.spec_float (only parsing).

Definition prec : Z := 53.
Definition emax : Z := 1024.

Global Instance number_eq_dec : EqDecision SpecFloat.spec_float.
Proof. solve_decision. Defined.

Definition nan : number := SpecFloat.S754_nan.

(** The number for an integer, such as the length of an array or an
    integer literal: the nearest one. *)
Definition of_Z (z : Z) : number := SpecFloat.binary_normalize prec emax z 0 false.

(** [x + y], [x - y], [x > y] and [isNaN(x)]. *)
Definition js_add : number → number → number := SpecFloat.SFadd prec emax.
Definition js_sub : number → number → number := SpecFloat.SFsub prec emax.
Definition js_gt (x y : number) : bool := SpecFloat.SFltb y x.
Definition isNaN (x : number) : bool :=
  match x with
  | SpecFloat.S754_nan => true
  | _ => false
  end.

(** The built-ins [Number(s)] and [String(x)], which the worlds of the
    examples use. A string of the model is a sequence of characters below
    U+0100. *)

Definition char_code (c : Ascii.ascii) : Z := Z.of_nat (Ascii.nat_of_ascii c).

(** White space and line terminators, among the characters below U+0100. *)
Definition is_white_space (c : Ascii.ascii) : bool :=
  bool_decide (char_code c ∈ [9; 10; 11; 12; 13; 32; 160]).

Fixpoint trim_start (s : string) : string :=
  match s with
  | String c s' => if is_white_space c then trim_start s' else s
  | EmptyString => EmptyString
  end.

Fixpoint trim_end (s : string) : string :=
  match s with
  | String c s' =>
      match trim_end s' with
      | EmptyString => if is_white_space c then EmptyString else String c EmptyString
      | t => String c t
      end
  | EmptyString => EmptyString
  end.

Definition trim (s : string) : string := trim_end (trim_start s).

(** The value of a digit in a radix of at most 16. *)
Definition digit_in (radix : Z) (c : Ascii.ascii) : option Z :=
  let n := char_code c in
  let v := if decide (48 ≤ n ≤ 57) then n - 48
           else if decide (97 ≤ n ≤ 102) then n - 87
           else if decide (65 ≤ n ≤ 70) then n - 55
           else 16 in
  if decide (v < radix) then Some v else None.

(** The digits at the head of a string: their value on top of [acc], their
    number, and the rest of the string. *)
Fixpoint take_digits (radix acc count : Z) (s : string) : Z * Z * string :=
  match s with
  | String c s' =>
      match digit_in radix c with
      | Some d => take_digits radix (radix * acc + d) (count + 1) s'
      | None => (acc, count, s)
      end
  | EmptyString => (acc, count, s)
  end.

(** The number nearest to [m * 10 ^ e] for [m > 0], ties to the even
    mantissa. A product is rounded as an integer; a quotient is computed
    with the remainder's position, as a floating-point division is. Beyond
    the range of the numbers the powers are not computed. *)
Definition decimal_value (s : bool) (m e : Z) : number :=
  match m with
  | Zpos p =>
      if decide (400 < e) then SpecFloat.S754_infinity s
      else if decide (e < - (400 + Z.log2 m)) then SpecFloat.S754_zero s
      else if decide (0 ≤ e)
           then SpecFloat.binary_normalize prec emax
                  (SpecFloat.cond_Zopp s (m * 10 ^ e)) 0 s
           else
             let '(q, e', l) :=
               SpecFloat.SFdiv_core_binary prec emax m 0 (10 ^ (- e)) 0 in
             SpecFloat.binary_round_aux prec emax s q e' l
  | _ => SpecFloat.S754_zero s
  end.

(** A sign at the head of a string. *)
Definition take_sign (t : string) : bool * string :=
  match t with
  | String c r =>
      if decide (char_code c = 43) then (false, r)
      else if decide (char_code c = 45) then (true, r)
      else (false, t)
  | EmptyString => (false, t)
  end.

(** [StrUnsignedDecimalLiteral]: [Infinity], or digits, an optional
    fraction and an optional exponent, with a digit before or after the
    point. *)
Definition unsigned_decimal (s : bool) (t : string) : number :=
  if decide (t = "Infinity") then SpecFloat.S754_infinity s
  else
    let '(ip, ni, t2) := take_digits 10 0 0 t in
    let '(m, nf, t3) :=
      match t2 with
      | String c r =>
          if decide (char_code c = 46) then take_digits 10 ip 0 r
          else (ip, 0, t2)
      | EmptyString => (ip, 0, t2)
      end in
    if decide (ni + nf = 0) then nan
    else
      match t3 with
      | EmptyString => decimal_value s m (- nf)
      | String c r =>
          if decide (char_code c = 101 ∨ char_code c = 69)
          then
            let '(negative, r1) := take_sign r in
            let '(ev, ne, r2) := take_digits 10 0 0 r1 in
            if decide (ne = 0 ∨ r2 ≠ "") then nan
            else decimal_value s m ((if negative then - ev else ev) - nf)
          else nan
      end.

Definition radix_literal (radix : Z) (t : string) : number :=
  let '(v, n, rest) := take_digits radix 0 0 t in
  if decide (n = 0 ∨ rest ≠ "") then nan
  else SpecFloat.binary_normalize prec emax v 0 false.

(** The radix a prefix [0x], [0o] or [0b] announces. *)
Definition radix_prefix (t : string) : option (Z * string) :=
  match t with
  | String c0 (String c r) =>
      if decide (char_code c0 = 48)
      then if decide (char_code c = 120 ∨ char_code c = 88) then Some (16, r)
           else if decide (char_code c = 111 ∨ char_code c = 79) then Some (8, r)
           else if decide (char_code c = 98 ∨ char_code c = 66) then Some (2, r)
           else None
      else None
  | _ => None
  end.

(** [StringToNumber]: white space is trimmed, the empty string is 0, then a
    binary, octal or hexadecimal integer or a signed decimal literal. *)
Definition StringToNumber (s : string) : number :=
  let t := trim s in
  if decide (t = "") then SpecFloat.S754_zero false
  else
    match radix_prefix t with
    | Some (radix, r) => radix_literal radix r
    | None => let '(negative, r) := take_sign t in unsigned_decimal negative r
    end.

(** [Number(s)]. *)
Definition builtin_Number (s : string) : number := StringToNumber s.

(** A string of decimal digits. *)
Definition decimal_digits (s : string) : Prop :=
  Forall (λ c, 48 ≤ char_code c ≤ 57) (String.list_ascii_of_string s).

(** Whether [10 ^ n * den ≤ num], for any integer [n]. *)
Definition pow10_le (n num den : Z) : bool :=
  if decide (0 ≤ n) then bool_decide (10 ^ n * den ≤ num)
  else bool_decide (den ≤ num * 10 ^ (- n)).

(** The decimal exponent of [num / den > 0]: the [n] with
    [10 ^ (n - 1) ≤ num / den < 10 ^ n], searched from an estimate. *)
Fixpoint exponent_up (fuel : nat) (n num den : Z) : Z :=
  match fuel with
  | S fuel => if pow10_le n num den then exponent_up fuel (n + 1) num den else n
  | O => n
  end.

Fixpoint exponent_down (fuel : nat) (n num den : Z) : Z :=
  match fuel with
  | S fuel =>
      if pow10_le (n - 1) num den then n else exponent_down fuel (n - 1) num den
  | O => n
  end.

Definition decimal_exponent (num den : Z) : Z :=
  let estimate := (Z.log2 num - Z.log2 den) * 1233 / 4096 in
  exponent_down 8 (exponent_up 8 estimate num den) num den.

(** The digits of a number with [k] significant digits: of the two
    [k]-digit decimals around [num / den], those that are read back as the
    number [x], the nearer one first (the even one when they are as near).
    The result is the digits as an integer and the decimal exponent. *)
Definition digits_at (x : number) (num den n k : Z) : option (Z * Z) :=
  let '(num', den') :=
    if decide (0 ≤ k - n) then (num * 10 ^ (k - n), den)
    else (num, den * 10 ^ (n - k)) in
  let lo := num' / den' in
  let r := num' mod den' in
  let reads s := bool_decide (decimal_value false s (n - k) = x) in
  let lower := if reads lo then Some (lo, n) else None in
  let upper :=
    if reads (lo + 1)
    then Some (if decide (lo + 1 = 10 ^ k) then (10 ^ (k - 1), n + 1)
               else (lo + 1, n))
    else None in
  match lower, upper with
  | Some l, Some u =>
      if decide (2 * r < den') then Some l
      else if decide (den' < 2 * r) then Some u
      else if Z.even lo then Some l else Some u
  | Some l, None => Some l
  | None, Some u => Some u
  | None, None => None
  end.

(** The shortest digits that are read back as the number. *)
Fixpoint shortest_digits (fuel : nat) (x : number) (num den n k : Z)
    : Z * Z * Z :=
  match fuel with
  | S fuel =>
      match digits_at x num den n k with
      | Some (s, n') => (s, n', k)
      | None => shortest_digits fuel x num den n (k + 1)
      end
  | O => (num * 10 ^ (17 - n) / den, n, 17)
  end.

Definition zeros (n : Z) : string :=
  String.string_of_list_ascii (replicate (Z.to_nat n) (Ascii.ascii_of_nat 48)).

Definition substring_from (n : Z) (s : string) : string :=
  String.string_of_list_ascii (drop (Z.to_nat n) (String.list_ascii_of_string s)).

Definition substring_to (n : Z) (s : string) : string :=
  String.string_of_list_ascii (take (Z.to_nat n) (String.list_ascii_of_string s)).

(** [Number::toString] for a positive number [m * 2 ^ e], from its digits
    [s] ([k] of them) and its decimal exponent [n]. *)
Definition format_digits (s n k : Z) : string :=
  let digits := pretty s in
  if decide (k ≤ n ≤ 21) then digits +:+ zeros (n - k)
  else if decide (0 < n ≤ 21)
       then substring_to n digits +:+ "." +:+ substring_from n digits
  else if decide (-6 < n ≤ 0) then "0." +:+ zeros (- n) +:+ digits
  else
    let exponent :=
      (if decide (0 ≤ n - 1) then "e+" else "e-") +:+ pretty (Z.abs (n - 1)) in
    if decide (k = 1) then digits +:+ exponent
    else substring_to 1 digits +:+ "." +:+ substring_from 1 digits +:+ exponent.

Definition positive_to_string (m : positive) (e : Z) : string :=
  let num := Zpos m * 2 ^ Z.max e 0 in
  let den := 2 ^ Z.max (- e) 0 in
  let n := decimal_exponent num den in
  let '(s, n', k) :=
    shortest_digits 17 (SpecFloat.S754_finite false m e) num den n 1 in
  format_digits s n' k.

(** [Number::toString] in radix 10. *)
Definition NumberToString (x : number) : string :=
  match x with
  | SpecFloat.S754_nan => "NaN"
  | SpecFloat.S754_zero _ => "0"
  | SpecFloat.S754_infinity s => if s then "-Infinity" else "Infinity"
  | SpecFloat.S754_finite s m e =>
      (if s then "-" else "") +:+ positive_to_string m e
  end.

(** The integer a number is, if it is one. *)
Definition integer_value (x : number) : option Z :=
  match x with
  | SpecFloat.S754_zero _ => Some 0
  | SpecFloat.S754_finite s m e =>
      if decide (0 ≤ e) then Some (SpecFloat.cond_Zopp s (Zpos m * 2 ^ e))
      else if decide (Zpos m mod 2 ^ (- e) = 0)
           then Some (SpecFloat.cond_Zopp s (Zpos m / 2 ^ (- e)))
           else None
  | _ => None
  end.

(** [String(x)]. An integer below 2^53 is printed at once, as
    [NumberToString] prints it: in decimal. *)
Definition builtin_String (x : number) : string :=
  match integer_value x with
  | Some z => if decide (Z.abs z < 2 ^ 53) then pretty z else NumberToString x
  | None => NumberToString x
  end.

(** The part of an HTTP response the scan reads. *)
Record Response := mkResponse {
  data : string;
  content_type : option string
}.

(** A [link] element: its [href] and [title] attributes, [None] when the
    attribute is missing. *)
Record Link := mkLink {
  href : option string;
  link_title : option string
}.

(** The sort requests of the listings. Of the members of [SortBy] the
    resolvers look for [UpdatedTime] only. *)
Inductive SortBy := UpdatedTime | OtherSortBy.
Inductive SortOrder := Ascending | Descending.

(** What the resolvers use and this file does not define: the language's
    built-ins [Number] and [String], the collaborators of other modules, the
    network. *)
Record Env := mkEnv {
  (** [Number(s)] and [String(x)] *)
  Number : string → number;
  String_ : number → string;
  (** [utils/parser.parseFeed]: a feed, [null], or an exception. *)
  parseFeed : string → outcome (option Feed.t);
  (** [utils/parser.parseOpml]: the outlines, or [undefined]. *)
  parseOpml : string → option (list Feed.t);
  (** [utils/createTask.enqueueRssFeedFetch] fails with this message. *)
  enqueueFailure : FetchRequest.t → option string;
  (** [feedRepository.searchFeeds(query, limit, offset, by, order)] *)
  searchFeeds : string → Z → number → option SortBy → option SortOrder
                → outcome (list Feed.t * Z);
  (** [axios.get(url, RSS_PARSER_CONFIG)] *)
  axios_get : string → outcome Response;
  (** [parseHTML(content).document.querySelectorAll(...)] for the selector
      of RSS links. *)
  rss_links : string → list Link;
  (** [new Date()] and the column default of [created_at]. *)
  now : Timestamp
}.

(** State and exceptions: an [await]ed call either returns or throws, and
    the table keeps what was written before the throw. *)
Definition M (A : Type) : Type := Db → outcome A * Db.

Global Instance M_ret : MRet M := λ A a db, (Returned a, db).
Global Instance M_bind : MBind M := λ A B f m db,
  match m db with
  | (Returned a, db') => f a db'
  | (Thrown e, db') => (Thrown e, db')
  end.

(** [try { body } catch (error) { handler(error.message) }]. *)
Definition try_catch {A} (body : M A) (handler : string → A) : Db → A * Db :=
  λ db,
    match body db with
    | (Returned a, db') => (a, db')
    | (Thrown e, db') => (handler e, db')
    end.

(** ** The ORM calls the resolvers make *)

Section Repository.
Context (env : Env).

(** [findOneBy(where)]: the first row that satisfies the conditions. *)
Definition findOneBy (P : Subscription.t → Prop) `{∀ r, Decision (P r)}
    : M (option Subscription.t) :=
  λ db, (Returned (head (filter P (rows db))), db).

(** [{ ...row }]: every column of a loaded row as a defined property. *)
Definition spread (r : Subscription.t) : DeepPartial.t :=
  {| DeepPartial.id := Subscription.id r;
     DeepPartial.user := Some (Subscription.user r);
     DeepPartial.type := Some (Subscription.type r);
     DeepPartial.url := Some (Subscription.url r);
     DeepPartial.name := Some (Subscription.name r);
     DeepPartial.description := Some (Subscription.description r);
     DeepPartial.icon := Some (Subscription.icon r);
     DeepPartial.status := Some (Subscription.status r);
     DeepPartial.createdAt := Some (Subscription.createdAt r);
     DeepPartial.lastFetchedAt := Some (Subscription.lastFetchedAt r);
     DeepPartial.lastFetchedChecksum := Some (Subscription.lastFetchedChecksum r);
     DeepPartial.scheduledAt := Some (Subscription.scheduledAt r);
     DeepPartial.autoAddToLibrary := Some (Subscription.autoAddToLibrary r);
     DeepPartial.isPrivate := Some (Subscription.isPrivate r);
     DeepPartial.unsubscribeMailTo := Some (Subscription.unsubscribeMailTo r);
     DeepPartial.unsubscribeHttpUrl := Some (Subscription.unsubscribeHttpUrl r) |}.

(** The UPDATE that [save] issues for a row it found by primary key: a
    defined property overwrites its column, an undefined one is skipped. *)
Definition merge (p : DeepPartial.t) (r : Subscription.t) : Subscription.t :=
  {| Subscription.id := Subscription.id r;
     Subscription.user := default (Subscription.user r) (DeepPartial.user p);
     Subscription.type := default (Subscription.type r) (DeepPartial.type p);
     Subscription.url := default (Subscription.url r) (DeepPartial.url p);
     Subscription.name := default (Subscription.name r) (DeepPartial.name p);
     Subscription.description :=
       default (Subscription.description r) (DeepPartial.description p);
     Subscription.icon := default (Subscription.icon r) (DeepPartial.icon p);
     Subscription.status := default (Subscription.status r) (DeepPartial.status p);
     Subscription.createdAt :=
       default (Subscription.createdAt r) (DeepPartial.createdAt p);
     Subscription.lastFetchedAt :=
       default (Subscription.lastFetchedAt r) (DeepPartial.lastFetchedAt p);
     Subscription.lastFetchedChecksum :=
       default (Subscription.lastFetchedChecksum r)
               (DeepPartial.lastFetchedChecksum p);
     Subscription.scheduledAt :=
       default (Subscription.scheduledAt r) (DeepPartial.scheduledAt p);
     Subscription.autoAddToLibrary :=
       default (Subscription.autoAddToLibrary r) (DeepPartial.autoAddToLibrary p);
     Subscription.isPrivate :=
       default (Subscription.isPrivate r) (DeepPartial.isPrivate p);
     Subscription.unsubscribeMailTo :=
       default (Subscription.unsubscribeMailTo r) (DeepPartial.unsubscribeMailTo p);
     Subscription.unsubscribeHttpUrl :=
       default (Subscription.unsubscribeHttpUrl r)
               (DeepPartial.unsubscribeHttpUrl p) |}.

Definition has_id (i : Id) (r : Subscription.t) : Prop := Subscription.id r = i.
Global Instance has_id_dec i r : Decision (has_id i r).
Proof. unfold has_id. apply _. Defined.

Definition update_by_id (p : DeepPartial.t) (r : Subscription.t) : Subscription.t :=
  if decide (has_id (DeepPartial.id p) r) then merge p r else r.

(** [save(partial)]: with a primary key that names a row, the row is
    updated in place. With a key that names no row the ORM turns to an
    INSERT of a row that has no owner; that statement, or else the scoped
    read that follows the only such call, fails, so the call is modelled
    as throwing. *)
Definition save (p : DeepPartial.t) : M unit :=
  λ db,
    if decide (Exists (has_id (DeepPartial.id p)) (rows db))
    then (Returned (),
          {| rows := update_by_id p <$> rows db;
             next_id := next_id db;
             tasks := tasks db |})
    else (Thrown "null value in column user_id violates not-null constraint", db).

(** [save({ ...row, status })] resolves to the object it was given. *)
Definition with_status (r : Subscription.t) (s : SubscriptionStatus)
    : Subscription.t :=
  merge {| DeepPartial.id := Subscription.id r;
           DeepPartial.user := None; DeepPartial.type := None;
           DeepPartial.url := None; DeepPartial.name := None;
           DeepPartial.description := None; DeepPartial.icon := None;
           DeepPartial.status := Some s;
           DeepPartial.createdAt := None; DeepPartial.lastFetchedAt := None;
           DeepPartial.lastFetchedChecksum := None;
           DeepPartial.scheduledAt := None;
           DeepPartial.autoAddToLibrary := None; DeepPartial.isPrivate := None;
           DeepPartial.unsubscribeMailTo := None;
           DeepPartial.unsubscribeHttpUrl := None |} r.

Definition save_entity (e : Subscription.t) : M Subscription.t :=
  save (spread e) ≫= λ _, mret e.

(** The rows the quota counts:
    [user_id = $5 and type = 'RSS' and status = 'ACTIVE']. *)
Definition active_rss_of (uid : UserId) (r : Subscription.t) : Prop :=
  Subscription.user r = uid ∧ Subscription.type r = Rss
  ∧ Subscription.status r = Active.
Global Instance active_rss_of_dec uid r : Decision (active_rss_of uid r).
Proof. unfold active_rss_of. apply _. Defined.

Definition count_active_rss (uid : UserId) (table : list Subscription.t) : Z :=
  Z.of_nat (length (filter (active_rss_of uid) table)).

(** Modelled from the spec: the column defaults of the table, whose
    definition is not part of the sources. A row inserted without a status
    is ACTIVE (a new subscription counts towards the quota), its key and
    creation time are generated by the server, and the columns the
    statement does not list are NULL. *)
Definition inserted_row (db : Db) (name url : string) (description : option string)
    (type : SubscriptionType) (uid : UserId) (icon : option string)
    (auto_add_to_library is_private : option bool) : Subscription.t :=
  {| Subscription.id := next_id db;
     Subscription.user := uid;
     Subscription.type := type;
     Subscription.url := Some url;
     Subscription.name := name;
     Subscription.description := description;
     Subscription.icon := icon;
     Subscription.status := Active;
     Subscription.createdAt := now env;
     Subscription.lastFetchedAt := None;
     Subscription.lastFetchedChecksum := None;
     Subscription.scheduledAt := None;
     Subscription.autoAddToLibrary := auto_add_to_library;
     Subscription.isPrivate := is_private;
     Subscription.unsubscribeMailTo := None;
     Subscription.unsubscribeHttpUrl := None |}.

(** The raw statement of [subscribeResolver]:
    [insert into subscriptions (...) select $1 .. $8 from subscriptions
     where user_id = $5 and type = 'RSS' and status = 'ACTIVE'
     having count( * ) < $9 returning *].
    The aggregate without GROUP BY forms one group, so the select yields
    one row when the count is below [$9] and none otherwise. *)
Definition insert_having_count (name url : string) (description : option string)
    (type : SubscriptionType) (uid : UserId) (icon : option string)
    (auto_add_to_library is_private : option bool) (quota : Z)
    : M (list Subscription.t) :=
  λ db,
    if decide (count_active_rss uid (rows db) < quota)
    then
      let row := inserted_row db name url description type uid icon
                              auto_add_to_library is_private in
      (Returned [row],
       {| rows := rows db ++ [row];
          next_id := S (next_id db);
          tasks := tasks db |})
    else (Returned [], db).

(** [await parseFeed(url)]. *)
Definition await_parseFeed (url : string) : M (option Feed.t) :=
  λ db, (parseFeed env url, db).

(** [await enqueueRssFeedFetch(request)]. *)
Definition enqueueRssFeedFetch (request : FetchRequest.t) : M unit :=
  λ db,
    match enqueueFailure env request with
    | Some message => (Thrown message, db)
    | None =>
        (Returned (),
         {| rows := rows db; next_id := next_id db;
            tasks := tasks db ++ [request] |})
    end.
End Repository.

(** ** subscribeResolver *)

Record SubscribeInput := mkSubscribeInput {
  input_url : string;
  input_autoAddToLibrary : nullable bool;
  input_isPrivate : nullable bool
}.

Inductive SubscribeResult :=
  | SubscribeSuccess (subscriptions : list Subscription.t)
  | SubscribeError (errorCodes : list ErrorCode).

Definition MAX_RSS_SUBSCRIPTIONS : Z := 150.

(** The condition of the resolver's [findOneBy]:
    [{ url: input.url, user: { id: uid }, type: SubscriptionType.Rss }]. *)
Definition same_feed (url : string) (uid : UserId) (r : Subscription.t) : Prop :=
  Subscription.url r = Some url ∧ Subscription.user r = uid
  ∧ Subscription.type r = Rss.
Global Instance same_feed_dec url uid r : Decision (same_feed url uid r).
Proof. unfold same_feed. apply _. Defined.

Section Subscribe.
Context (env : Env).

Definition resubscribe_request (input : SubscribeInput) (uid : UserId)
    (updatedSubscription : Subscription.t) : FetchRequest.t :=
  {| FetchRequest.userIds := [uid];
     FetchRequest.url := input_url input;
     FetchRequest.subscriptionIds := [Subscription.id updatedSubscription];
     FetchRequest.scheduledDates := [now env];
     FetchRequest.fetchedDates := [Subscription.lastFetchedAt updatedSubscription];
     FetchRequest.checksums :=
       [or_null (Subscription.lastFetchedChecksum updatedSubscription)];
     FetchRequest.addToLibraryFlags :=
       [to_boolean (Subscription.autoAddToLibrary updatedSubscription)] |}.

(** The request for a new subscription. [newSubscription] is a row as the
    raw statement returns it, with a property for each column under the
    column's own name ([auto_add_to_library]); it has no property
    [autoAddToLibrary], so the flag is [!!undefined]. *)
Definition new_subscription_request (input : SubscribeInput) (uid : UserId)
    (newSubscription : Subscription.t) : FetchRequest.t :=
  {| FetchRequest.userIds := [uid];
     FetchRequest.url := input_url input;
     FetchRequest.subscriptionIds := [Subscription.id newSubscription];
     FetchRequest.scheduledDates := [now env];
     FetchRequest.fetchedDates := [None];
     FetchRequest.checksums := [None];
     FetchRequest.addToLibraryFlags := [to_boolean None] |}.

(** The body of the [try] block. *)
Definition subscribe_body (input : SubscribeInput) (uid : UserId)
    : M SubscribeResult :=
  existingSubscription ← findOneBy (same_feed (input_url input) uid);
  match existingSubscription with
  | Some existingSubscription =>
      if decide (Subscription.status existingSubscription = Active)
      then mret (SubscribeError [AlreadySubscribed])
      else
        updatedSubscription ← save_entity (with_status existingSubscription Active);
        _ ← enqueueRssFeedFetch env
              (resubscribe_request input uid updatedSubscription);
        mret (SubscribeSuccess [updatedSubscription])
  | None =>
      feed ← await_parseFeed env (input_url input);
      match feed with
      | None => mret (SubscribeError [NotFound])
      | Some feed =>
          results ← insert_having_count env
                      (Feed.title feed) (Feed.url feed)
                      (or_null (Feed.description feed))
                      Rss uid
                      (or_null (Feed.thumbnail feed))
                      (nullish (input_autoAddToLibrary input))
                      (nullish (input_isPrivate input))
                      MAX_RSS_SUBSCRIPTIONS;
          match results with
          | [] => mret (SubscribeError [ExceededMaxSubscriptions])
          | newSubscription :: _ =>
              _ ← enqueueRssFeedFetch env
                    (new_subscription_request input uid newSubscription);
              mret (SubscribeSuccess [newSubscription])
          end
      end
  end.

(** The [catch] block. *)
Definition subscribe_catch (message : string) : SubscribeResult :=
  if decide (message = "Status code 404")
  then SubscribeError [NotFound]
  else SubscribeError [BadRequest].

Definition subscribeResolver (input : SubscribeInput) (uid : UserId)
    : Db → SubscribeResult * Db :=
  try_catch (subscribe_body input uid) subscribe_catch.
End Subscribe.

(** ** subscriptionsResolver *)

Global Instance SortBy_eq_dec : EqDecision SortBy.
Proof. solve_decision. Defined.
Global Instance SortOrder_eq_dec : EqDecision SortOrder.
Proof. solve_decision. Defined.

Record SortParams := mkSortParams {
  sort_by : nullable SortBy;
  sort_order : nullable SortOrder
}.

(** The two columns the listing can be ordered by, and the two directions. *)
Inductive SortColumn := lastFetchedAt | createdAt.
Inductive Direction := ASC | DESC.

(** [sort?.by === SortBy.UpdatedTime ? 'lastFetchedAt' : 'createdAt']. *)
Definition sortBy (sort : nullable SortParams) : SortColumn :=
  match sort with
  | Val p =>
      match sort_by p with
      | Val UpdatedTime => lastFetchedAt
      | _ => createdAt
      end
  | _ => createdAt
  end.

(** [sort?.order === SortOrder.Ascending ? 'ASC' : 'DESC']. *)
Definition sortOrder (sort : nullable SortParams) : Direction :=
  match sort with
  | Val p =>
      match sort_order p with
      | Val Ascending => ASC
      | _ => DESC
      end
  | _ => DESC
  end.

(** The value of a sort column in a row; [None] is NULL. *)
Definition column (c : SortColumn) (r : Subscription.t) : option Timestamp :=
  match c with
  | lastFetchedAt => Subscription.lastFetchedAt r
  | createdAt => Some (Subscription.createdAt r)
  end.

(** The conditions the query builder collects: [where({ user: { id: uid } })]
    and one of the three [andWhere] branches. *)
Definition where_clause (uid : UserId) (type : nullable SubscriptionType)
    (r : Subscription.t) : Prop :=
  Subscription.user r = uid
  ∧ match type with
    | Val Newsletter =>
        Subscription.type r = Newsletter ∧ Subscription.status r = Active
    | Val Rss => Subscription.type r = Rss
    | _ =>
        (Subscription.type r = Newsletter ∧ Subscription.status r = Active)
        ∨ Subscription.type r = Rss
    end.

Global Instance where_clause_dec uid type r : Decision (where_clause uid type r).
Proof. unfold where_clause. destruct type as [| |[|]]; apply _. Defined.

(** [ORDER BY status ASC]: ACTIVE sorts before UNSUBSCRIBED, as text and in
    the order the spec lists the states. *)
Definition status_rank (s : SubscriptionStatus) : Z :=
  match s with
  | Active => 0
  | Unsubscribed => 1
  end.

(** [ORDER BY column direction NULLS LAST] on one key. *)
Definition key_le (dir : Direction) (a b : option Timestamp) : Prop :=
  match a, b with
  | Some x, Some y =>
      match dir with
      | ASC => x ≤ y
      | DESC => y ≤ x
      end
  | Some _, None => True
  | None, Some _ => False
  | None, None => True
  end.

(** [orderBy('subscription.status', 'ASC')
      .addOrderBy(column, direction, 'NULLS LAST')]:
    when a row may stand before another one. *)
Definition order_le (c : SortColumn) (dir : Direction) (a b : Subscription.t) : Prop :=
  status_rank (Subscription.status a) < status_rank (Subscription.status b)
  ∨ (status_rank (Subscription.status a) = status_rank (Subscription.status b)
     ∧ key_le dir (column c a) (column c b)).

Global Instance key_le_dec dir a b : Decision (key_le dir a b).
Proof. unfold key_le. destruct a, b, dir; apply _. Defined.

Global Instance order_le_dec c dir a b : Decision (order_le c dir a b).
Proof. unfold order_le. apply _. Defined.

(** [getMany()] of the query the resolver builds: the rows that satisfy the
    conditions, put in order by the database. *)
Definition getMany (uid : UserId) (type : nullable SubscriptionType)
    (c : SortColumn) (dir : Direction) : M (list Subscription.t) :=
  λ db, (Returned (merge_sort (order_le c dir) (filter (where_clause uid type) (rows db))),
         db).

Inductive SubscriptionsResult :=
  | SubscriptionsSuccess (subscriptions : list Subscription.t)
  | SubscriptionsError (errorCodes : list ErrorCode).

Definition subscriptionsResolver (sort : nullable SortParams)
    (type : nullable SubscriptionType) (uid : UserId)
    : Db → SubscriptionsResult * Db :=
  try_catch
    (subscriptions ← getMany uid type (sortBy sort) (sortOrder sort);
     mret (SubscriptionsSuccess subscriptions))
    (λ _, SubscriptionsError [BadRequest]).

(** The rows a listing returns (none when it fails). *)
Definition listed (sort : nullable SortParams) (type : nullable SubscriptionType)
    (uid : UserId) (db : Db) : list Subscription.t :=
  match (subscriptionsResolver sort type uid db).1 with
  | SubscriptionsSuccess subscriptions => subscriptions
  | SubscriptionsError _ => []
  end.

(** ** feedsResolver *)

Record FeedsInput := mkFeedsInput {
  after : nullable string;
  first : nullable Z;
  query : nullable string;
  sort : nullable SortParams
}.

Record FeedEdge := mkFeedEdge {
  node : Feed.t;
  cursor : string
}.

Record PageInfo := mkPageInfo {
  hasPreviousPage : bool;
  hasNextPage : bool;
  startCursor : string;
  endCursor : string;
  totalCount : Z
}.

Inductive FeedsResult :=
  | FeedsSuccess (edges : list FeedEdge) (pageInfo : PageInfo)
  | FeedsError (errorCodes : list ErrorCode).

(** [x || ''] on an optional input string. *)
Definition or_empty_input (x : nullable string) : string :=
  match x with
  | Val s => s
  | _ => ""
  end.

Section Feeds.
Context (env : Env).

(** [const startCursor = input.after || ''] *)
Definition startCursor_of (input : FeedsInput) : string :=
  or_empty_input (after input).

(** [startCursor && !isNaN(Number(startCursor)) ? Number(startCursor) : 0] *)
Definition start_of (input : FeedsInput) : number :=
  if truthy (startCursor_of input)
     && negb (isNaN (Number env (startCursor_of input)))
  then Number env (startCursor_of input)
  else of_Z 0.

(** [Math.min(input.first || 10, 100)]: zero is falsy, as are [null] and
    [undefined]. *)
Definition first_of (input : FeedsInput) : Z :=
  Z.min (match first input with
         | Val n => if decide (n = 0) then 10 else n
         | _ => 10
         end) 100.

(** [input.sort?.by] and [input.sort?.order || undefined]. *)
Definition feeds_sort_by (input : FeedsInput) : option SortBy :=
  match sort input with
  | Val p => nullish (sort_by p)
  | _ => None
  end.

Definition feeds_sort_order (input : FeedsInput) : option SortOrder :=
  match sort input with
  | Val p => nullish (sort_order p)
  | _ => None
  end.

(** The page built from what the search returned. [first] and the length
    of an array are integers that every number holds exactly, so they are
    compared as integers; the cursor is computed on numbers:
    [String(start + feeds.length - (hasNextPage ? 1 : 0))]. [feeds.pop()]
    removes the last element and leaves an empty array empty. *)
Definition feeds_page (input : FeedsInput) (feeds : list Feed.t) (count : Z)
    : FeedsResult :=
  let start := start_of input in
  let first := first_of input in
  let hasNextPage := bool_decide (Z.of_nat (length feeds) > first) in
  let endCursor :=
    String_ env
      (js_sub (js_add start (of_Z (Z.of_nat (length feeds))))
              (of_Z (if hasNextPage then 1 else 0))) in
  let feeds := if hasNextPage then removelast feeds else feeds in
  let edges := (λ feed, {| node := feed; cursor := endCursor |}) <$> feeds in
  FeedsSuccess edges
    {| hasPreviousPage := js_gt start (of_Z 0);
       hasNextPage := hasNextPage;
       startCursor := startCursor_of input;
       endCursor := endCursor;
       totalCount := count |}.

Definition feedsResolver (input : FeedsInput) : FeedsResult :=
  match searchFeeds env (or_empty_input (query input))
                    (first_of input + 1) (start_of input)
                    (feeds_sort_by input) (feeds_sort_order input) with
  | Returned (feeds, count) => feeds_page input feeds count
  | Thrown _ => FeedsError [BadRequest]
  end.
End Feeds.

(** Modelled from the spec: [feedRepository.searchFeeds] is not part of the
    sources. It accepts (queryString, limit, offset, sortBy, sortOrder) and
    returns (entries, totalMatchCount); over a catalog in which every entry
    matches, the entries are the [limit] ones from [offset] on (none when
    the offset is beyond the catalog) and the count is the size of the
    catalog. What the store does with an offset that is negative or no
    integer is not specified; this search refuses it. *)
Definition catalog_search (catalog : list Feed.t) (_ : string) (limit : Z)
    (offset : number) (_ : option SortBy) (_ : option SortOrder)
    : outcome (list Feed.t * Z) :=
  match integer_value offset with
  | Some z =>
      if decide (0 ≤ z)
      then Returned (if decide (Z.of_nat (length catalog) ≤ z) then []
                     else take (Z.to_nat limit) (drop (Z.to_nat z) catalog),
                     Z.of_nat (length catalog))
      else Thrown "OFFSET must not be negative"
  | None => Thrown "invalid input syntax for type bigint"
  end.

(** ** scanFeedsResolver *)

Inductive ScanFeedsResult :=
  | ScanFeedsSuccess (feeds : list Feed.t)
  | ScanFeedsError (errorCodes : list ErrorCode).

Section ScanFeeds.
Context (env : Env).

(** An outline of the OPML document as the scan returns it:
    [{ url, title, type: feed.type || 'rss' }]. *)
Definition of_outline (feed : Feed.t) : Feed.t :=
  {| Feed.url := Feed.url feed;
     Feed.title := Feed.title feed;
     Feed.description := None;
     Feed.thumbnail := None;
     Feed.type := Some (default "rss" (or_null (Feed.type feed))) |}.

(** A link of the page as the scan returns it:
    [{ url: href || '', title: title || '', type: 'rss' }]. *)
Definition of_link (link : Link) : Feed.t :=
  {| Feed.url := or_empty (href link);
     Feed.title := or_empty (link_title link);
     Feed.description := None;
     Feed.thumbnail := None;
     Feed.type := Some "rss" |}.

(** [contentType?.includes('text/html')] *)
Definition isHtml (response : Response) : bool :=
  match content_type response with
  | Some contentType => includes contentType "text/html"
  | None => false
  end.

(** The [try] block: the fetch, then the links of an HTML page or the feed
    at the URL itself. *)
Definition scan_url (url : string) : outcome ScanFeedsResult :=
  match axios_get env url with
  | Thrown message => Thrown message
  | Returned response =>
      if isHtml response
      then Returned (ScanFeedsSuccess
                       (filter (λ feed, truthy (Feed.url feed) = true)
                               (of_link <$> rss_links env (data response))))
      else
        match parseFeed env url with
        | Thrown message => Thrown message
        | Returned None => Returned (ScanFeedsError [BadRequest])
        | Returned (Some feed) => Returned (ScanFeedsSuccess [feed])
        end
  end.

Definition scanFeedsResolver (opml url : nullable string) : ScanFeedsResult :=
  match or_undefined opml with
  | Some opml =>
      match parseOpml env opml with
      | None => ScanFeedsError [BadRequest]
      | Some feeds => ScanFeedsSuccess (of_outline <$> feeds)
      end
  | None =>
      match or_undefined url with
      | None => ScanFeedsError [BadRequest]
      | Some url =>
          match scan_url url with
          | Returned result => result
          | Thrown _ => ScanFeedsError [BadRequest]
          end
      end
  end.
End ScanFeeds.

(** ** updateSubscriptionResolver *)

Module UpdateSubscriptionInput.
Record t := mk {
  id : Id;
  name : nullable string;
  description : nullable string;
  lastFetchedAt : nullable Timestamp;
  lastFetchedChecksum : nullable string;
  status : nullable SubscriptionStatus;
  scheduledAt : nullable Timestamp;
  autoAddToLibrary : nullable bool;
  isPrivate : nullable bool
}.
End UpdateSubscriptionInput.

Inductive UpdateSubscriptionResult :=
  | UpdateSubscriptionSuccess (subscription : Subscription.t)
  | UpdateSubscriptionError (errorCodes : list ErrorCode).

(** Modelled from the spec: [authTrx] is not part of the sources. The
    callback runs as one transaction, which performs both the write and the
    re-read that follows it; what the callback wrote is discarded when it
    throws. *)
Definition authTrx {A} (callback : M A) : M A :=
  λ db,
    match callback db with
    | (Returned a, db') => (Returned a, db')
    | (Thrown e, _) => (Thrown e, db)
    end.

(** [findOneByOrFail(where)] *)
Definition findOneByOrFail (P : Subscription.t → Prop) `{∀ r, Decision (P r)}
    : M Subscription.t :=
  λ db,
    match head (filter P (rows db)) with
    | Some r => (Returned r, db)
    | None => (Thrown "Could not find any entity of type Subscription", db)
    end.

(** The condition [{ id: input.id, user: { id: uid } }]. *)
Definition owned (i : Id) (uid : UserId) (r : Subscription.t) : Prop :=
  Subscription.id r = i ∧ Subscription.user r = uid.
Global Instance owned_dec i uid r : Decision (owned i uid r).
Proof. unfold owned. apply _. Defined.

(** The object handed to [save]: a string field is given as [x || undefined],
    a date as [x ? new Date(x) : undefined], a flag as [x ?? undefined]. An
    enum value and a date are truthy whenever they are present. *)
Definition update_partial (input : UpdateSubscriptionInput.t) : DeepPartial.t :=
  {| DeepPartial.id := UpdateSubscriptionInput.id input;
     DeepPartial.user := None;
     DeepPartial.type := None;
     DeepPartial.url := None;
     DeepPartial.name := or_undefined (UpdateSubscriptionInput.name input);
     DeepPartial.description :=
       Some <$> or_undefined (UpdateSubscriptionInput.description input);
     DeepPartial.icon := None;
     DeepPartial.status := nullish (UpdateSubscriptionInput.status input);
     DeepPartial.createdAt := None;
     DeepPartial.lastFetchedAt :=
       Some <$> nullish (UpdateSubscriptionInput.lastFetchedAt input);
     DeepPartial.lastFetchedChecksum :=
       Some <$> or_undefined (UpdateSubscriptionInput.lastFetchedChecksum input);
     DeepPartial.scheduledAt :=
       Some <$> nullish (UpdateSubscriptionInput.scheduledAt input);
     DeepPartial.autoAddToLibrary :=
       Some <$> nullish (UpdateSubscriptionInput.autoAddToLibrary input);
     DeepPartial.isPrivate :=
       Some <$> nullish (UpdateSubscriptionInput.isPrivate input);
     DeepPartial.unsubscribeMailTo := None;
     DeepPartial.unsubscribeHttpUrl := None |}.

Definition updateSubscriptionResolver (input : UpdateSubscriptionInput.t)
    (uid : UserId) : Db → UpdateSubscriptionResult * Db :=
  try_catch
    (updatedSubscription ←
       authTrx (_ ← save (update_partial input);
                findOneByOrFail (owned (UpdateSubscriptionInput.id input) uid));
     mret (UpdateSubscriptionSuccess updatedSubscription))
    (λ _, UpdateSubscriptionError [BadRequest]).

(** ** Worlds for the examples *)

(** A world whose feed search is [catalog_search] over the given catalog and
    whose [Number] and [String] are the built-ins; nothing else answers. *)
Definition catalog_env (catalog : list Feed.t) : Env :=
  {| Number := builtin_Number;
     String_ := builtin_String;
     parseFeed := λ _, Returned None;
     parseOpml := λ _, None;
     enqueueFailure := λ _, None;
     searchFeeds := catalog_search catalog;
     axios_get := λ _, Thrown "Network Error";
     rss_links := λ _, [];
     now := 0 |}.

Definition feeds_input (after : string) (first : Z) : FeedsInput :=
  {| after := Val after; first := Val first; query := Undefined; sort := Undefined |}.

(** A world whose feed search returns the given entries and count whatever
    it is asked, as a search over a catalog without end can at any offset. *)
Definition search_env (feeds : list Feed.t) (count : Z) : Env :=
  {| Number := builtin_Number;
     String_ := builtin_String;
     parseFeed := λ _, Returned None;
     parseOpml := λ _, None;
     enqueueFailure := λ _, None;
     searchFeeds := λ _ _ _ _ _, Returned (feeds, count);
     axios_get := λ _, Thrown "Network Error";
     rss_links := λ _, [];
     now := 0 |}.

(** A world in which every URL answers with a plain-text body that is not a
    feed. *)
Definition plain_text_env : Env :=
  {| Number := builtin_Number;
     String_ := builtin_String;
     parseFeed := λ _, Returned None;
     parseOpml := λ _, None;
     enqueueFailure := λ _, None;
     searchFeeds := catalog_search [];
     axios_get := λ _, Returned {| data := "not a feed";
                                   content_type := Some "text/plain" |};
     rss_links := λ _, [];
     now := 0 |}.

(** A world in which every URL serves, as XML, one feed whose own url is
    [https://blog.example/feed.xml]. *)
Definition blog_feed : Feed.t :=
  {| Feed.title := "A blog";
     Feed.url := "https://blog.example/feed.xml";
     Feed.description := Some "Posts";
     Feed.thumbnail := None;
     Feed.type := Some "rss" |}.

Definition blog_env : Env :=
  {| Number := builtin_Number;
     String_ := builtin_String;
     parseFeed := λ _, Returned (Some blog_feed);
     parseOpml := λ _, None;
     enqueueFailure := λ _, None;
     searchFeeds := catalog_search [blog_feed];
     axios_get := λ _, Returned {| data := "<rss/>";
                                   content_type := Some "application/xml" |};
     rss_links := λ _, [];
     now := 1700000000 |}.

(** ** Tables for the examples *)

Definition rss_row (i : Id) (uid : UserId) (url : string)
    (status : SubscriptionStatus) (createdAt : Timestamp)
    (lastFetchedAt : option Timestamp) (checksum : option string)
    : Subscription.t :=
  {| Subscription.id := i;
     Subscription.user := uid;
     Subscription.type := Rss;
     Subscription.url := Some url;
     Subscription.name := "A blog";
     Subscription.description := None;
     Subscription.icon := None;
     Subscription.status := status;
     Subscription.createdAt := createdAt;
     Subscription.lastFetchedAt := lastFetchedAt;
     Subscription.lastFetchedChecksum := checksum;
     Subscription.scheduledAt := None;
     Subscription.autoAddToLibrary := Some true;
     Subscription.isPrivate := None;
     Subscription.unsubscribeMailTo := None;
     Subscription.unsubscribeHttpUrl := None |}.

Definition newsletter_row (i : Id) (uid : UserId) (status : SubscriptionStatus)
    (createdAt : Timestamp) : Subscription.t :=
  {| Subscription.id := i;
     Subscription.user := uid;
     Subscription.type := Newsletter;
     Subscription.url := None;
     Subscription.name := "A newsletter";
     Subscription.description := None;
     Subscription.icon := None;
     Subscription.status := status;
     Subscription.createdAt := createdAt;
     Subscription.lastFetchedAt := None;
     Subscription.lastFetchedChecksum := None;
     Subscription.scheduledAt := None;
     Subscription.autoAddToLibrary := None;
     Subscription.isPrivate := None;
     Subscription.unsubscribeMailTo := Some "leave@news.example";
     Subscription.unsubscribeHttpUrl := None |}.

Arguments rss_row i%_nat uid url status createdAt lastFetchedAt checksum.
Arguments newsletter_row i%_nat uid status createdAt.

Definition table_of (table : list Subscription.t) : Db :=
  {| rows := table; next_id := S (length table); tasks := [] |}.

(** One user with a lapsed subscription to a blog, fetched once. *)
Definition lapsed_row : Subscription.t :=
  rss_row 1 "alice" "https://blog.example/rss" Unsubscribed 100 (Some 200)
          (Some "c0ffee").

Definition lapsed_db : Db := table_of [lapsed_row].

Definition subscribe_input (url : string) : SubscribeInput :=
  {| input_url := url;
     input_autoAddToLibrary := Undefined;
     input_isPrivate := Val false |}.

(** A user's mixed table: RSS rows fetched, never fetched and unsubscribed,
    and newsletters active and unsubscribed; one row of another user. *)
Definition mixed_db : Db :=
  table_of
    [ rss_row 1 "alice" "https://a.example/rss" Unsubscribed 10 (Some 90) None;
      rss_row 2 "alice" "https://b.example/rss" Active 20 None None;
      newsletter_row 3 "alice" Unsubscribed 30;
      rss_row 4 "alice" "https://c.example/rss" Active 40 (Some 50) None;
      newsletter_row 5 "alice" Active 60;
      rss_row 6 "bob" "https://a.example/rss" Active 70 (Some 80) None ].

(** ** Concurrent subscribe calls *)

(** Where a call of [subscribeResolver] stands: before one of its [await]s,
    with the values bound so far, or returned. *)
Inductive call_state :=
  | AtFind
  | AtSave (existingSubscription : Subscription.t)
  | AtEnqueueResubscribed (updatedSubscription : Subscription.t)
  | AtParseFeed
  | AtInsert (feed : Feed.t)
  | AtEnqueueNew (newSubscription : Subscription.t)
  | Done (result : SubscribeResult).

(** Run the awaited call against the store as it is now and go on with its
    value; an exception takes the call to its [catch] block. *)
Definition resume {A} (awaited : M A) (next : A → call_state) (db : Db)
    : call_state * Db :=
  match awaited db with
  | (Returned a, db') => (next a, db')
  | (Thrown message, db') => (Done (subscribe_catch message), db')
  end.

(** One step of a call: the awaited call it stands before, taken as one
    indivisible operation, up to the next [await] or the [return]. *)
Definition call_step (env : Env) (input : SubscribeInput) (uid : UserId)
    (st : call_state) : Db → call_state * Db :=
  match st with
  | AtFind =>
      resume (findOneBy (same_feed (input_url input) uid))
        (λ existingSubscription,
           match existingSubscription with
           | Some existingSubscription =>
               if decide (Subscription.status existingSubscription = Active)
               then Done (SubscribeError [AlreadySubscribed])
               else AtSave existingSubscription
           | None => AtParseFeed
           end)
  | AtSave existingSubscription =>
      resume (save_entity (with_status existingSubscription Active))
             AtEnqueueResubscribed
  | AtEnqueueResubscribed updatedSubscription =>
      resume (enqueueRssFeedFetch env
                (resubscribe_request env input uid updatedSubscription))
             (λ _, Done (SubscribeSuccess [updatedSubscription]))
  | AtParseFeed =>
      resume (await_parseFeed env (input_url input))
        (λ feed,
           match feed with
           | None => Done (SubscribeError [NotFound])
           | Some feed => AtInsert feed
           end)
  | AtInsert feed =>
      resume (insert_having_count env
                (Feed.title feed) (Feed.url feed)
                (or_null (Feed.description feed))
                Rss uid
                (or_null (Feed.thumbnail feed))
                (nullish (input_autoAddToLibrary input))
                (nullish (input_isPrivate input))
                MAX_RSS_SUBSCRIPTIONS)
        (λ results,
           match results with
           | [] => Done (SubscribeError [ExceededMaxSubscriptions])
           | newSubscription :: _ => AtEnqueueNew newSubscription
           end)
  | AtEnqueueNew newSubscription =>
      resume (enqueueRssFeedFetch env
                (new_subscription_request env input uid newSubscription))
             (λ _, Done (SubscribeSuccess [newSubscription]))
  | Done result => λ db, (Done result, db)
  end.

(** [n] steps of one call with no other call in between. *)
Fixpoint call_steps (env : Env) (input : SubscribeInput) (uid : UserId)
    (n : nat) (st : call_state) (db : Db) : call_state * Db :=
  match n with
  | O => (st, db)
  | S n =>
      let '(st', db') := call_step env input uid st db in
      call_steps env input uid n st' db'
  end.

(** A call that runs alone reaches its [return] in four steps at most. *)
Definition call_alone (env : Env) (input : SubscribeInput) (uid : UserId)
    (db : Db) : call_state * Db :=
  call_steps env input uid 4 AtFind db.

Definition returned (st : call_state) : bool :=
  match st with
  | Done _ => true
  | _ => false
  end.

Definition succeeded (st : call_state) : bool :=
  match st with
  | Done (SubscribeSuccess _) => true
  | _ => false
  end.

(** Calls of one user in flight: the state of every call and the store they
    share. A step picks any call that has not returned and lets it perform
    the awaited call it stands before. *)
Inductive step (env : Env) (uid : UserId) (inputs : list SubscribeInput)
    : relation (list call_state * Db) :=
  | step_call (i : nat) (input : SubscribeInput) (st : call_state)
      (calls : list call_state) (db : Db) :
      inputs !! i = Some input →
      calls !! i = Some st →
      returned st = false →
      step env uid inputs
        (calls, db)
        (<[i := (call_step env input uid st db).1]> calls,
         (call_step env input uid st db).2).

(** The states a set of calls issued together can reach. *)
Definition reachable (env : Env) (uid : UserId) (inputs : list SubscribeInput)
    (db : Db) : list call_state * Db → Prop :=
  rtc (step env uid inputs) (replicate (length inputs) AtFind, db).

(** A call that holds the row it has inserted: it waits for the task queue
    or has returned with success. *)
Definition holds_row (st : call_state) : nat :=
  match st with
  | AtEnqueueNew _ => 1
  | Done (SubscribeSuccess _) => 1
  | _ => 0
  end.

(** A call that is past its insert, or has returned. *)
Definition past_insert (st : call_state) : Prop :=
  match st with
  | AtEnqueueNew _ | Done _ => True
  | _ => False
  end.

(** A row that one of the calls has inserted: an active RSS row of the user
    with the url of the feed parsed at the URL of one of the calls. *)
Definition created_row (env : Env) (uid : UserId) (inputs : list SubscribeInput)
    (row : Subscription.t) : Prop :=
  active_rss_of uid row
  ∧ ∃ input feed,
      input ∈ inputs
      ∧ parseFeed env (input_url input) = Returned (Some feed)
      ∧ Subscription.url row = Some (Feed.url feed).

(** What a call for a URL that is new to the user can have bound: the feed
    parsed at its URL, or a row among the created ones; it never takes the
    path of a re-subscription. *)
Definition call_ok (env : Env) (input : SubscribeInput)
    (created : list Subscription.t) (st : call_state) : Prop :=
  match st with
  | AtFind | AtParseFeed => True
  | AtInsert feed => parseFeed env (input_url input) = Returned (Some feed)
  | AtEnqueueNew newSubscription => newSubscription ∈ created
  | Done (SubscribeSuccess subscriptions) =>
      ∃ newSubscription,
        subscriptions = [newSubscription] ∧ newSubscription ∈ created
  | Done (SubscribeError _) => True
  | AtSave _ | AtEnqueueResubscribed _ => False
  end.

(** What holds of the calls and the store at every point of an execution,
    whatever the parser and the task queue do: the table is the initial one
    followed by the rows the calls have inserted; no more calls hold a row
    than rows were inserted; the user is within the quota. *)
Definition quota_invariant (env : Env) (uid : UserId)
    (inputs : list SubscribeInput) (db0 : Db) (s : list call_state * Db)
    : Prop :=
  ∃ created : list Subscription.t,
    rows s.2 = rows db0 ++ created
    ∧ Forall (created_row env uid inputs) created
    ∧ Forall2 (λ input st, call_ok env input created st) inputs s.1
    ∧ (sum_list_with holds_row s.1 ≤ length created)%nat
    ∧ count_active_rss uid (rows s.2) ≤ MAX_RSS_SUBSCRIPTIONS.

(** The states of a call that finds no row, parses a feed, and is taken by
    the task queue. *)
Definition on_track (env : Env) (input : SubscribeInput) (st : call_state)
    : Prop :=
  match st with
  | AtFind | AtParseFeed | AtEnqueueNew _ => True
  | AtInsert feed => parseFeed env (input_url input) = Returned (Some feed)
  | Done (SubscribeSuccess [_]) => True
  | Done (SubscribeError [ExceededMaxSubscriptions]) => True
  | _ => False
  end.

(** A row with the call that has inserted it: the row has the url of the
    feed parsed at the URL of the call, and the call is past its insert. *)
Definition owned_row (env : Env) (inputs : list SubscribeInput)
    (calls : list call_state) (row : Subscription.t) : Prop :=
  ∃ (i : nat) (input : SubscribeInput) (feed : Feed.t) (st : call_state),
    inputs !! i = Some input
    ∧ parseFeed env (input_url input) = Returned (Some feed)
    ∧ Subscription.url row = Some (Feed.url feed)
    ∧ calls !! i = Some st
    ∧ past_insert st.

(** What holds at every point of an execution in which every URL parses
    as a feed whose url is not the URL of another call and the task queue
    takes every request. *)
Definition track_invariant (env : Env) (inputs : list SubscribeInput)
    (db0 : Db) (s : list call_state * Db) : Prop :=
  ∃ created : list Subscription.t,
    rows s.2 = rows db0 ++ created
    ∧ Forall (owned_row env inputs s.1) created
    ∧ Forall2 (on_track env) inputs s.1.

(** The execution in which the calls take their steps in the given order:
    [schedule] names, step after step, the call that goes on. *)
Fixpoint run_schedule (env : Env) (uid : UserId) (inputs : list SubscribeInput)
    (schedule : list nat) (s : list call_state * Db) : list call_state * Db :=
  match schedule with
  | [] => s
  | i :: schedule =>
      match inputs !! i, s.1 !! i with
      | Some input, Some st =>
          if returned st then run_schedule env uid inputs schedule s
          else run_schedule env uid inputs schedule
                 (<[i:=(call_step env input uid st s.2).1]> s.1,
                  (call_step env input uid st s.2).2)
      | _, _ => run_schedule env uid inputs schedule s
      end
  end.

(** How many steps a call still has before it returns, at most. *)
Definition steps_left (st : call_state) : nat :=
  match st with
  | AtFind => 4
  | AtSave _ => 2
  | AtEnqueueResubscribed _ => 1
  | AtParseFeed => 3
  | AtInsert _ => 2
  | AtEnqueueNew _ => 1
  | Done _ => 0
  end.

(** A world in which every URL serves a feed that names that URL as its
    own, and a user one subscription short of the quota. *)
Definition echo_env : Env :=
  {| Number := builtin_Number;
     String_ := builtin_String;
     parseFeed := λ url, Returned (Some {| Feed.title := "A feed";
                                           Feed.url := url;
                                           Feed.description := None;
                                           Feed.thumbnail := None;
                                           Feed.type := Some "rss" |});
     parseOpml := λ _, None;
     enqueueFailure := λ _, None;
     searchFeeds := catalog_search [];
     axios_get := λ _, Thrown "Network Error";
     rss_links := λ _, [];
     now := 1700000000 |}.

Definition nearly_full_db : Db :=
  table_of ((λ n, rss_row n "erin" ("https://old.example/" +:+ pretty n)
                          Active 0 None None) <$> seq 1 149).

(** The row a subscription of carol's stores in [blog_env], whatever URL she
    subscribed with. *)
Definition blog_row (i : Id) : Subscription.t :=
  {| Subscription.id := i;
     Subscription.user := "carol";
     Subscription.type := Rss;
     Subscription.url := Some "https://blog.example/feed.xml";
     Subscription.name := "A blog";
     Subscription.description := Some "Posts";
     Subscription.icon := None;
     Subscription.status := Active;
     Subscription.createdAt := 1700000000;
     Subscription.lastFetchedAt := None;
     Subscription.lastFetchedChecksum := None;
     Subscription.scheduledAt := None;
     Subscription.autoAddToLibrary := None;
     Subscription.isPrivate := Some false;
     Subscription.unsubscribeMailTo := None;
     Subscription.unsubscribeHttpUrl := None |}.
Arguments blog_row i%_nat.

(** The row erin's subscription to [https://a.example/feed] stores in
    [echo_env] when her table is [nearly_full_db]. *)
Definition erin_row : Subscription.t :=
  {| Subscription.id := 150%nat;
     Subscription.user := "erin";
     Subscription.type := Rss;
     Subscription.url := Some "https://a.example/feed";
     Subscription.name := "A feed";
     Subscription.description := None;
     Subscription.icon := None;
     Subscription.status := Active;
     Subscription.createdAt := 1700000000;
     Subscription.lastFetchedAt := None;
     Subscription.lastFetchedChecksum := None;
     Subscription.scheduledAt := None;
     Subscription.autoAddToLibrary := None;
     Subscription.isPrivate := Some false;
     Subscription.unsubscribeMailTo := None;
     Subscription.unsubscribeHttpUrl := None |}.

(** ** unsubscribeResolver *)

Inductive UnsubscribeResult :=
  | UnsubscribeSuccess (subscription : Subscription.t)
  | UnsubscribeError (errorCodes : list ErrorCode).

(** The conditions of the query: [where({ user: { id: uid } })] and then,
    as [if (subscriptionId)] decides, [andWhere({ id: subscriptionId })] or
    [andWhere({ name })]. The id of the request is a string; an id that is
    absent, null or the empty string is falsy. [id_text] is the text of a
    key, by which the store compares it with the id of the request. *)
Definition unsubscribe_key (id_text : Id → string) (name : string)
    (subscriptionId : nullable string) (uid : UserId) (r : Subscription.t)
    : Prop :=
  Subscription.user r = uid
  ∧ match subscriptionId with
    | Val subscriptionId =>
        if truthy subscriptionId
        then id_text (Subscription.id r) = subscriptionId
        else Subscription.name r = name
    | _ => Subscription.name r = name
    end.
Global Instance unsubscribe_key_dec id_text name subscriptionId uid r :
  Decision (unsubscribe_key id_text name subscriptionId uid r).
Proof.
  unfold unsubscribe_key.
  destruct subscriptionId as [| |i]; [apply _..|]. destruct (truthy i); apply _.
Defined.

(** [getOne()]: the first row that satisfies the conditions of the query. *)
Definition getOne (P : Subscription.t → Prop) `{∀ r, Decision (P r)}
    : M (option Subscription.t) :=
  findOneBy P.

Section Unsubscribe.
(** The text of a key, and [services/subscriptions.unsubscribe], which is
    not part of the sources: any effect on the store, or an exception. The
    resolver answers with the row as it was loaded. *)
Context (id_text : Id → string).
Context (unsubscribe : Subscription.t → M unit).

Definition unsubscribeResolver (name : string)
    (subscriptionId : nullable string) (uid : UserId)
    : Db → UnsubscribeResult * Db :=
  try_catch
    (subscription ← getOne (unsubscribe_key id_text name subscriptionId uid);
     match subscription with
     | None => mret (UnsubscribeError [NotFound])
     | Some subscription =>
         _ ← unsubscribe subscription;
         mret (UnsubscribeSuccess subscription)
     end)
    (λ _, UnsubscribeError [BadRequest]).
End Unsubscribe.

(** A service that marks the row UNSUBSCRIBED, for the examples. *)
Definition mark_unsubscribed (subscription : Subscription.t) : M unit :=
  save {| DeepPartial.id := Subscription.id subscription;
          DeepPartial.user := None; DeepPartial.type := None;
          DeepPartial.url := None; DeepPartial.name := None;
          DeepPartial.description := None; DeepPartial.icon := None;
          DeepPartial.status := Some Unsubscribed;
          DeepPartial.createdAt := None; DeepPartial.lastFetchedAt := None;
          DeepPartial.lastFetchedChecksum := None;
          DeepPartial.scheduledAt := None;
          DeepPartial.autoAddToLibrary := None; DeepPartial.isPrivate := None;
          DeepPartial.unsubscribeMailTo := None;
          DeepPartial.unsubscribeHttpUrl := None |}.

(** A user at the quota who also holds a lapsed subscription. *)
Definition full_db : Db :=
  table_of (((λ n, rss_row n "erin" ("https://old.example/" +:+ pretty n)
                           Active 0 None None) <$> seq 1 150)
            ++ [rss_row 151 "erin" "https://lapsed.example/rss" Unsubscribed 0
                        None None]).

(** The update that sets the status of a row and names no other field. *)
Definition status_update (i : Id) (s : SubscriptionStatus)
    : UpdateSubscriptionInput.t :=
  {| UpdateSubscriptionInput.id := i;
     UpdateSubscriptionInput.name := Undefined;
     UpdateSubscriptionInput.description := Undefined;
     UpdateSubscriptionInput.lastFetchedAt := Undefined;
     UpdateSubscriptionInput.lastFetchedChecksum := Undefined;
     UpdateSubscriptionInput.status := Val s;
     UpdateSubscriptionInput.scheduledAt := Undefined;
     UpdateSubscriptionInput.autoAddToLibrary := Undefined;
     UpdateSubscriptionInput.isPrivate := Undefined |}.
Arguments status_update i%_nat s.

(** A request with another [after] and the same other fields. *)
Definition with_after (a : nullable string) (input : FeedsInput) : FeedsInput :=
  {| after := a; first := first input; query := query input;
     sort := sort input |}.

(** A world in which every URL answers with an HTML page that has three RSS
    links: one with a title, one without, and one without an address. *)
Definition page_links : list Link :=
  [ {| href := Some "https://blog.example/feed.xml";
       link_title := Some "A blog" |};
    {| href := None; link_title := Some "No address" |};
    {| href := Some "https://blog.example/comments.xml";
       link_title := None |};
    {| href := Some ""; link_title := Some "Empty address" |} ].

Definition page_env : Env :=
  {| Number := builtin_Number;
     String_ := builtin_String;
     parseFeed := λ _, Thrown "Status code 404";
     parseOpml := λ opml,
       if decide (opml = "<opml/>")
       then Some [ {| Feed.title := "Outline";
                      Feed.url := "https://news.example/rss";
                      Feed.description := Some "dropped";
                      Feed.thumbnail := None;
                      Feed.type := None |};
                   {| Feed.title := "Atom outline";
                      Feed.url := "https://news.example/atom";
                      Feed.description := None;
                      Feed.thumbnail := None;
                      Feed.type := Some "atom" |} ]
       else None;
     enqueueFailure := λ _, None;
     searchFeeds := catalog_search [];
     axios_get := λ _, Returned {| data := "<html/>";
                                   content_type :=
                                     Some "text/html; charset=utf-8" |};
     rss_links := λ _, page_links;
     now := 0 |}.

(** * Text to speech

    [synthesizeTextToSpeech] of the text-to-speech utility: the input text
    is cut into chunks, the chunks are handed to the speech synthesizer one
    after the other, and the word boundaries the synthesizer reports are
    collected as speech marks. *)

Module WordBoundary.
(** The event of [synthesizer.wordBoundary], as far as the handler reads
    it. *)
Record t := mk {
  text : list Z;
  audioOffset : Z;
  textOffset : Z;
  wordLength : Z
}.
End WordBoundary.

Module SpeechMark.
(** [time] is the quotient the handler computes, as an exact fraction. *)
Record t := mk {
  time : QArith_base.Q;
  start : Z;
  length : Z;
  word : list Z
}.
End SpeechMark.

Module TextToSpeech.

(** A string of the language: a sequence of UTF-16 code units, which is what
    [length] counts and what a regular expression without the [u] flag
    walks over. *)
Abbreviation code_unit := Z (only parsing).
Abbreviation js_string := (list Z) (only parsing).

Definition LF : code_unit := 10.
Definition CR : code_unit := 13.
Definition LS : code_unit := 8232.
Definition PS : code_unit := 8233.

(** [.] without the [s] flag: every code unit but the four line
    terminators. *)
Definition dot (c : code_unit) : bool :=
  negb (bool_decide (c = LF ∨ c = CR ∨ c = LS ∨ c = PS)).

(** [[\r\n]] *)
Definition cr_or_lf (c : code_unit) : bool := bool_decide (c = CR ∨ c = LF).

(** [(.|[\r\n])] *)
Definition atom (c : code_unit) : bool := dot c || cr_or_lf c.

(** [(.|[\r\n]){1,n}] tried at the head of the text: the quantifier is
    greedy and nothing follows it, so the match is the longest run of at
    most [n] code units; the result is the match (empty when there is none)
    and the rest of the text. *)
Fixpoint repeat_atom (n : nat) (text : js_string) : js_string * js_string :=
  match n, text with
  | S n, c :: rest =>
      if atom c
      then let (matched, rest') := repeat_atom n rest in (c :: matched, rest')
      else ([], text)
  | _, _ => ([], text)
  end.

(** The upper bound of the quantifier. *)
Definition chunk_length : nat := 1000.

(** The matches of the global expression, from left to right: a position
    at which the expression does not match is passed over, and after a
    match the search goes on behind it. Every step uses up a code unit, so
    the length of the text is fuel enough. *)
Fixpoint match_from (fuel : nat) (text : js_string) : list js_string :=
  match fuel, text with
  | S fuel, c :: rest =>
      match repeat_atom chunk_length text with
      | ([], _) => match_from fuel rest
      | (matched, rest') => matched :: match_from fuel rest'
      end
  | _, _ => []
  end.

(** [text.match(/(.|[\r\n]){1,1000}/g)]: the matches, or [null] when there
    is none. *)
Definition match_global (text : js_string) : option (list js_string) :=
  match match_from (length text) text with
  | [] => None
  | matches => Some matches
  end.

(** [input.text.match(/(.|[\r\n]){1,1000}/g) || []] *)
Definition textChunks (text : js_string) : list js_string :=
  default [] (match_global text).

Record TextToSpeechInput := mkTextToSpeechInput {
  id : string;
  text : js_string
}.

Record TextToSpeechOutput := mkTextToSpeechOutput {
  audioUrl : string;
  speechMarks : list SpeechMark.t
}.

(** The handler of [synthesizer.wordBoundary], for the offsets as they
    stand when the event arrives. *)
Definition wordBoundary (timeOffset characterOffset : Z) (e : WordBoundary.t)
    : SpeechMark.t :=
  {| SpeechMark.word := WordBoundary.text e;
     SpeechMark.time := QArith_base.Qmake (timeOffset + WordBoundary.audioOffset e) 10000;
     SpeechMark.start := characterOffset + WordBoundary.textOffset e;
     SpeechMark.length := WordBoundary.wordLength e |}.

Section Synthesize.
(** The synthesizer of one run: what its n-th call of [speakTextAsync]
    answers for the text it is given, the [audioDuration] of the result
    and the word boundaries reported while the text is spoken (they arrive
    before the result does), or the error the call is rejected with. The
    audio data, which goes to the file, is left out. *)
Context (speakTextAsync : nat → js_string → outcome (Z * list WordBoundary.t)).
(** [getFilePublicUrl] of the uploads module. *)
Context (getFilePublicUrl : string → string).

(** The loop over the chunks, from its n-th round on. *)
Fixpoint speak_chunks (n : nat) (textChunks : list js_string)
    (timeOffset characterOffset : Z) (speechMarks : list SpeechMark.t)
    : outcome (list SpeechMark.t) :=
  match textChunks with
  | [] => Returned speechMarks
  | textChunk :: rest =>
      match speakTextAsync n textChunk with
      | Thrown error => Thrown error
      | Returned (audioDuration, events) =>
          speak_chunks (S n) rest
            (timeOffset + audioDuration)
            (characterOffset + Z.of_nat (length textChunk))
            (speechMarks ++ (wordBoundary timeOffset characterOffset <$> events))
      end
  end.

Definition synthesizeTextToSpeech (input : TextToSpeechInput)
    : outcome TextToSpeechOutput :=
  let audioFile := "speech/" +:+ id input +:+ ".mp3" in
  match speak_chunks 0 (textChunks (text input)) 0 0 [] with
  | Returned speechMarks =>
      Returned {| audioUrl := getFilePublicUrl audioFile;
                  speechMarks := speechMarks |}
  | Thrown error => Thrown error
  end.
End Synthesize.

(** A synthesizer that reports every chunk as one word, a tick long for
    each code unit. *)
Definition one_word (n : nat) (chunk : js_string)
    : outcome (Z * list WordBoundary.t) :=
  Returned (Z.of_nat (length chunk),
            [ {| WordBoundary.text := chunk;
                 WordBoundary.audioOffset := 0;
                 WordBoundary.textOffset := 0;
                 WordBoundary.wordLength := Z.of_nat (length chunk) |} ]).

(** Two lines of text, the line feed between them. *)
Definition two_lines : js_string := [104; 105; 10; 121; 111].

(** A text of 2500 code units. *)
Definition long_text : js_string := replicate 2500 97.

End TextToSpeech.

(** The public URL of a file in the bucket of the examples. *)
Definition example_public_url (file : string) : string :=
  "https://storage.example/" +:+ file.

(** * Sign-in with Google on the web

    [handleGoogleWebAuth] of [routers/auth/google_auth.ts]: the ID token is
    verified, the user is looked up by the e-mail address of the token, and
    the answer is a redirect with a session token, a redirect with a token
    for a pending user, or a redirect to the login page. *)

Module GoogleAuth.

(** [loginTicket.getPayload()?.email] and [loginTicket.getUserId()]. *)
Record LoginTicket := mkLoginTicket {
  payload_email : option string;
  getUserId : option string
}.

Record Profile := mkProfile {
  profile_username : string
}.

(** A row of the users table, as far as the function reads it. *)
Record User := mkUser {
  user_id : string;
  profile : option Profile
}.

(** The argument of [createPendingUserToken]. *)
Record PendingUser := mkPendingUser {
  email : string;
  sourceUserId : string;
  provider : string;
  name : string;
  username : string
}.

Record GoogleWebAuthResponse := mkGoogleWebAuthResponse {
  redirectURL : string;
  authToken : option string;
  pendingUserAuth : option string
}.

(** The environment and the collaborators of other modules. *)
Record Env := mkEnv {
  (** [env.google.auth.clientId] *)
  clientId : string;
  (** [env.client.url] *)
  client_url : string;
  (** [homePageURL()] *)
  homePageURL : string;
  (** [LoginErrorCode.AuthFailed], a member of a generated enum *)
  AuthFailed : string;
  (** [googleWebClient.verifyIdToken({ idToken, audience })] *)
  verifyIdToken : string → string → outcome LoginTicket;
  (** [new UserModel().getWhere({ email, source })] *)
  getWhere : string → string → outcome (option User);
  (** [createPendingUserToken(payload)] *)
  createPendingUserToken : PendingUser → outcome (option string);
  (** [createWebAuthToken(userId)] *)
  createWebAuthToken : string → outcome (option string);
  (** [createSsoToken(authToken, redirect)] *)
  createSsoToken : string → string → outcome string;
  (** [ssoRedirectURL(ssoToken)] *)
  ssoRedirectURL : string → string
}.

Section HandleGoogleWebAuth.
Context (env : Env).

Definition baseURL (isLocal isVercel : bool) : string :=
  if isLocal then "http://localhost:3000"
  else if isVercel then homePageURL env
  else client_url env.

Definition authFailedRedirect (isLocal isVercel : bool) : string :=
  baseURL isLocal isVercel +:+ "/login?errorCodes=" +:+ AuthFailed env.

(** [{ redirectURL: authFailedRedirect }] *)
Definition auth_failed (isLocal isVercel : bool) : GoogleWebAuthResponse :=
  {| redirectURL := authFailedRedirect isLocal isVercel;
     authToken := None;
     pendingUserAuth := None |}.

(** The body of the [try] block; a [Thrown] goes to the [catch] block. *)
Definition handle_body (idToken : string) (isLocal isVercel : bool)
    : outcome GoogleWebAuthResponse :=
  match verifyIdToken env idToken (clientId env) with
  | Thrown e => Thrown e
  | Returned loginTicket =>
      let email := payload_email loginTicket in
      let sourceUserId := or_null (getUserId loginTicket) in
      match or_null email with
      | None => Returned (auth_failed isLocal isVercel)
      | Some email =>
          match getWhere env email "GOOGLE" with
          | Thrown e => Thrown e
          | Returned user =>
              let userId := or_null (user_id <$> user) in
              match userId, user ≫= profile with
              | Some userId, Some _ =>
                  match createWebAuthToken env userId with
                  | Thrown e => Thrown e
                  | Returned authToken =>
                      match or_null authToken with
                      | Some authToken =>
                          match createSsoToken env authToken
                                  (baseURL isLocal isVercel +:+ "/home") with
                          | Thrown e => Thrown e
                          | Returned ssoToken =>
                              Returned
                                {| authToken := Some authToken;
                                   redirectURL :=
                                     if isVercel
                                     then ssoRedirectURL env ssoToken
                                     else baseURL isLocal isVercel +:+ "/home";
                                   pendingUserAuth := None |}
                          end
                      | None => Returned (auth_failed isLocal isVercel)
                      end
                  end
              | _, _ =>
                  match createPendingUserToken env
                          {| email := email;
                             sourceUserId := default "" sourceUserId;
                             provider := "GOOGLE";
                             name := "";
                             username := "" |} with
                  | Thrown e => Thrown e
                  | Returned pendingUserAuth =>
                      Returned
                        {| redirectURL :=
                             baseURL isLocal isVercel +:+ "/confirm-profile";
                           authToken := None;
                           pendingUserAuth := pendingUserAuth |}
                  end
              end
          end
      end
  end.

Definition handleGoogleWebAuth (idToken : string) (isLocal isVercel : bool)
    : GoogleWebAuthResponse :=
  match handle_body idToken isLocal isVercel with
  | Returned response => response
  | Thrown _ => auth_failed isLocal isVercel
  end.
End HandleGoogleWebAuth.

(** A world with one registered user, ada, and one address that has no
    user yet; the token is the address it certifies. *)
Definition example_env : Env :=
  {| clientId := "client-1";
     client_url := "https://app.example";
     homePageURL := "https://preview.example";
     AuthFailed := "AUTH_FAILED";
     verifyIdToken := λ idToken audience,
       if decide (idToken = "forged") then Thrown "Invalid token signature"
       else Returned {| payload_email := Some idToken;
                        getUserId := Some "g-1" |};
     getWhere := λ email source,
       if decide (email = "ada@example.com")
       then Returned (Some {| user_id := "u-ada";
                              profile := Some {| profile_username := "ada" |} |})
       else Returned None;
     createPendingUserToken := λ pending,
       Returned (Some ("pending:" +:+ email pending));
     createWebAuthToken := λ userId, Returned (Some ("session:" +:+ userId));
     createSsoToken := λ authToken redirect,
       Returned ("sso:" +:+ authToken +:+ "@" +:+ redirect);
     ssoRedirectURL := λ ssoToken, "https://app.example/sso?t=" +:+ ssoToken |}.

End GoogleAuth.

(** * Properties *)

(** ** Running the monad *)

Lemma run_bind {A B} (m : M A) (f : A → M B) (db : Db) :
  (m ≫= f) db =
  match m db with
  | (Returned a, db') => f a db'
  | (Thrown e, db') => (Thrown e, db')
  end.
Proof. reflexivity. Qed.

Lemma run_ret {A} (a : A) (db : Db) : (mret a : M A) db = (Returned a, db).
Proof. reflexivity. Qed.

Lemma head_filter_Some {A} (P : A → Prop) `{∀ x, Decision (P x)} (l : list A) (a : A) :
  head (filter P l) = Some a → a ∈ l ∧ P a.
Proof.
  intros Hhd.
  assert (a ∈ filter P l) as Hin.
  { destruct (filter P l) as [|b k]; simplify_eq/=. left. }
  by apply list_elem_of_filter in Hin as [? ?].
Qed.

Lemma head_filter_None {A} (P : A → Prop) `{∀ x, Decision (P x)} (l : list A) :
  head (filter P l) = None → Forall (λ a, ¬ P a) l.
Proof.
  intros Hhd. apply Forall_forall. intros a Hin Ha.
  assert (a ∈ filter P l) as Hf by (by apply list_elem_of_filter).
  destruct (filter P l) as [|b k]; [by apply elem_of_nil in Hf | by simplify_eq/=].
Qed.

Lemma findOneBy_Some (P : Subscription.t → Prop) `{∀ r, Decision (P r)}
    (db : Db) (r : Subscription.t) :
  findOneBy P db = (Returned (Some r), db) →
  head (filter P (rows db)) = Some r ∧ r ∈ rows db ∧ P r.
Proof.
  unfold findOneBy. intros Hfind.
  assert (head (filter P (rows db)) = Some r) as Hhead by congruence.
  split; [done|]. by apply (head_filter_Some P).
Qed.

Lemma findOneBy_None (P : Subscription.t → Prop) `{∀ r, Decision (P r)}
    (db : Db) :
  findOneBy P db = (Returned None, db) → Forall (λ r, ¬ P r) (rows db).
Proof.
  unfold findOneBy. intros Hfind. apply (head_filter_None P). congruence.
Qed.

Lemma or_undefined_Val (s : string) :
  or_undefined (Val s) = if decide (s = "") then None else Some s.
Proof.
  unfold or_undefined, truthy.
  destruct (decide (s = "")) as [->|Hs]; [done|].
  by rewrite bool_decide_eq_true_2.
Qed.

(** ** Facts about [save] and the spread of a row *)

Lemma merge_spread (e r : Subscription.t) :
  Subscription.id r = Subscription.id e → merge (spread e) r = e.
Proof. destruct e, r; simpl; intros ->; reflexivity. Qed.

Lemma update_by_id_spread (e r : Subscription.t) :
  update_by_id (spread e) r =
  if decide (Subscription.id r = Subscription.id e) then e else r.
Proof.
  unfold update_by_id, has_id; simpl.
  destruct (decide (Subscription.id r = Subscription.id e)); [|done].
  by apply merge_spread.
Qed.

Lemma with_status_fields (r : Subscription.t) (s : SubscriptionStatus) :
  with_status r s =
  {| Subscription.id := Subscription.id r;
     Subscription.user := Subscription.user r;
     Subscription.type := Subscription.type r;
     Subscription.url := Subscription.url r;
     Subscription.name := Subscription.name r;
     Subscription.description := Subscription.description r;
     Subscription.icon := Subscription.icon r;
     Subscription.status := s;
     Subscription.createdAt := Subscription.createdAt r;
     Subscription.lastFetchedAt := Subscription.lastFetchedAt r;
     Subscription.lastFetchedChecksum := Subscription.lastFetchedChecksum r;
     Subscription.scheduledAt := Subscription.scheduledAt r;
     Subscription.autoAddToLibrary := Subscription.autoAddToLibrary r;
     Subscription.isPrivate := Subscription.isPrivate r;
     Subscription.unsubscribeMailTo := Subscription.unsubscribeMailTo r;
     Subscription.unsubscribeHttpUrl := Subscription.unsubscribeHttpUrl r |}.
Proof. reflexivity. Qed.

Lemma save_entity_run (e : Subscription.t) (db : Db) :
  Exists (has_id (Subscription.id e)) (rows db) →
  save_entity e db =
  (Returned e,
   {| rows := (λ r, if decide (Subscription.id r = Subscription.id e)
                    then e else r) <$> rows db;
      next_id := next_id db;
      tasks := tasks db |}).
Proof.
  intros Hex. unfold save_entity. rewrite run_bind. unfold save.
  change (DeepPartial.id (spread e)) with (Subscription.id e).
  destruct (decide (Exists (has_id (Subscription.id e)) (rows db))); [|done].
  rewrite run_ret. do 2 f_equal.
  apply list_fmap_ext. intros i r _. apply update_by_id_spread.
Qed.

(** ** Subscribing to a URL that already has a row *)

(** C2. When the lookup of [subscribeResolver] finds a row for
    (userId, url, RSS): an ACTIVE row makes the call answer
    AlreadySubscribed and leaves the store as it was, so no row is created;
    an UNSUBSCRIBED row is written back with status ACTIVE and with its
    lastFetchedAt and lastFetchedChecksum (and every other column) as they
    were, the table keeps its length, and the updated row is the one
    returned once the fetch request, which carries the preserved
    lastFetchedAt, has been enqueued. *)
Theorem subscribe_existing_subscription (env : Env) (input : SubscribeInput)
    (uid : UserId) (db : Db) (existing : Subscription.t) :
  findOneBy (same_feed (input_url input) uid) db = (Returned (Some existing), db) →
  match Subscription.status existing with
  | Active =>
      subscribeResolver env input uid db = (SubscribeError [AlreadySubscribed], db)
  | Unsubscribed =>
      let updated := with_status existing Active in
      let request := resubscribe_request env input uid updated in
      let table :=
        (λ r, if decide (Subscription.id r = Subscription.id existing)
              then updated else r) <$> rows db in
      Subscription.status updated = Active
      ∧ Subscription.lastFetchedAt updated = Subscription.lastFetchedAt existing
      ∧ Subscription.lastFetchedChecksum updated
        = Subscription.lastFetchedChecksum existing
      ∧ Subscription.id updated = Subscription.id existing
      ∧ updated ∈ table
      ∧ length table = length (rows db)
      ∧ FetchRequest.fetchedDates request = [Subscription.lastFetchedAt existing]
      ∧ subscribeResolver env input uid db =
        match enqueueFailure env request with
        | None =>
            (SubscribeSuccess [updated],
             {| rows := table; next_id := next_id db;
                tasks := tasks db ++ [request] |})
        | Some message =>
            (subscribe_catch message,
             {| rows := table; next_id := next_id db; tasks := tasks db |})
        end
  end.
Proof.
  intros Hfind.
  destruct (findOneBy_Some (same_feed (input_url input) uid) _ _ Hfind)
    as (_ & Hin & _).
  unfold subscribeResolver, try_catch, subscribe_body.
  rewrite run_bind, Hfind.
  destruct (Subscription.status existing) eqn:Hstatus.
  - by rewrite decide_True.
  - rewrite decide_False by done.
    assert (Exists (has_id (Subscription.id (with_status existing Active))) (rows db))
      as Hex.
    { apply Exists_exists. by exists existing. }
    cbv zeta. split_and!; try reflexivity.
    + apply list_elem_of_fmap. exists existing. split; [|done].
      by rewrite decide_True.
    + apply length_fmap.
    + rewrite run_bind, (save_entity_run _ _ Hex), run_bind.
      unfold enqueueRssFeedFetch.
      change (Subscription.id (with_status existing Active))
        with (Subscription.id existing).
      by destruct (enqueueFailure env _).
Qed.

(** ** Subscribing to a URL that has no row yet *)

Lemma insert_having_count_run (env : Env) (name url : string)
    (description : option string) (type : SubscriptionType) (uid : UserId)
    (icon : option string) (auto_add_to_library is_private : option bool)
    (quota : Z) (db : Db) :
  insert_having_count env name url description type uid icon
                      auto_add_to_library is_private quota db =
  if decide (count_active_rss uid (rows db) < quota)
  then
    let row := inserted_row env db name url description type uid icon
                            auto_add_to_library is_private in
    (Returned [row],
     {| rows := rows db ++ [row]; next_id := S (next_id db); tasks := tasks db |})
  else (Returned [], db).
Proof. reflexivity. Qed.

(** One run of the conditional insert never takes the user's count of
    active RSS rows above the quota, and adds exactly one to it when it was
    below. *)
Lemma insert_having_count_quota (env : Env) (name url : string)
    (description : option string) (uid : UserId) (icon : option string)
    (auto_add_to_library is_private : option bool) (quota : Z) (db : Db) :
  count_active_rss uid (rows db) ≤ quota →
  let after := (insert_having_count env name url description Rss uid icon
                  auto_add_to_library is_private quota db).2 in
  count_active_rss uid (rows after) ≤ quota
  ∧ (count_active_rss uid (rows db) < quota →
     count_active_rss uid (rows after) = count_active_rss uid (rows db) + 1)
  ∧ (quota ≤ count_active_rss uid (rows db) → after = db).
Proof.
  intros Hle. cbv zeta. rewrite insert_having_count_run.
  destruct (decide (count_active_rss uid (rows db) < quota)) as [Hlt|Hge].
  - cbn [snd rows]. unfold count_active_rss in *.
    rewrite filter_app, filter_cons_True, filter_nil by done.
    rewrite length_app. simpl. split_and!; lia.
  - cbn [snd]. split_and!; [done | lia | done].
Qed.

(** C4. When the lookup of [subscribeResolver] finds no row for
    (userId, url, RSS): a URL for which [parseFeed] yields no feed makes the
    call answer NotFound; otherwise the conditional insert runs with quota
    150 and always returns a list (it never throws). The list is empty
    exactly when the user already has 150 or more active RSS rows, and then
    the call answers ExceededMaxSubscriptions with the store untouched; a
    non-empty list holds exactly the one row appended to the table, and that
    row is the one returned once the fetch request has been enqueued: the
    request for the user, the URL of the input and the new row, scheduled
    now, with no fetch date, no checksum and the flag [false]. An exception
    of [parseFeed] or of the task queue is answered NotFound when its
    message is [Status code 404] and BadRequest otherwise; the row inserted
    before the queue failed stays. *)
Theorem subscribe_new_subscription (env : Env) (input : SubscribeInput)
    (uid : UserId) (db : Db) :
  findOneBy (same_feed (input_url input) uid) db = (Returned None, db) →
  match parseFeed env (input_url input) with
  | Returned None =>
      subscribeResolver env input uid db = (SubscribeError [NotFound], db)
  | Returned (Some feed) =>
      ∃ (results : list Subscription.t) (db1 : Db),
        insert_having_count env (Feed.title feed) (Feed.url feed)
          (or_null (Feed.description feed)) Rss uid
          (or_null (Feed.thumbnail feed))
          (nullish (input_autoAddToLibrary input))
          (nullish (input_isPrivate input)) 150 db
        = (Returned results, db1)
        ∧ (results = [] ↔ 150 ≤ count_active_rss uid (rows db))
        ∧ match results with
          | [] =>
              db1 = db
              ∧ subscribeResolver env input uid db
                = (SubscribeError [ExceededMaxSubscriptions], db)
          | newSubscription :: others =>
              let request :=
                {| FetchRequest.userIds := [uid];
                   FetchRequest.url := input_url input;
                   FetchRequest.subscriptionIds :=
                     [Subscription.id newSubscription];
                   FetchRequest.scheduledDates := [now env];
                   FetchRequest.fetchedDates := [None];
                   FetchRequest.checksums := [None];
                   FetchRequest.addToLibraryFlags := [false] |} in
              others = []
              ∧ rows db1 = rows db ++ [newSubscription]
              ∧ subscribeResolver env input uid db =
                match enqueueFailure env request with
                | None =>
                    (SubscribeSuccess [newSubscription],
                     {| rows := rows db1; next_id := next_id db1;
                        tasks := tasks db1 ++ [request] |})
                | Some message =>
                    (SubscribeError
                       [if decide (message = "Status code 404")
                        then NotFound else BadRequest],
                     db1)
                end
          end
  | Thrown message =>
      subscribeResolver env input uid db
      = (SubscribeError
           [if decide (message = "Status code 404")
            then NotFound else BadRequest],
         db)
  end.
Proof.
  intros Hfind.
  unfold subscribeResolver, try_catch, subscribe_body.
  rewrite run_bind, Hfind, run_bind. unfold await_parseFeed.
  destruct (parseFeed env (input_url input)) as [[feed|]|message]; [|done|].
  - rewrite run_bind.
    change MAX_RSS_SUBSCRIPTIONS with 150.
    rewrite insert_having_count_run.
    destruct (decide (count_active_rss uid (rows db) < 150)) as [Hlt|Hge].
    + eexists _, _. split; [reflexivity|]. split; [split; [done | lia]|].
      cbv zeta. split_and!; try reflexivity.
      rewrite run_bind. unfold enqueueRssFeedFetch, new_subscription_request.
      cbn [to_boolean default].
      destruct (enqueueFailure env _) as [message|]; [|done].
      unfold subscribe_catch. by destruct (decide (message = _)).
    + eexists _, _. split; [reflexivity|]. split; [split; [lia | done]|].
      done.
  - unfold subscribe_catch. by destruct (decide (message = _)).
Qed.

Lemma subscribe_insert_run (env : Env) (input : SubscribeInput) (uid : UserId)
    (db : Db) (feed : Feed.t) :
  findOneBy (same_feed (input_url input) uid) db = (Returned None, db) →
  parseFeed env (input_url input) = Returned (Some feed) →
  count_active_rss uid (rows db) < MAX_RSS_SUBSCRIPTIONS →
  subscribeResolver env input uid db =
  let row := inserted_row env db (Feed.title feed) (Feed.url feed)
               (or_null (Feed.description feed)) Rss uid
               (or_null (Feed.thumbnail feed))
               (nullish (input_autoAddToLibrary input))
               (nullish (input_isPrivate input)) in
  match enqueueFailure env (new_subscription_request env input uid row) with
  | None =>
      (SubscribeSuccess [row],
       {| rows := rows db ++ [row]; next_id := S (next_id db);
          tasks := tasks db ++ [new_subscription_request env input uid row] |})
  | Some message =>
      (subscribe_catch message,
       {| rows := rows db ++ [row]; next_id := S (next_id db);
          tasks := tasks db |})
  end.
Proof.
  intros Hfind Hfeed Hquota.
  unfold subscribeResolver, try_catch, subscribe_body.
  rewrite run_bind, Hfind, run_bind. unfold await_parseFeed. rewrite Hfeed.
  cbv beta iota.
  rewrite run_bind, insert_having_count_run, decide_True by done.
  cbv beta iota zeta. rewrite run_bind. unfold enqueueRssFeedFetch.
  by destruct (enqueueFailure env _).
Qed.

(** A call for a URL without a row keeps the caller within the quota,
    whatever the parser and the task queue do. *)
Lemma subscribeResolver_new_quota (env : Env) (input : SubscribeInput)
    (uid : UserId) (db : Db) :
  findOneBy (same_feed (input_url input) uid) db = (Returned None, db) →
  count_active_rss uid (rows db) ≤ MAX_RSS_SUBSCRIPTIONS →
  count_active_rss uid (rows (subscribeResolver env input uid db).2)
  ≤ MAX_RSS_SUBSCRIPTIONS.
Proof.
  intros Hfind Hle.
  unfold subscribeResolver, try_catch, subscribe_body.
  rewrite run_bind, Hfind, run_bind. unfold await_parseFeed.
  destruct (parseFeed env (input_url input)) as [[feed|]|message]; [|done..].
  rewrite run_bind.
  pose proof (insert_having_count_quota env (Feed.title feed) (Feed.url feed)
                (or_null (Feed.description feed)) uid
                (or_null (Feed.thumbnail feed))
                (nullish (input_autoAddToLibrary input))
                (nullish (input_isPrivate input)) _ db Hle) as [Hafter _].
  cbv zeta in Hafter. rewrite insert_having_count_run in Hafter |- *.
  destruct (decide (count_active_rss uid (rows db) < MAX_RSS_SUBSCRIPTIONS));
    [|done].
  cbv beta iota zeta. rewrite run_bind. unfold enqueueRssFeedFetch.
  by destruct (enqueueFailure env _).
Qed.

(** C9. A subscribe call that creates a subscription (no row for the input
    URL, a parsed feed, quota not reached) appends one row whose name, url,
    description and icon are the parsed feed's title, url, description and
    thumbnail (an empty description or thumbnail is stored as NULL) and
    whose owner is the caller, whether or not the fetch request is enqueued
    afterwards; nothing of it comes from the input URL. When the feed's url
    differs from the input URL, so does the stored url, the stored row does
    not satisfy the lookup condition for the input URL, and the lookup a
    later subscribe call makes with the same input URL finds nothing. *)
Theorem subscribe_stores_parsed_feed (env : Env) (input : SubscribeInput)
    (uid : UserId) (db : Db) (feed : Feed.t) :
  findOneBy (same_feed (input_url input) uid) db = (Returned None, db) →
  parseFeed env (input_url input) = Returned (Some feed) →
  count_active_rss uid (rows db) < MAX_RSS_SUBSCRIPTIONS →
  ∃ row : Subscription.t,
    rows (subscribeResolver env input uid db).2 = rows db ++ [row]
    ∧ Subscription.name row = Feed.title feed
    ∧ Subscription.url row = Some (Feed.url feed)
    ∧ Subscription.description row = or_null (Feed.description feed)
    ∧ Subscription.icon row = or_null (Feed.thumbnail feed)
    ∧ Subscription.user row = uid
    ∧ Subscription.type row = Rss
    ∧ (Feed.url feed ≠ input_url input →
       Subscription.url row ≠ Some (input_url input)
       ∧ ¬ same_feed (input_url input) uid row
       ∧ findOneBy (same_feed (input_url input) uid)
                   (subscribeResolver env input uid db).2
         = (Returned None, (subscribeResolver env input uid db).2)).
Proof.
  intros Hfind Hfeed Hquota.
  pose proof (findOneBy_None (same_feed (input_url input) uid) _ Hfind) as Hnone.
  rewrite (subscribe_insert_run env input uid db feed Hfind Hfeed Hquota).
  cbv zeta. eexists. split.
  { destruct (enqueueFailure env _); reflexivity. }
  split_and!; try reflexivity.
  intros Hne.
  assert (¬ same_feed (input_url input) uid
            (inserted_row env db (Feed.title feed) (Feed.url feed)
               (or_null (Feed.description feed)) Rss uid
               (or_null (Feed.thumbnail feed))
               (nullish (input_autoAddToLibrary input))
               (nullish (input_isPrivate input)))) as Hrow.
  { intros [Hurl _]. simpl in Hurl. congruence. }
  split_and!; [simpl; congruence | exact Hrow |].
  unfold findOneBy. f_equal. f_equal.
  assert (∀ table, table = rows db ++ [inserted_row env db (Feed.title feed)
               (Feed.url feed) (or_null (Feed.description feed)) Rss uid
               (or_null (Feed.thumbnail feed))
               (nullish (input_autoAddToLibrary input))
               (nullish (input_isPrivate input))] →
            head (filter (same_feed (input_url input) uid) table) = None) as Hgo.
  { intros table ->. rewrite filter_app, filter_cons_False, filter_nil by done.
    rewrite app_nil_r.
    destruct (filter (same_feed (input_url input) uid) (rows db)) as [|r k] eqn:Hf;
      [done|].
    assert (r ∈ filter (same_feed (input_url input) uid) (rows db)) as Hr
      by (rewrite Hf; left).
    apply list_elem_of_filter in Hr as [Hr1 Hr2].
    rewrite Forall_forall in Hnone. by destruct (Hnone r Hr2). }
  apply Hgo. by destruct (enqueueFailure env _).
Qed.

(** ** Listing subscriptions: the filter *)

Lemma listed_eq (sort : nullable SortParams) (type : nullable SubscriptionType)
    (uid : UserId) (db : Db) :
  listed sort type uid db =
  merge_sort (order_le (sortBy sort) (sortOrder sort))
             (filter (where_clause uid type) (rows db)).
Proof. reflexivity. Qed.

Lemma listed_Permutation (sort : nullable SortParams)
    (type : nullable SubscriptionType) (uid : UserId) (db : Db) :
  listed sort type uid db ≡ₚ filter (where_clause uid type) (rows db).
Proof. rewrite listed_eq. apply merge_sort_Permutation. Qed.

Lemma elem_of_listed (sort : nullable SortParams)
    (type : nullable SubscriptionType) (uid : UserId) (db : Db)
    (r : Subscription.t) :
  r ∈ listed sort type uid db ↔ where_clause uid type r ∧ r ∈ rows db.
Proof. rewrite listed_Permutation. apply list_elem_of_filter. Qed.

(** A filter on a disjunction of two exclusive conditions keeps what the
    two filters keep together. *)
Lemma filter_exclusive_or {A} (P Q R : A → Prop)
    `{∀ x, Decision (P x)} `{∀ x, Decision (Q x)} `{∀ x, Decision (R x)}
    (l : list A) :
  (∀ x, P x ↔ Q x ∨ R x) → (∀ x, Q x → R x → False) →
  filter P l ≡ₚ filter Q l ++ filter R l.
Proof.
  intros Hor Hex. induction l as [|x l IH]; [done|].
  rewrite !filter_cons.
  destruct (decide (Q x)) as [HQ|HQ]; destruct (decide (R x)) as [HR|HR].
  - destruct (Hex x HQ HR).
  - rewrite decide_True by (apply Hor; by left). simpl. by rewrite IH.
  - rewrite decide_True by (apply Hor; by right).
    rewrite IH. apply Permutation_middle.
  - rewrite decide_False; [done|]. intros HP. apply Hor in HP as [?|?]; done.
Qed.

(** Without a type filter the conditions select what the two filtered
    queries select together, each row once. *)
Lemma filter_where_clause_union (uid : UserId) (type : nullable SubscriptionType)
    (table : list Subscription.t) :
  match type with
  | Val _ => True
  | _ =>
      filter (where_clause uid type) table
      ≡ₚ filter (where_clause uid (Val Newsletter)) table
         ++ filter (where_clause uid (Val Rss)) table
  end.
Proof.
  destruct type as [| |ty]; [| |done].
  all: apply filter_exclusive_or.
  all: unfold where_clause; intros r; try tauto.
  all: intros (_ & Hn & _) (_ & Hr); congruence.
Qed.

(** C5. For every user, sort request and table, the listing succeeds, and
    with the type filter NEWSLETTER it returns exactly the user's newsletter
    rows whose status is ACTIVE (an UNSUBSCRIBED newsletter is never
    listed); with the filter RSS it returns exactly the user's RSS rows,
    whatever their status; with no filter (omitted or null) it returns
    exactly the rows of those two listings together, each row as often as
    it is stored. *)
Theorem subscriptions_type_filter (sort : nullable SortParams) (uid : UserId)
    (db : Db) :
  (∀ type, subscriptionsResolver sort type uid db
           = (SubscriptionsSuccess (listed sort type uid db), db))
  ∧ (∀ r, r ∈ listed sort (Val Newsletter) uid db
          ↔ r ∈ rows db ∧ Subscription.user r = uid
            ∧ Subscription.type r = Newsletter
            ∧ Subscription.status r = Active)
  ∧ (∀ r, r ∈ listed sort (Val Rss) uid db
          ↔ r ∈ rows db ∧ Subscription.user r = uid
            ∧ Subscription.type r = Rss)
  ∧ (∀ type, listed sort type uid db
             ≡ₚ filter (where_clause uid type) (rows db))
  ∧ (∀ type,
       match type with
       | Val _ => True
       | _ =>
           (∀ r, r ∈ listed sort type uid db
                 ↔ r ∈ listed sort (Val Newsletter) uid db
                   ∨ r ∈ listed sort (Val Rss) uid db)
           ∧ listed sort type uid db
             ≡ₚ listed sort (Val Newsletter) uid db
                ++ listed sort (Val Rss) uid db
       end).
Proof.
  split_and!.
  - done.
  - intros r. rewrite elem_of_listed. unfold where_clause. tauto.
  - intros r. rewrite elem_of_listed. unfold where_clause. tauto.
  - intros type. apply listed_Permutation.
  - intros type.
    assert (match type with
            | Val _ => True
            | _ => listed sort type uid db
                   ≡ₚ listed sort (Val Newsletter) uid db
                      ++ listed sort (Val Rss) uid db
            end) as Hperm.
    { pose proof (filter_where_clause_union uid type (rows db)) as Hu.
      destruct type; [| |exact I]; by rewrite !listed_Permutation. }
    destruct type; [| |exact I].
    all: split; [|exact Hperm].
    all: intros r; by rewrite Hperm, elem_of_app.
Qed.

(** ** Listing subscriptions: the order *)

(** Alice's table without a type filter, ordered by last fetch ascending
    and descending (rows by their ids): the row fetched at 50, the two
    ACTIVE rows never fetched, then the UNSUBSCRIBED row fetched at 90. Her
    unsubscribed newsletter (row 3) and bob's row are not listed. *)
Example listed_by_last_fetch :
  Subscription.id <$>
    listed (Val {| sort_by := Val UpdatedTime; sort_order := Val Ascending |})
           Undefined "alice" mixed_db
  = [4; 2; 5; 1]%nat
  ∧ Subscription.id <$>
      listed (Val {| sort_by := Val UpdatedTime; sort_order := Val Descending |})
             Undefined "alice" mixed_db
    = [4; 2; 5; 1]%nat.
Proof. split; reflexivity. Qed.

Example listed_by_type :
  Subscription.id <$> listed Undefined (Val Newsletter) "alice" mixed_db
  = [5]%nat
  ∧ Subscription.id <$> listed Undefined (Val Rss) "alice" mixed_db
    = [4; 2; 1]%nat.
Proof. split; reflexivity. Qed.

Lemma key_le_total (dir : Direction) : Total (key_le dir).
Proof. intros [x|] [y|]; destruct dir; unfold key_le; first [lia | tauto]. Qed.

Lemma key_le_trans (dir : Direction) : Transitive (key_le dir).
Proof.
  intros [x|] [y|] [z|]; destruct dir; unfold key_le; first [lia | tauto].
Qed.

Lemma order_le_total (c : SortColumn) (dir : Direction) : Total (order_le c dir).
Proof.
  intros a b. unfold order_le.
  destruct (Z.lt_trichotomy (status_rank (Subscription.status a))
                            (status_rank (Subscription.status b)))
    as [Hlt|[Heq|Hgt]]; [by (left; left) | | by (right; left)].
  destruct (key_le_total dir (column c a) (column c b)); [left|right]; by right.
Qed.

Lemma order_le_trans (c : SortColumn) (dir : Direction) :
  Transitive (order_le c dir).
Proof.
  intros x y z [Hxy|[Hxy Kxy]] [Hyz|[Hyz Kyz]]; unfold order_le.
  1-3: left; lia.
  right. split; [lia|]. by apply (key_le_trans dir _ (column c y)).
Qed.

Lemma StronglySorted_lookup_lt {A} (R : relation A) (l : list A) (i j : nat)
    (a b : A) :
  StronglySorted R l → l !! i = Some a → l !! j = Some b → (i < j)%nat → R a b.
Proof.
  intros Hsorted. revert i j.
  induction Hsorted as [|x l Hsorted IH Hall]; intros i j Hi Hj Hlt.
  - by rewrite lookup_nil in Hi.
  - destruct j as [|j]; [lia|]. destruct i as [|i]; simpl in *.
    + injection Hi as ->. rewrite Forall_forall in Hall.
      apply Hall. by eapply list_elem_of_lookup_2.
    + apply (IH i j); [done..|lia].
Qed.

Lemma listed_StronglySorted (sort : nullable SortParams)
    (type : nullable SubscriptionType) (uid : UserId) (db : Db) :
  StronglySorted (order_le (sortBy sort) (sortOrder sort))
                 (listed sort type uid db).
Proof.
  rewrite listed_eq.
  apply (@StronglySorted_merge_sort _ _ _ (order_le_trans _ _) (order_le_total _ _)).
Qed.

(** C6. In every listing, for a row [a] that stands before a row [b]: if
    [a] is UNSUBSCRIBED then so is [b] (equivalently, if [b] is ACTIVE then
    so is [a]), so all ACTIVE rows come first whatever the secondary sort;
    and when the two have the same status they are in the order of the
    requested sort key, which is lastFetchedAt when [sort.by] is UpdatedTime
    and createdAt otherwise: a row whose key is NULL never stands before a
    row whose key is not, in either direction, and two non-NULL keys ascend
    when [sort.order] is Ascending and descend otherwise. *)
Theorem subscriptions_order (sort : nullable SortParams)
    (type : nullable SubscriptionType) (uid : UserId) (db : Db)
    (i j : nat) (a b : Subscription.t) :
  listed sort type uid db !! i = Some a →
  listed sort type uid db !! j = Some b →
  (i < j)%nat →
  let by_ := match sort with Val p => sort_by p | _ => Undefined end in
  let order := match sort with Val p => sort_order p | _ => Undefined end in
  let key r :=
    match by_ with
    | Val UpdatedTime => Subscription.lastFetchedAt r
    | _ => Some (Subscription.createdAt r)
    end in
  (Subscription.status a = Unsubscribed → Subscription.status b = Unsubscribed)
  ∧ (Subscription.status b = Active → Subscription.status a = Active)
  ∧ (Subscription.status a = Subscription.status b →
     match key a, key b with
     | None, Some _ => False
     | Some x, Some y =>
         match order with
         | Val Ascending => x ≤ y
         | _ => y ≤ x
         end
     | _, _ => True
     end).
Proof.
  intros Hi Hj Hlt.
  pose proof (StronglySorted_lookup_lt _ _ i j a b
                (listed_StronglySorted sort type uid db) Hi Hj Hlt) as Hle.
  cbv zeta. unfold order_le in Hle.
  split_and!.
  - intros Ha. rewrite Ha in Hle.
    destruct (Subscription.status b); simpl in Hle; [lia|done].
  - intros Hb. rewrite Hb in Hle.
    destruct (Subscription.status a); simpl in Hle; [done|lia].
  - intros Heq. rewrite Heq in Hle. destruct Hle as [Hle|[_ Hle]]; [lia|].
    revert Hle. unfold sortBy, sortOrder, column, key_le.
    destruct sort as [| |[[| |[|]] [| |[|]]]]; simpl;
      repeat case_match; auto.
Qed.

(** ** The feed catalog: page size *)

Example first_of_examples :
  first_of (feeds_input "" 25) = 25
  ∧ first_of (feeds_input "" 250) = 100
  ∧ first_of (feeds_input "" 0) = 10
  ∧ first_of {| after := Null; first := Undefined; query := Null; sort := Null |}
    = 10.
Proof. repeat split. Qed.

(** The claim C7 as the spec states it, that the page size always lies in
    [0, 100], fails: a negative [first] passes through [Math.min]. *)
Lemma feeds_first_not_clamped_below :
  first_of (feeds_input "" (-5)) = -5
  ∧ ¬ (0 ≤ first_of (feeds_input "" (-5)) ≤ 100).
Proof. split; [reflexivity|]. vm_compute. intros [Hle _]. by apply Hle. Qed.

(** C7, amended. The effective page size is the minimum of [first] and 100,
    where 10 stands in for [first] when the caller supplies none, null or
    zero. So it never exceeds 100 and is 10 when unset; for a positive
    [first] it lies in [1, 100]; a negative [first] is used unchanged (there
    is no lower clamp). *)
Theorem feeds_first_capped (input : FeedsInput) :
  first_of input ≤ 100
  ∧ match first input with
    | Val n =>
        (0 < n → first_of input = Z.min n 100 ∧ 1 ≤ first_of input ≤ 100)
        ∧ (n = 0 → first_of input = 10)
        ∧ (n < 0 → first_of input = n)
    | _ => first_of input = 10
    end.
Proof.
  unfold first_of. destruct (first input) as [| |n]; [done..|].
  destruct (decide (n = 0)) as [->|Hn]; split_and!; intros; lia.
Qed.

(** ** Numbers: sums and differences of integers below 2^53 are exact *)

Lemma iter_pos_iter {A} (f : A → A) (p : positive) (x : A) :
  SpecFloat.iter_pos f p x = Pos.iter f x p.
Proof.
  revert x. induction p as [p IH|p IH|]; intros x; simpl.
  - rewrite !IH. by rewrite <- !Pos.iter_swap.
  - by rewrite !IH.
  - done.
Qed.

Lemma digits2_size (p : positive) : SpecFloat.digits2_pos p = Pos.size p.
Proof. induction p; simpl; congruence. Qed.


Lemma shiftl_succ (q : positive) (K : N) :
  Pos.shiftl q (N.succ K) = xO (Pos.shiftl q K).
Proof.
  destruct K as [|k]; [done|].
  change (N.succ (N.pos k)) with (N.pos (Pos.succ k)).
  unfold Pos.shiftl. by rewrite Pos.iter_succ.
Qed.

Lemma size_shiftl (q : positive) (K : N) :
  Zpos (Pos.size (Pos.shiftl q K)) = Zpos (Pos.size q) + Z.of_N K.
Proof.
  induction K as [|K IH] using N.peano_ind; [unfold Pos.shiftl; simpl; lia|].
  rewrite shiftl_succ. cbn [Pos.size].
  rewrite Pos2Z.inj_succ, N2Z.inj_succ. lia.
Qed.

Lemma Zpos_shiftl (q : positive) (K : N) :
  Zpos (Pos.shiftl q K) = Zpos q * 2 ^ Z.of_N K.
Proof.
  induction K as [|K IH] using N.peano_ind; [unfold Pos.shiftl; simpl; lia|].
  rewrite shiftl_succ, N2Z.inj_succ, Z.pow_succ_r by lia.
  rewrite Pos2Z.inj_xO, IH. lia.
Qed.

Lemma iter_xO_shiftl (q : positive) (K : N) (t : positive) :
  Pos.iter xO (Pos.shiftl q K) t = Pos.shiftl q (K + Npos t).
Proof.
  induction t as [|t IH] using Pos.peano_ind.
  - simpl. replace (K + 1)%N with (N.succ K) by lia. by rewrite shiftl_succ.
  - rewrite Pos.iter_succ, IH.
    replace (K + Npos (Pos.succ t))%N with (N.succ (K + Npos t)) by lia.
    by rewrite shiftl_succ.
Qed.

Lemma iter_shr_shiftl (q : positive) (a : N) (t : positive) :
  Pos.iter SpecFloat.shr_1
    {| SpecFloat.shr_m := Zpos (Pos.shiftl q (a + Npos t));
       SpecFloat.shr_r := false; SpecFloat.shr_s := false |} t
  = {| SpecFloat.shr_m := Zpos (Pos.shiftl q a);
       SpecFloat.shr_r := false; SpecFloat.shr_s := false |}.
Proof.
  induction t as [|t IH] using Pos.peano_ind.
  - simpl. replace (a + 1)%N with (N.succ a) by lia. by rewrite shiftl_succ.
  - rewrite Pos.iter_succ, <- Pos.iter_swap.
    replace (a + Npos (Pos.succ t))%N with (N.succ (a + Npos t)) by lia.
    rewrite shiftl_succ. exact IH.
Qed.


Lemma shr_fexp_full (m : positive) (e : Z) :
  Zpos (Pos.size m) = 53 → -1074 ≤ e ≤ 971 →
  SpecFloat.shr_fexp prec emax (Zpos m) e SpecFloat.loc_Exact
  = ({| SpecFloat.shr_m := Zpos m; SpecFloat.shr_r := false;
        SpecFloat.shr_s := false |}, e).
Proof.
  intros Hsize He.
  unfold SpecFloat.shr_fexp, SpecFloat.Zdigits2. rewrite digits2_size, Hsize.
  replace (SpecFloat.fexp prec emax (53 + e) - e) with 0
    by (unfold SpecFloat.fexp, SpecFloat.emin, prec, emax; lia).
  reflexivity.
Qed.

Lemma binary_round_aux_exact (s : bool) (m : positive) (e : Z) :
  Zpos (Pos.size m) = 53 → -1074 ≤ e ≤ 971 →
  SpecFloat.binary_round_aux prec emax s (Zpos m) e SpecFloat.loc_Exact
  = SpecFloat.S754_finite s m e.
Proof.
  intros Hsize He.
  unfold SpecFloat.binary_round_aux. rewrite (shr_fexp_full m e Hsize He). cbn.
  rewrite (shr_fexp_full m e Hsize He). cbn.
  by rewrite (proj2 (Z.leb_le e (emax - prec)))
    by (unfold emax, prec; lia).
Qed.

(** Rounding a number that fits the mantissa changes nothing: it is written
    with the mantissa shifted to 53 bits. *)
Lemma binary_round_fits (s : bool) (q : positive) (K : N) :
  Zpos (Pos.size q) ≤ 53 →
  SpecFloat.binary_round prec emax s (Pos.shiftl q K) (- Z.of_N K)
  = SpecFloat.S754_finite s
      (Pos.shiftl q (Z.to_N (53 - Zpos (Pos.size q))))
      (Zpos (Pos.size q) - 53).
Proof.
  intros Hsize. unfold SpecFloat.binary_round.
  rewrite digits2_size.
  assert (SpecFloat.fexp prec emax
            (Zpos (Pos.size (Pos.shiftl q K)) + - Z.of_N K)
          = Zpos (Pos.size q) - 53) as ->.
  { rewrite size_shiftl. unfold SpecFloat.fexp, SpecFloat.emin, prec, emax. lia. }
  assert (Zpos (Pos.size (Pos.shiftl q (Z.to_N (53 - Zpos (Pos.size q))))) = 53)
    as Hfull.
  { rewrite size_shiftl, Z2N.id; lia. }
  unfold SpecFloat.shl_align.
  destruct (Zpos (Pos.size q) - 53 - - Z.of_N K) as [|t|t] eqn:Hd.
  - replace K with (Z.to_N (53 - Zpos (Pos.size q))) at 1 by lia.
    replace (- Z.of_N K) with (Zpos (Pos.size q) - 53) by lia.
    apply binary_round_aux_exact; [done|lia].
  - (* the mantissa is longer than 53 bits: the zeros are shifted out *)
    unfold SpecFloat.binary_round_aux.
    assert (SpecFloat.shr_fexp prec emax (Zpos (Pos.shiftl q K)) (- Z.of_N K)
              SpecFloat.loc_Exact
            = ({| SpecFloat.shr_m :=
                    Zpos (Pos.shiftl q (Z.to_N (53 - Zpos (Pos.size q))));
                  SpecFloat.shr_r := false; SpecFloat.shr_s := false |},
               Zpos (Pos.size q) - 53)) as ->.
    { unfold SpecFloat.shr_fexp, SpecFloat.Zdigits2.
      rewrite digits2_size, size_shiftl.
      replace (SpecFloat.fexp prec emax (Zpos (Pos.size q) + Z.of_N K
                                         + - Z.of_N K) - - Z.of_N K)
        with (Zpos t)
        by (unfold SpecFloat.fexp, SpecFloat.emin, prec, emax; lia).
      cbn [SpecFloat.shr SpecFloat.shr_record_of_loc].
      rewrite iter_pos_iter.
      replace K with (Z.to_N (53 - Zpos (Pos.size q)) + Npos t)%N at 1 by lia.
      rewrite iter_shr_shiftl. f_equal. lia. }
    cbn [SpecFloat.shr_m SpecFloat.loc_of_shr_record
         SpecFloat.round_nearest_even].
    rewrite shr_fexp_full by (done || lia). cbn.
    by rewrite (proj2 (Z.leb_le _ (emax - prec)))
      by (unfold emax, prec; lia).
  - rewrite iter_xO_shiftl.
    replace (K + Npos t)%N with (Z.to_N (53 - Zpos (Pos.size q))) by lia.
    apply binary_round_aux_exact; [done|lia].
Qed.

Lemma size_le_53 (q : positive) : Zpos q < 2 ^ 53 → Zpos (Pos.size q) ≤ 53.
Proof.
  intros Hq. pose proof (Pos.size_le q) as Hle.
  destruct (decide (Zpos (Pos.size q) ≤ 53)) as [|Hbig]; [done|].
  assert (2 ^ 54 ≤ 2 ^ Zpos (Pos.size q)) as Hpow
    by (apply Z.pow_le_mono_r; lia).
  assert (Zpos (2 ^ Pos.size q) ≤ Zpos q~0) as Hle' by lia.
  rewrite Pos2Z.inj_pow in Hle'. rewrite Pos2Z.inj_xO in Hle'. lia.
Qed.

(** The number for an integer below 2^53. *)
Lemma of_Z_pos (q : positive) :
  Zpos q < 2 ^ 53 →
  of_Z (Zpos q)
  = SpecFloat.S754_finite false
      (Pos.shiftl q (Z.to_N (53 - Zpos (Pos.size q))))
      (Zpos (Pos.size q) - 53).
Proof.
  intros Hq. apply (binary_round_fits false q 0). by apply size_le_53.
Qed.

Lemma of_Z_neg (q : positive) :
  Zpos q < 2 ^ 53 →
  of_Z (Zneg q)
  = SpecFloat.S754_finite true
      (Pos.shiftl q (Z.to_N (53 - Zpos (Pos.size q))))
      (Zpos (Pos.size q) - 53).
Proof.
  intros Hq. apply (binary_round_fits true q 0). by apply size_le_53.
Qed.

Lemma of_Z_nonzero (z : Z) :
  z ≠ 0 → Z.abs z < 2 ^ 53 →
  of_Z z
  = SpecFloat.S754_finite (z <? 0)
      (Pos.shiftl (Z.to_pos (Z.abs z))
                  (Z.to_N (53 - Zpos (Pos.size (Z.to_pos (Z.abs z))))))
      (Zpos (Pos.size (Z.to_pos (Z.abs z))) - 53).
Proof.
  intros Hz Hsafe. destruct z as [|q|q]; [done| |].
  - by apply of_Z_pos.
  - by apply of_Z_neg.
Qed.

Lemma binary_normalize_shift (c : Z) (K : N) :
  Z.abs c < 2 ^ 53 →
  SpecFloat.binary_normalize prec emax (c * 2 ^ Z.of_N K) (- Z.of_N K) false
  = of_Z c.
Proof.
  intros Hsafe. destruct c as [|q|q].
  - done.
  - rewrite of_Z_pos by done. rewrite <- Zpos_shiftl.
    apply (binary_round_fits false q K). by apply size_le_53.
  - rewrite of_Z_neg by done.
    replace (Z.neg q * 2 ^ Z.of_N K) with (Z.neg (Pos.shiftl q K)).
    + apply (binary_round_fits true q K). by apply size_le_53.
    + rewrite <- Pos2Z.opp_pos, Zpos_shiftl. lia.
Qed.

Lemma shl_align_shiftl (q : positive) (n : N) (e ez : Z) :
  ez ≤ e →
  (SpecFloat.shl_align (Pos.shiftl q n) e ez).1
  = Pos.shiftl q (n + Z.to_N (e - ez)).
Proof.
  intros Hle. unfold SpecFloat.shl_align.
  destruct (ez - e) as [|t|t] eqn:Hd; cbn [fst].
  - f_equal. lia.
  - lia.
  - rewrite iter_xO_shiftl. f_equal. lia.
Qed.

Lemma cond_Zopp_shiftl (z : Z) (K : N) :
  z ≠ 0 →
  SpecFloat.cond_Zopp (z <? 0) (Zpos (Pos.shiftl (Z.to_pos (Z.abs z)) K))
  = z * 2 ^ Z.of_N K.
Proof.
  intros Hz. rewrite Zpos_shiftl. destruct z as [|q|q]; [done|done|].
  simpl. lia.
Qed.

(** Sums and differences of integers are exact as long as everything stays
    below 2^53. *)
Lemma js_add_exact (a b : Z) :
  Z.abs a < 2 ^ 53 → Z.abs b < 2 ^ 53 → Z.abs (a + b) < 2 ^ 53 →
  js_add (of_Z a) (of_Z b) = of_Z (a + b).
Proof.
  intros Ha Hb Hab.
  destruct (decide (a = 0)) as [->|Hna].
  { destruct (decide (b = 0)) as [->|Hnb]; [done|].
    rewrite Z.add_0_l, (of_Z_nonzero b) by done. done. }
  destruct (decide (b = 0)) as [->|Hnb].
  { rewrite Z.add_0_r, (of_Z_nonzero a) by done. done. }
  rewrite (of_Z_nonzero a), (of_Z_nonzero b) by done.
  unfold js_add, SpecFloat.SFadd.
  set (da := Zpos (Pos.size (Z.to_pos (Z.abs a)))).
  set (db := Zpos (Pos.size (Z.to_pos (Z.abs b)))).
  assert (da ≤ 53) as Hda by (apply size_le_53; lia).
  assert (db ≤ 53) as Hdb by (apply size_le_53; lia).
  assert (0 < da ∧ 0 < db) as [Hda0 Hdb0] by (unfold da, db; lia).
  cbv zeta.
  rewrite !shl_align_shiftl by lia.
  set (K := Z.to_N (53 - Z.min da db)).
  replace (Z.to_N (53 - da) + Z.to_N (da - 53 - Z.min (da - 53) (db - 53)))%N
    with K by lia.
  replace (Z.to_N (53 - db) + Z.to_N (db - 53 - Z.min (da - 53) (db - 53)))%N
    with K by lia.
  rewrite !cond_Zopp_shiftl by done.
  replace (Z.min (da - 53) (db - 53)) with (- Z.of_N K) by lia.
  rewrite <- Z.mul_add_distr_r. by apply binary_normalize_shift.
Qed.

Lemma of_Z_opp (b : Z) :
  b ≠ 0 → Z.abs b < 2 ^ 53 →
  of_Z (- b)
  = match of_Z b with
    | SpecFloat.S754_finite s m e => SpecFloat.S754_finite (negb s) m e
    | x => x
    end.
Proof.
  intros Hb Hsafe. rewrite (of_Z_nonzero b), (of_Z_nonzero (- b)) by lia.
  rewrite Z.abs_opp. f_equal. destruct b; done.
Qed.

Lemma js_sub_exact (a b : Z) :
  Z.abs a < 2 ^ 53 → Z.abs b < 2 ^ 53 → Z.abs (a - b) < 2 ^ 53 →
  js_sub (of_Z a) (of_Z b) = of_Z (a - b).
Proof.
  intros Ha Hb Hab.
  destruct (decide (b = 0)) as [->|Hnb].
  { rewrite Z.sub_0_r. destruct (decide (a = 0)) as [->|Hna]; [done|].
    by rewrite (of_Z_nonzero a). }
  destruct (decide (a = 0)) as [->|Hna].
  { rewrite Z.sub_0_l, of_Z_opp by done. by rewrite (of_Z_nonzero b). }
  rewrite (of_Z_nonzero a), (of_Z_nonzero b) by done.
  unfold js_sub, SpecFloat.SFsub.
  set (da := Zpos (Pos.size (Z.to_pos (Z.abs a)))).
  set (db := Zpos (Pos.size (Z.to_pos (Z.abs b)))).
  assert (da ≤ 53) as Hda by (apply size_le_53; lia).
  assert (db ≤ 53) as Hdb by (apply size_le_53; lia).
  assert (0 < da ∧ 0 < db) as [Hda0 Hdb0] by (unfold da, db; lia).
  cbv zeta.
  rewrite !shl_align_shiftl by lia.
  set (K := Z.to_N (53 - Z.min da db)).
  replace (Z.to_N (53 - da) + Z.to_N (da - 53 - Z.min (da - 53) (db - 53)))%N
    with K by lia.
  replace (Z.to_N (53 - db) + Z.to_N (db - 53 - Z.min (da - 53) (db - 53)))%N
    with K by lia.
  rewrite !cond_Zopp_shiftl by done.
  replace (Z.min (da - 53) (db - 53)) with (- Z.of_N K) by lia.
  rewrite <- Z.mul_sub_distr_r. by apply binary_normalize_shift.
Qed.

(** ** The built-ins [Number] and [String] *)

(** ** Integers read and printed *)

Lemma integer_value_of_Z (z : Z) :
  Z.abs z < 2 ^ 53 → integer_value (of_Z z) = Some z.
Proof.
  intros Hsafe. destruct (decide (z = 0)) as [->|Hz]; [done|].
  rewrite of_Z_nonzero by done.
  set (q := Z.to_pos (Z.abs z)).
  assert (Zpos q = Z.abs z) as Hq by (unfold q; lia).
  assert (Zpos (Pos.size q) ≤ 53) as Hsize by (apply size_le_53; lia).
  set (K := Z.to_N (53 - Zpos (Pos.size q))).
  assert (Zpos (Pos.size q) - 53 = - Z.of_N K) as -> by (unfold K; lia).
  unfold integer_value. rewrite Zpos_shiftl.
  assert (0 < 2 ^ Z.of_N K) as Hpow by (apply Z.pow_pos_nonneg; lia).
  assert (SpecFloat.cond_Zopp (z <? 0) (Zpos q) = z) as Hsign.
  { destruct (Z.ltb_spec z 0); simpl; lia. }
  destruct (decide (0 ≤ - Z.of_N K)) as [Hle|Hlt].
  - assert (Z.of_N K = 0) as -> by lia. simpl (- 0). rewrite Z.pow_0_r.
    by rewrite !Z.mul_1_r, Hsign.
  - rewrite Z.opp_involutive, Z.mod_mul, decide_True by lia.
    by rewrite Z.div_mul, Hsign by lia.
Qed.

(** [String(z)] is the decimal numeral of [z] for an integer below 2^53. *)
Lemma builtin_String_of_Z (z : Z) :
  Z.abs z < 2 ^ 53 → builtin_String (of_Z z) = pretty z.
Proof.
  intros Hsafe. unfold builtin_String.
  by rewrite integer_value_of_Z, decide_True.
Qed.

Lemma char_code_pretty_N_char (d : N) :
  (d < 10)%N → char_code (pretty_N_char d) = 48 + Z.of_N d.
Proof.
  intros Hd.
  assert (d = 0 ∨ d = 1 ∨ d = 2 ∨ d = 3 ∨ d = 4 ∨ d = 5 ∨ d = 6 ∨ d = 7
          ∨ d = 8 ∨ d = 9)%N as Hcases by lia.
  repeat (destruct Hcases as [->|Hcases]; [reflexivity|]). by subst.
Qed.

Lemma digit_in_decimal (c : Ascii.ascii) :
  48 ≤ char_code c ≤ 57 → digit_in 10 c = Some (char_code c - 48).
Proof.
  intros Hc. unfold digit_in. cbv zeta.
  rewrite (decide_True (P := 48 ≤ char_code c ≤ 57)) by done.
  by rewrite decide_True by lia.
Qed.

Lemma digit_not_white_space (c : Ascii.ascii) :
  48 ≤ char_code c ≤ 57 → is_white_space c = false.
Proof.
  intros Hc. unfold is_white_space. apply bool_decide_eq_false.
  rewrite !elem_of_cons, elem_of_nil. lia.
Qed.

(** Reading the digits that [pretty] writes in front of a string shifts the
    number read so far and adds the number written. *)
Lemma take_digits_pretty_N_go (x : N) :
  ∀ (acc count : Z) (s : string),
    ∃ p k : Z, take_digits 10 acc count (pretty_N_go x s)
               = take_digits 10 (acc * p + Z.of_N x) (count + k) s.
Proof.
  induction (N.lt_wf_0 x) as [x _ IH]. intros acc count s.
  destruct (decide (x = 0%N)) as [->|Hx].
  - exists 1, 0. rewrite pretty_N_go_0. f_equal; lia.
  - rewrite pretty_N_go_step by lia.
    destruct (IH (x `div` 10)%N (N.div_lt x 10 ltac:(lia) eq_refl) acc count
                 (String (pretty_N_char (x `mod` 10)) s)) as (p & k & Hp).
    exists (10 * p), (k + 1). rewrite Hp. cbn [take_digits].
    assert (x `mod` 10 < 10)%N as Hmod by (apply N.mod_lt; lia).
    rewrite digit_in_decimal; rewrite char_code_pretty_N_char by done;
      [|clear -Hmod; set (d := (x `mod` 10)%N) in *; lia].
    f_equal; [|lia]. rewrite N2Z.inj_div, N2Z.inj_mod.
    pose proof (Z.div_mod (Z.of_N x) 10 ltac:(lia)) as Hdm.
    change (Z.of_N 10) with 10. lia.
Qed.

Lemma pretty_N_go_digits (x : N) (s : string) :
  decimal_digits s → decimal_digits (pretty_N_go x s).
Proof.
  revert s. induction (N.lt_wf_0 x) as [x _ IH]. intros s Hs.
  destruct (decide (x = 0%N)) as [->|Hx]; [by rewrite pretty_N_go_0|].
  rewrite pretty_N_go_step by lia.
  apply IH; [apply N.div_lt; lia|].
  simpl. constructor; [|done].
  assert (x `mod` 10 < 10)%N as Hmod by (apply N.mod_lt; lia).
  rewrite char_code_pretty_N_char by done.
  set (d := (x `mod` 10)%N) in *. lia.
Qed.

Lemma pretty_N_go_nonempty (x : N) (s : string) :
  s ≠ "" → pretty_N_go x s ≠ "".
Proof.
  revert s. induction (N.lt_wf_0 x) as [x _ IH]. intros s Hs.
  destruct (decide (x = 0%N)) as [->|Hx]; [by rewrite pretty_N_go_0|].
  rewrite pretty_N_go_step by lia.
  apply IH; [apply N.div_lt; lia | done].
Qed.

(** The decimal numeral of an integer that is not negative: digits, at
    least one, whose value is the integer. *)
Lemma pretty_decimal (z : Z) :
  0 ≤ z →
  pretty z ≠ "" ∧ decimal_digits (pretty z)
  ∧ ∃ n, take_digits 10 0 0 (pretty z) = (z, n, "").
Proof.
  intros Hz. destruct z as [|q|q]; [|clear Hz|lia].
  - split_and!; [done| |by exists 1].
    simpl. constructor; [by vm_compute|constructor].
  - unfold pretty, pretty_Z, pretty_positive, pretty, pretty_N.
    rewrite decide_False by done.
    split_and!.
    + rewrite pretty_N_go_step by lia. by apply pretty_N_go_nonempty.
    + apply pretty_N_go_digits. constructor.
    + destruct (take_digits_pretty_N_go (N.pos q) 0 0 "") as (p & k & Hp).
      exists k. rewrite Hp. cbn [take_digits]. by rewrite Z.mul_0_l.
Qed.

Lemma take_digits_count (s : string) :
  ∀ acc count v n rest,
    take_digits 10 acc count s = (v, n, rest) →
    decimal_digits s → n = count + Z.of_nat (String.length s).
Proof.
  induction s as [|c s IH]; intros acc count v n rest Htake Hs.
  - simpl in *. injection Htake as _ <- _. lia.
  - simpl in Hs. apply Forall_cons in Hs as [Hc Hs].
    cbn [take_digits] in Htake. rewrite digit_in_decimal in Htake by done.
    apply IH in Htake; [|done]. simpl String.length. lia.
Qed.

Lemma trim_end_digits (s : string) : decimal_digits s → trim_end s = s.
Proof.
  induction s as [|c s IH]; [done|]. simpl. intros Hs.
  apply Forall_cons in Hs as [Hc Hs]. rewrite (IH Hs).
  destruct s; [|done]. by rewrite digit_not_white_space.
Qed.

(** [Number] reads a string of decimal digits as the number nearest to
    their value. *)
Lemma StringToNumber_digits (s : string) (v n : Z) :
  s ≠ "" → decimal_digits s → take_digits 10 0 0 s = (v, n, "") →
  StringToNumber s = of_Z v.
Proof.
  intros Hne Hs Htake.
  pose proof (take_digits_count _ _ _ _ _ _ Htake Hs) as Hn.
  destruct s as [|c s]; [done|]. clear Hne.
  pose proof Hs as Hs'. simpl in Hs'. apply Forall_cons in Hs' as [Hc Hs'].
  assert (v = 0 ∨ 0 < v ∨ v < 0) as Hv by lia.
  unfold StringToNumber. cbv zeta.
  assert (trim (String c s) = String c s) as ->.
  { unfold trim. cbn [trim_start]. rewrite digit_not_white_space by done.
    by apply trim_end_digits. }
  rewrite decide_False by done.
  assert (radix_prefix (String c s) = None) as ->.
  { unfold radix_prefix. destruct s as [|c' s]; [done|].
    simpl in Hs'. apply Forall_cons in Hs' as [Hc' _].
    destruct (decide (char_code c = 48)); [|done].
    by rewrite !decide_False by lia. }
  assert (take_sign (String c s) = (false, String c s)) as ->.
  { unfold take_sign. by rewrite !decide_False by lia. }
  unfold unsigned_decimal.
  rewrite decide_False; last first.
  { intros Heq. rewrite Heq in Hs. unfold decimal_digits in Hs.
    change (String.list_ascii_of_string "Infinity")
      with (Ascii.ascii_of_nat 73 :: String.list_ascii_of_string "nfinity")
      in Hs.
    apply Forall_cons in Hs as [HI _].
    vm_compute in HI. destruct HI as [_ HI]. by apply HI. }
  rewrite Htake. cbv beta iota zeta.
  rewrite decide_False by (simpl String.length in Hn; lia).
  unfold decimal_value. simpl (- 0).
  destruct v as [|p|p]; [done| |].
  - rewrite decide_False by lia.
    rewrite decide_False by (pose proof (Z.log2_nonneg (Z.pos p)); lia).
    rewrite decide_True by lia.
    rewrite Z.pow_0_r, Z.mul_1_r. done.
  - (* the digits read never have a negative value *)
    exfalso. clear -Htake Hs.
    assert (∀ t acc count w k rest,
              take_digits 10 acc count t = (w, k, rest) →
              decimal_digits t → 0 ≤ acc → 0 ≤ w) as Hpos.
    { induction t as [|c' t IH]; intros acc count w k rest Ht Hd Hacc.
      - simpl in Ht. injection Ht as <- _ _. done.
      - unfold decimal_digits in Hd. simpl in Hd.
        apply Forall_cons in Hd as [Hc' Hd].
        cbn [take_digits] in Ht. rewrite digit_in_decimal in Ht by done.
        apply IH in Ht; [done|done|lia]. }
    specialize (Hpos _ _ _ _ _ _ Htake Hs). lia.
Qed.

(** [Number(String(z))] for an integer that is not negative. *)
Lemma builtin_Number_pretty (z : Z) :
  0 ≤ z → builtin_Number (pretty z) = of_Z z.
Proof.
  intros Hz. destruct (pretty_decimal z Hz) as (Hne & Hdigits & n & Htake).
  by apply (StringToNumber_digits _ _ n).
Qed.

Lemma truthy_pretty (z : Z) : 0 ≤ z → truthy (pretty z) = true.
Proof.
  intros Hz. unfold truthy. apply bool_decide_eq_true.
  by destruct (pretty_decimal z Hz) as (Hne & _).
Qed.

(** What the built-ins do with the integers below 2^53. *)
Lemma builtin_round_trip (z : Z) :
  0 ≤ z < 2 ^ 53 →
  builtin_String (of_Z z) ≠ ""
  ∧ builtin_Number (builtin_String (of_Z z)) = of_Z z.
Proof.
  intros Hz. rewrite builtin_String_of_Z by lia.
  split; [by destruct (pretty_decimal z) as (Hne & _); [lia|]|].
  apply builtin_Number_pretty. lia.
Qed.

(** The built-ins at work: signs, exponents, white space and radix
    prefixes are read; what is no numeral is not-a-number; integers from
    2^53 on are rounded to the nearest double; the shortest digits that
    read back are printed, with an exponent from 1e21 on and below 1e-6. *)
Example builtin_Number_examples :
  builtin_Number "" = of_Z 0
  ∧ builtin_Number "-5" = of_Z (-5)
  ∧ builtin_Number "1e1" = of_Z 10
  ∧ builtin_Number " 12 " = of_Z 12
  ∧ builtin_Number "0x10" = of_Z 16
  ∧ builtin_Number "2.50" = js_add (of_Z 2) (builtin_Number ".5")
  ∧ builtin_Number "9007199254740993" = of_Z 9007199254740992
  ∧ builtin_Number "9007199254740995" = of_Z 9007199254740996
  ∧ builtin_Number "1e21" = of_Z (10 ^ 21)
  ∧ builtin_Number "Infinity" = SpecFloat.S754_infinity false
  ∧ builtin_Number "1e400" = SpecFloat.S754_infinity false
  ∧ isNaN (builtin_Number "next") = true
  ∧ isNaN (builtin_Number "12px") = true
  ∧ isNaN (builtin_Number "1e") = true
  ∧ isNaN (builtin_Number "--5") = true.
Proof. split_and!; vm_compute; reflexivity. Qed.

Example builtin_String_examples :
  builtin_String (of_Z 0) = "0"
  ∧ builtin_String (of_Z (-5)) = "-5"
  ∧ builtin_String (of_Z 9007199254740993) = "9007199254740992"
  ∧ builtin_String (of_Z (10 ^ 21 - 1)) = "1e+21"
  ∧ builtin_String (of_Z (10 ^ 20)) = "100000000000000000000"
  ∧ builtin_String (of_Z 123456789012345678901) = "123456789012345680000"
  ∧ builtin_String (builtin_Number "0.1") = "0.1"
  ∧ builtin_String (js_add (builtin_Number "0.1") (builtin_Number "0.2"))
    = "0.30000000000000004"
  ∧ builtin_String (builtin_Number "1e-7") = "1e-7"
  ∧ builtin_String (builtin_Number "0.000001") = "0.000001"
  ∧ builtin_String (builtin_Number "-1.50") = "-1.5"
  ∧ builtin_String (builtin_Number "5e-324") = "5e-324"
  ∧ builtin_String (builtin_Number "1.7976931348623157e308")
    = "1.7976931348623157e+308"
  ∧ builtin_String (builtin_Number "-Infinity") = "-Infinity"
  ∧ builtin_String (builtin_Number "next") = "NaN".
Proof. split_and!; vm_compute; reflexivity. Qed.

Lemma of_Z_not_NaN (z : Z) : Z.abs z < 2 ^ 53 → isNaN (of_Z z) = false.
Proof.
  intros Hsafe. destruct (decide (z = 0)) as [->|Hz]; [done|].
  by rewrite of_Z_nonzero.
Qed.

(** ** The feed catalog: pages and cursors *)

Lemma feedsResolver_run (env : Env) (input : FeedsInput) (feeds : list Feed.t)
    (count : Z) :
  searchFeeds env (or_empty_input (query input)) (first_of input + 1)
              (start_of env input) (feeds_sort_by input) (feeds_sort_order input)
  = Returned (feeds, count) →
  feedsResolver env input = feeds_page env input feeds count.
Proof. intros Hsearch. unfold feedsResolver. by rewrite Hsearch. Qed.

Lemma fmap_node_edges (c : string) (feeds : list Feed.t) :
  node <$> ((λ feed, {| node := feed; cursor := c |}) <$> feeds) = feeds.
Proof. rewrite <- list_fmap_compose. apply list_fmap_id. Qed.

(** The cursor arithmetic on integers below 2^53. *)
Lemma cursor_arithmetic (start entries : Z) (more : bool) :
  0 ≤ start → 0 ≤ entries → start + entries < 2 ^ 53 →
  js_sub (js_add (of_Z start) (of_Z entries)) (of_Z (if more then 1 else 0))
  = of_Z (start + entries - (if more then 1 else 0)).
Proof.
  intros Hstart Hentries Hsafe.
  rewrite js_add_exact by lia.
  apply js_sub_exact; destruct more; lia.
Qed.

(** The claim C3 as the spec states it, for every start offset, fails: the
    cursor is computed on doubles and printed by [String]. After the cursor
    9007199254740992 (2^53) a page of one entry ends at the cursor
    9007199254740992 again, not at 9007199254740993; after 1e21 it ends at
    [1e+21], which is no decimal numeral; and with 25 entries, after
    9007199254740994 and with [first = -1] (no entry, [hasNextPage] true)
    the cursor is 9007199254740992, not 9007199254740993. *)
Lemma feeds_cursor_not_exact :
  (∃ edges pageInfo,
     start_of (search_env [blog_feed] 9007199254740994)
              (feeds_input "9007199254740992" 10)
     = of_Z 9007199254740992
     ∧ feedsResolver (search_env [blog_feed] 9007199254740994)
                     (feeds_input "9007199254740992" 10)
       = FeedsSuccess edges pageInfo
     ∧ node <$> edges = [blog_feed]
     ∧ hasNextPage pageInfo = false
     ∧ endCursor pageInfo = "9007199254740992"
     ∧ endCursor pageInfo ≠ pretty (9007199254740992 + 1 - 0))
  ∧ (∃ edges pageInfo,
       start_of (search_env [blog_feed] (2 * 10 ^ 21)) (feeds_input "1e21" 10)
       = of_Z (10 ^ 21)
       ∧ feedsResolver (search_env [blog_feed] (2 * 10 ^ 21))
                       (feeds_input "1e21" 10)
         = FeedsSuccess edges pageInfo
       ∧ node <$> edges = [blog_feed]
       ∧ hasNextPage pageInfo = false
       ∧ endCursor pageInfo = "1e+21"
       ∧ endCursor pageInfo ≠ pretty (10 ^ 21 + 1 - 0))
  ∧ (∃ edges pageInfo,
       start_of (catalog_env (replicate 25 blog_feed))
                (feeds_input "9007199254740994" (-1))
       = of_Z 9007199254740994
       ∧ feedsResolver (catalog_env (replicate 25 blog_feed))
                       (feeds_input "9007199254740994" (-1))
         = FeedsSuccess edges pageInfo
       ∧ edges = []
       ∧ hasNextPage pageInfo = true
       ∧ endCursor pageInfo = "9007199254740992"
       ∧ endCursor pageInfo ≠ pretty (9007199254740994 + 0 - 1)).
Proof.
  split_and!; eexists _, _;
    (split; [vm_compute; reflexivity|]);
    (split; [vm_compute; reflexivity|]);
    split_and!; try reflexivity; vm_compute; discriminate.
Qed.

(** C3, amended. Whatever the search returns when asked for [first + 1]
    entries from offset [start]: the resolver succeeds, [hasNextPage] is
    true exactly when more than [first] entries came back, the edges carry
    the returned entries without the last one in that case and all of them
    otherwise, and [endCursor] is [String] of the number
    [start + entriesReturned - (hasNextPage ? 1 : 0)] as computed on
    doubles. When [start] is an integer that is not negative and
    [start + entriesReturned] is below 2^53, that number is the integer
    [start + entriesReturned - (hasNextPage ? 1 : 0)] itself, and where
    [String] prints the integers below 2^53 as decimal numerals [endCursor]
    is its decimal numeral. In particular, over any catalog of 25 entries
    with [first = 10]: the page after the empty cursor has the first 10
    entries, [hasNextPage] true and [endCursor] 10; the page after cursor 10
    has the next 10 entries and [endCursor] 20; the page after cursor 20 has
    the last 5 entries and [hasNextPage] false. *)
Theorem feeds_pagination :
  (∀ (env : Env) (input : FeedsInput) (feeds : list Feed.t) (count : Z),
     searchFeeds env (or_empty_input (query input)) (first_of input + 1)
                 (start_of env input) (feeds_sort_by input)
                 (feeds_sort_order input)
     = Returned (feeds, count) →
     let entriesReturned := Z.of_nat (length feeds) in
     ∃ (edges : list FeedEdge) (pageInfo : PageInfo),
       feedsResolver env input = FeedsSuccess edges pageInfo
       ∧ (hasNextPage pageInfo = true ↔ entriesReturned > first_of input)
       ∧ node <$> edges
         = (if hasNextPage pageInfo then removelast feeds else feeds)
       ∧ endCursor pageInfo
         = String_ env
             (js_sub (js_add (start_of env input) (of_Z entriesReturned))
                     (of_Z (if hasNextPage pageInfo then 1 else 0)))
       ∧ ∀ start : Z,
           start_of env input = of_Z start →
           0 ≤ start →
           start + entriesReturned < 2 ^ 53 →
           endCursor pageInfo
           = String_ env
               (of_Z (start + entriesReturned
                      - (if hasNextPage pageInfo then 1 else 0)))
           ∧ ((∀ z, Z.abs z < 2 ^ 53 → String_ env (of_Z z) = pretty z) →
              endCursor pageInfo
              = pretty (start + entriesReturned
                        - (if hasNextPage pageInfo then 1 else 0))))
  ∧ (∀ catalog : list Feed.t,
       length catalog = 25%nat →
       (∃ edges pageInfo,
          feedsResolver (catalog_env catalog) (feeds_input "" 10)
          = FeedsSuccess edges pageInfo
          ∧ node <$> edges = take 10 catalog
          ∧ length edges = 10%nat
          ∧ hasNextPage pageInfo = true
          ∧ endCursor pageInfo = "10")
       ∧ (∃ edges pageInfo,
            feedsResolver (catalog_env catalog) (feeds_input "10" 10)
            = FeedsSuccess edges pageInfo
            ∧ node <$> edges = take 10 (drop 10 catalog)
            ∧ length edges = 10%nat
            ∧ hasNextPage pageInfo = true
            ∧ endCursor pageInfo = "20")
       ∧ (∃ edges pageInfo,
            feedsResolver (catalog_env catalog) (feeds_input "20" 10)
            = FeedsSuccess edges pageInfo
            ∧ node <$> edges = drop 20 catalog
            ∧ length edges = 5%nat
            ∧ hasNextPage pageInfo = false
            ∧ endCursor pageInfo = "25")).
Proof.
  split.
  - intros env input feeds count Hsearch entriesReturned.
    rewrite (feedsResolver_run _ _ _ _ Hsearch). unfold feeds_page.
    eexists _, _. split; [reflexivity|]. cbn [hasNextPage endCursor].
    split_and!.
    + apply bool_decide_eq_true.
    + rewrite fmap_node_edges. reflexivity.
    + reflexivity.
    + intros start Hstart Hpos Hsafe. rewrite Hstart.
      rewrite cursor_arithmetic by (unfold entriesReturned in *; lia).
      split; [done|]. intros HString. apply HString.
      unfold entriesReturned in *.
      destruct (bool_decide _); lia.
  - intros catalog Hlen.
    do 25 (destruct catalog as [|? catalog]; [discriminate Hlen|]).
    destruct catalog; [|discriminate Hlen].
    split_and!; eexists _, _; (split; [vm_compute; reflexivity|]);
      split_and!; reflexivity.
Qed.

(** ** Cursors read back *)

(** A request that passes a cursor back as [after] starts at the offset
    the cursor denotes, where [Number] reads what [String] wrote. *)
Lemma start_of_cursor (env : Env) (input : FeedsInput) (z : Z) :
  Z.abs z < 2 ^ 53 →
  String_ env (of_Z z) ≠ "" →
  Number env (String_ env (of_Z z)) = of_Z z →
  after input = Val (String_ env (of_Z z)) →
  start_of env input = of_Z z.
Proof.
  intros Hsafe Hne HNumber Hafter. unfold start_of, startCursor_of.
  rewrite Hafter. cbn [or_empty_input].
  unfold truthy. rewrite bool_decide_eq_true_2 by done.
  by rewrite HNumber, of_Z_not_NaN.
Qed.

(** ** Scanning a URL that is not an HTML page *)

Example isHtml_examples :
  isHtml {| data := ""; content_type := Some "text/html; charset=utf-8" |} = true
  ∧ isHtml {| data := ""; content_type := Some "application/rss+xml" |} = false
  ∧ isHtml {| data := ""; content_type := None |} = false.
Proof. repeat split. Qed.

(** The claim C8 as the spec states it fails on the error code: a body that
    is not HTML and does not parse as a feed is answered with BadRequest. *)
Lemma scan_unparseable_body_is_bad_request :
  isHtml {| data := "not a feed"; content_type := Some "text/plain" |} = false
  ∧ parseFeed plain_text_env "https://example.com/notes.txt" = Returned None
  ∧ scanFeedsResolver plain_text_env Undefined (Val "https://example.com/notes.txt")
    = ScanFeedsError [BadRequest]
  ∧ scanFeedsResolver plain_text_env Undefined (Val "https://example.com/notes.txt")
    ≠ ScanFeedsError [NotFound].
Proof. split_and!; [reflexivity..|]. vm_compute. discriminate. Qed.

(** C8, amended. For a scan of a URL (no OPML given) whose response is not
    HTML, [parseFeed] is called on the URL: when it yields a feed, the scan
    succeeds with exactly that one feed, carrying its own title and url;
    when it yields none, or throws, the scan fails with BadRequest. *)
Theorem scan_feed_url (env : Env) (opml url : nullable string) (u : string)
    (response : Response) :
  or_undefined opml = None →
  or_undefined url = Some u →
  axios_get env u = Returned response →
  isHtml response = false →
  match parseFeed env u with
  | Returned (Some feed) =>
      scanFeedsResolver env opml url = ScanFeedsSuccess [feed]
  | Returned None => scanFeedsResolver env opml url = ScanFeedsError [BadRequest]
  | Thrown _ => scanFeedsResolver env opml url = ScanFeedsError [BadRequest]
  end.
Proof.
  intros Hopml Hurl Hget Hhtml.
  unfold scanFeedsResolver, scan_url. rewrite Hopml, Hurl, Hget, Hhtml.
  by destruct (parseFeed env u) as [[feed|]|message].
Qed.

(** ** Updating a subscription *)

Lemma head_filter_fmap {A} (P : A → Prop) `{∀ x, Decision (P x)} (f : A → A)
    (l : list A) :
  (∀ x, P (f x) ↔ P x) →
  head (filter P (f <$> l)) = f <$> head (filter P l).
Proof.
  intros Hf. induction l as [|x l IH]; [done|].
  rewrite fmap_cons, !filter_cons.
  destruct (decide (P x)) as [HP|HP].
  - by rewrite decide_True by (by apply Hf).
  - by rewrite decide_False by (by rewrite Hf).
Qed.

(** [save] never moves a row to another key, and an object without an
    owner leaves the owner in place. *)
Lemma owned_update_by_id (p : DeepPartial.t) (i : Id) (uid : UserId)
    (x : Subscription.t) :
  DeepPartial.user p = None →
  owned i uid (update_by_id p x) ↔ owned i uid x.
Proof.
  intros Huser. unfold update_by_id, owned.
  destruct (decide (has_id (DeepPartial.id p) x)); [|done].
  simpl. by rewrite Huser.
Qed.

Lemma update_run (input : UpdateSubscriptionInput.t) (uid : UserId) (db : Db)
    (r : Subscription.t) :
  findOneBy (owned (UpdateSubscriptionInput.id input) uid) db
  = (Returned (Some r), db) →
  updateSubscriptionResolver input uid db =
  (UpdateSubscriptionSuccess (merge (update_partial input) r),
   {| rows := update_by_id (update_partial input) <$> rows db;
      next_id := next_id db;
      tasks := tasks db |}).
Proof.
  intros Hfind.
  destruct (findOneBy_Some (owned (UpdateSubscriptionInput.id input) uid) _ _ Hfind)
    as (Hhead & Hin & Hid & Huser).
  unfold updateSubscriptionResolver, try_catch, authTrx.
  rewrite !run_bind. unfold save.
  change (DeepPartial.id (update_partial input))
    with (UpdateSubscriptionInput.id input).
  rewrite decide_True by (apply Exists_exists; by exists r).
  unfold findOneByOrFail. cbn [rows].
  rewrite (head_filter_fmap _ _ _ (λ x, owned_update_by_id (update_partial input) _ _ x eq_refl)).
  rewrite Hhead. cbn [fmap option_fmap option_map]. rewrite run_ret.
  do 2 f_equal. unfold update_by_id.
  change (DeepPartial.id (update_partial input))
    with (UpdateSubscriptionInput.id input).
  by rewrite decide_True.
Qed.

(** C10. (1) An [updateSubscription] call with the empty string for name,
    description or lastFetchedChecksum, or with a null status (the only
    falsy status), does exactly what the call with that field omitted does.
    (2) When the row with the given id belongs to the caller, the call
    returns that row as stored after the update: name, description,
    lastFetchedChecksum, status, lastFetchedAt and scheduledAt take the
    supplied value when it is truthy and keep the stored one otherwise;
    autoAddToLibrary and isPrivate take any supplied boolean, [false]
    included, and keep the stored one when omitted or null; the columns the
    input cannot name (owner, type, url, icon, createdAt, the unsubscribe
    addresses) keep their values, and so does every row with another id. *)
Theorem update_subscription_fields :
  (∀ (i : Id) (name description : nullable string)
     (lastFetchedAt : nullable Timestamp) (lastFetchedChecksum : nullable string)
     (status : nullable SubscriptionStatus) (scheduledAt : nullable Timestamp)
     (autoAddToLibrary isPrivate : nullable bool) (uid : UserId) (db : Db),
     let run name description lastFetchedChecksum status :=
       updateSubscriptionResolver
         (UpdateSubscriptionInput.mk i name description lastFetchedAt
            lastFetchedChecksum status scheduledAt autoAddToLibrary isPrivate)
         uid db in
     run (Val "") description lastFetchedChecksum status
       = run Undefined description lastFetchedChecksum status
     ∧ run name (Val "") lastFetchedChecksum status
       = run name Undefined lastFetchedChecksum status
     ∧ run name description (Val "") status
       = run name description Undefined status
     ∧ run name description lastFetchedChecksum Null
       = run name description lastFetchedChecksum Undefined)
  ∧ (∀ (input : UpdateSubscriptionInput.t) (uid : UserId) (db : Db)
       (r : Subscription.t),
       findOneBy (owned (UpdateSubscriptionInput.id input) uid) db
       = (Returned (Some r), db) →
       ∃ (r' : Subscription.t) (db' : Db),
         updateSubscriptionResolver input uid db
         = (UpdateSubscriptionSuccess r', db')
         ∧ r' ∈ rows db'
         ∧ length (rows db') = length (rows db)
         ∧ (∀ k x, rows db !! k = Some x →
                   Subscription.id x ≠ UpdateSubscriptionInput.id input →
                   rows db' !! k = Some x)
         ∧ Subscription.name r'
           = match UpdateSubscriptionInput.name input with
             | Val s => if decide (s = "") then Subscription.name r else s
             | _ => Subscription.name r
             end
         ∧ Subscription.description r'
           = match UpdateSubscriptionInput.description input with
             | Val s => if decide (s = "") then Subscription.description r
                        else Some s
             | _ => Subscription.description r
             end
         ∧ Subscription.lastFetchedChecksum r'
           = match UpdateSubscriptionInput.lastFetchedChecksum input with
             | Val s => if decide (s = "") then Subscription.lastFetchedChecksum r
                        else Some s
             | _ => Subscription.lastFetchedChecksum r
             end
         ∧ Subscription.status r'
           = match UpdateSubscriptionInput.status input with
             | Val s => s
             | _ => Subscription.status r
             end
         ∧ Subscription.lastFetchedAt r'
           = match UpdateSubscriptionInput.lastFetchedAt input with
             | Val t => Some t
             | _ => Subscription.lastFetchedAt r
             end
         ∧ Subscription.scheduledAt r'
           = match UpdateSubscriptionInput.scheduledAt input with
             | Val t => Some t
             | _ => Subscription.scheduledAt r
             end
         ∧ Subscription.autoAddToLibrary r'
           = match UpdateSubscriptionInput.autoAddToLibrary input with
             | Val b => Some b
             | _ => Subscription.autoAddToLibrary r
             end
         ∧ Subscription.isPrivate r'
           = match UpdateSubscriptionInput.isPrivate input with
             | Val b => Some b
             | _ => Subscription.isPrivate r
             end
         ∧ Subscription.id r' = Subscription.id r
         ∧ Subscription.user r' = Subscription.user r
         ∧ Subscription.type r' = Subscription.type r
         ∧ Subscription.url r' = Subscription.url r
         ∧ Subscription.icon r' = Subscription.icon r
         ∧ Subscription.createdAt r' = Subscription.createdAt r
         ∧ Subscription.unsubscribeMailTo r' = Subscription.unsubscribeMailTo r
         ∧ Subscription.unsubscribeHttpUrl r' = Subscription.unsubscribeHttpUrl r).
Proof.
  split.
  - intros. cbv zeta. split_and!; reflexivity.
  - intros input uid db r Hfind.
    destruct (findOneBy_Some (owned (UpdateSubscriptionInput.id input) uid)
                _ _ Hfind) as (_ & Hin & Hid & Huser).
    eexists _, _. split; [by apply update_run|]. cbn [rows].
    split_and!; try reflexivity.
    + apply list_elem_of_fmap. exists r. split; [|done].
      unfold update_by_id, has_id. by rewrite decide_True.
    + apply length_fmap.
    + intros k x Hk Hne. rewrite list_lookup_fmap, Hk. simpl.
      unfold update_by_id, has_id. by rewrite decide_False.
    + destruct input as [? [| |s] ? ? ? ? ? ? ?]; [done..|].
      cbn -[or_undefined]. rewrite or_undefined_Val. by destruct (decide _).
    + destruct input as [? ? [| |s] ? ? ? ? ? ?]; [done..|].
      cbn -[or_undefined]. rewrite or_undefined_Val. by destruct (decide _).
    + destruct input as [? ? ? ? [| |s] ? ? ? ?]; [done..|].
      cbn -[or_undefined]. rewrite or_undefined_Val. by destruct (decide _).
    + by destruct input as [? ? ? ? ? [| |s] ? ? ?].
    + by destruct input as [? ? ? [| |t] ? ? ? ? ?].
    + by destruct input as [? ? ? ? ? ? [| |t] ? ?].
    + by destruct input as [? ? ? ? ? ? ? [| |b] ?].
    + by destruct input as [? ? ? ? ? ? ? ? [| |b]].
Qed.

(** ** The theorems at concrete tables *)

(** Resubscribing to the lapsed blog: the row comes back ACTIVE with the
    fetch time and checksum it had. *)
Lemma subscribe_existing_subscription_witness :
  findOneBy (same_feed "https://blog.example/rss" "alice") lapsed_db
  = (Returned (Some lapsed_row), lapsed_db)
  ∧ subscribeResolver blog_env (subscribe_input "https://blog.example/rss")
                      "alice" lapsed_db
    = (SubscribeSuccess
         [rss_row 1 "alice" "https://blog.example/rss" Active 100 (Some 200)
                  (Some "c0ffee")],
       {| rows := [rss_row 1 "alice" "https://blog.example/rss" Active 100
                           (Some 200) (Some "c0ffee")];
          next_id := 2%nat;
          tasks := [ {| FetchRequest.userIds := ["alice"];
                        FetchRequest.url := "https://blog.example/rss";
                        FetchRequest.subscriptionIds := [1%nat];
                        FetchRequest.scheduledDates := [1700000000];
                        FetchRequest.fetchedDates := [Some 200];
                        FetchRequest.checksums := [Some "c0ffee"];
                        FetchRequest.addToLibraryFlags := [true] |} ] |}).
Proof.
  split; [reflexivity|].
  exact (proj2 (proj2 (proj2 (proj2 (proj2 (proj2 (proj2
    (subscribe_existing_subscription blog_env
       (subscribe_input "https://blog.example/rss") "alice" lapsed_db
       lapsed_row eq_refl)))))))).
Defined.

(** A first subscription of a user who has none, asked with
    [autoAddToLibrary: true]: the feed parses, the insert returns one row,
    which stores the flag, and that row is the answer; the request in the
    task queue carries the flag [false]. *)
Lemma subscribe_new_subscription_witness :
  findOneBy (same_feed "https://blog.example/" "carol") mixed_db
  = (Returned None, mixed_db)
  ∧ ∃ row : Subscription.t,
      subscribeResolver blog_env
        {| input_url := "https://blog.example/";
           input_autoAddToLibrary := Val true;
           input_isPrivate := Val false |}
        "carol" mixed_db
      = (SubscribeSuccess [row],
         {| rows := rows mixed_db ++ [row];
            next_id := 8%nat;
            tasks := [ {| FetchRequest.userIds := ["carol"];
                          FetchRequest.url := "https://blog.example/";
                          FetchRequest.subscriptionIds := [7%nat];
                          FetchRequest.scheduledDates := [1700000000];
                          FetchRequest.fetchedDates := [None];
                          FetchRequest.checksums := [None];
                          FetchRequest.addToLibraryFlags := [false] |} ] |})
      ∧ Subscription.id row = 7%nat
      ∧ Subscription.status row = Active
      ∧ Subscription.autoAddToLibrary row = Some true.
Proof.
  split; [reflexivity|].
  pose proof (subscribe_new_subscription blog_env
                {| input_url := "https://blog.example/";
                   input_autoAddToLibrary := Val true;
                   input_isPrivate := Val false |}
                "carol" mixed_db eq_refl) as H.
  change (parseFeed blog_env _) with (Returned (Some blog_feed)) in H.
  cbv beta iota in H.
  destruct H as (results & db1 & Hinsert & _ & Hcase).
  rewrite insert_having_count_run in Hinsert.
  rewrite decide_True in Hinsert by (vm_compute; reflexivity).
  injection Hinsert as <- <-.
  destruct Hcase as (_ & _ & Hrun).
  eexists. split; [exact Hrun|]. split_and!; reflexivity.
Defined.

(** The stored row carries the url of the parsed feed, not the one the
    caller subscribed with, and the caller's URL no longer finds it. *)
Lemma subscribe_stores_parsed_feed_witness :
  findOneBy (same_feed "https://blog.example/" "carol") mixed_db
  = (Returned None, mixed_db)
  ∧ parseFeed blog_env "https://blog.example/" = Returned (Some blog_feed)
  ∧ count_active_rss "carol" (rows mixed_db) < MAX_RSS_SUBSCRIPTIONS
  ∧ Feed.url blog_feed ≠ "https://blog.example/"
  ∧ ∃ row : Subscription.t,
      rows (subscribeResolver blog_env (subscribe_input "https://blog.example/")
                              "carol" mixed_db).2
      = rows mixed_db ++ [row]
      ∧ Subscription.name row = "A blog"
      ∧ Subscription.url row = Some "https://blog.example/feed.xml"
      ∧ Subscription.description row = Some "Posts"
      ∧ Subscription.icon row = None
      ∧ findOneBy (same_feed "https://blog.example/" "carol")
          (subscribeResolver blog_env (subscribe_input "https://blog.example/")
                             "carol" mixed_db).2
        = (Returned None,
           (subscribeResolver blog_env (subscribe_input "https://blog.example/")
                              "carol" mixed_db).2).
Proof.
  assert (Feed.url blog_feed ≠ "https://blog.example/") as Hne by discriminate.
  split_and!; [reflexivity | reflexivity | vm_compute; reflexivity | exact Hne |].
  destruct (subscribe_stores_parsed_feed blog_env
              (subscribe_input "https://blog.example/") "carol" mixed_db
              blog_feed eq_refl eq_refl eq_refl)
    as (row & Hrows & Hname & Hurl & Hdescription & Hicon & _ & _ & Hlater).
  destruct (Hlater Hne) as (_ & _ & Hfind).
  exists row. by split_and!.
Defined.

(** Alice's listing by last fetch, newest first: the ACTIVE row that was
    never fetched stands after the fetched ACTIVE row and before the
    UNSUBSCRIBED row, although that one has the latest fetch of all. *)
Lemma subscriptions_order_witness :
  listed (Val {| sort_by := Val UpdatedTime; sort_order := Val Descending |})
         (Val Rss) "alice" mixed_db
  = [ rss_row 4 "alice" "https://c.example/rss" Active 40 (Some 50) None;
      rss_row 2 "alice" "https://b.example/rss" Active 20 None None;
      rss_row 1 "alice" "https://a.example/rss" Unsubscribed 10 (Some 90) None ]
  ∧ (Subscription.status
       (rss_row 1 "alice" "https://a.example/rss" Unsubscribed 10 (Some 90) None)
     = Active →
     Subscription.status (rss_row 2 "alice" "https://b.example/rss" Active 20 None None)
     = Active).
Proof.
  split; [reflexivity|].
  exact (proj1 (proj2
    (subscriptions_order
       (Val {| sort_by := Val UpdatedTime; sort_order := Val Descending |})
       (Val Rss) "alice" mixed_db 1 2
       (rss_row 2 "alice" "https://b.example/rss" Active 20 None None)
       (rss_row 1 "alice" "https://a.example/rss" Unsubscribed 10 (Some 90) None)
       eq_refl eq_refl (le_n 2)))).
Defined.

(** The last page of a catalog of 25 feeds. *)
Lemma feeds_pagination_witness :
  searchFeeds (catalog_env (replicate 25 blog_feed)) "" 11 (of_Z 20) None None
  = Returned (replicate 5 blog_feed, 25)
  ∧ start_of (catalog_env (replicate 25 blog_feed)) (feeds_input "20" 10)
    = of_Z 20
  ∧ ∃ edges pageInfo,
      feedsResolver (catalog_env (replicate 25 blog_feed)) (feeds_input "20" 10)
      = FeedsSuccess edges pageInfo
      ∧ (hasNextPage pageInfo = true ↔ 5 > 10)
      ∧ node <$> edges = replicate 5 blog_feed
      ∧ endCursor pageInfo = "25".
Proof.
  assert (start_of (catalog_env (replicate 25 blog_feed)) (feeds_input "20" 10)
          = of_Z 20) as Hstart by (vm_compute; reflexivity).
  assert (searchFeeds (catalog_env (replicate 25 blog_feed))
            (or_empty_input (query (feeds_input "20" 10)))
            (first_of (feeds_input "20" 10) + 1)
            (start_of (catalog_env (replicate 25 blog_feed))
                      (feeds_input "20" 10))
            (feeds_sort_by (feeds_input "20" 10))
            (feeds_sort_order (feeds_input "20" 10))
          = Returned (replicate 5 blog_feed, 25)) as Hsearch
    by (vm_compute; reflexivity).
  split; [vm_compute; reflexivity|]. split; [exact Hstart|].
  destruct (proj1 feeds_pagination (catalog_env (replicate 25 blog_feed))
              (feeds_input "20" 10) (replicate 5 blog_feed) 25 Hsearch)
    as (edges & pageInfo & Hrun & Hnext & Hnodes & _ & Hexact).
  exists edges, pageInfo. split; [exact Hrun|]. split; [exact Hnext|].
  assert (hasNextPage pageInfo = false) as Hlast.
  { destruct (hasNextPage pageInfo); [|done].
    destruct Hnext as [Hnext _]. by specialize (Hnext eq_refl). }
  assert (20 + Z.of_nat (length (replicate 5 blog_feed)) < 2 ^ 53) as Hsafe
    by (simpl; lia).
  assert (0 ≤ 20) as Hpos by lia.
  destruct (Hexact 20 Hstart Hpos Hsafe) as [_ Hdecimal].
  rewrite Hlast in Hnodes, Hdecimal. split; [exact Hnodes|].
  exact (Hdecimal builtin_String_of_Z).
Defined.

(** A scan of an XML feed URL returns that feed alone. *)
Lemma scan_feed_url_witness :
  axios_get blog_env "https://blog.example/"
  = Returned {| data := "<rss/>"; content_type := Some "application/xml" |}
  ∧ isHtml {| data := "<rss/>"; content_type := Some "application/xml" |} = false
  ∧ scanFeedsResolver blog_env Null (Val "https://blog.example/")
    = ScanFeedsSuccess [blog_feed].
Proof.
  split_and!; [reflexivity..|].
  exact (scan_feed_url blog_env Null (Val "https://blog.example/")
           "https://blog.example/"
           {| data := "<rss/>"; content_type := Some "application/xml" |}
           eq_refl eq_refl eq_refl eq_refl).
Defined.

(** Alice renames nothing (the name is the empty string) and switches
    autoAddToLibrary off on row 4: the name stays, the flag becomes false. *)
Lemma update_subscription_fields_witness :
  findOneBy (owned 4%nat "alice") mixed_db
  = (Returned (Some (rss_row 4 "alice" "https://c.example/rss" Active 40
                             (Some 50) None)), mixed_db)
  ∧ ∃ (r' : Subscription.t) (db' : Db),
      updateSubscriptionResolver
        (UpdateSubscriptionInput.mk 4%nat (Val "") Undefined Undefined Undefined
           Undefined Undefined (Val false) Undefined)
        "alice" mixed_db
      = (UpdateSubscriptionSuccess r', db')
      ∧ Subscription.name r' = "A blog"
      ∧ Subscription.autoAddToLibrary r' = Some false
      ∧ Subscription.lastFetchedAt r' = Some 50.
Proof.
  split; [reflexivity|].
  destruct (proj2 update_subscription_fields
              (UpdateSubscriptionInput.mk 4%nat (Val "") Undefined Undefined
                 Undefined Undefined Undefined (Val false) Undefined)
              "alice" mixed_db
              (rss_row 4 "alice" "https://c.example/rss" Active 40 (Some 50) None)
              eq_refl)
    as (r' & db' & Hrun & _ & _ & _ & Hname & _ & _ & _ & Hfetched & _ & Hauto & _).
  exists r', db'. by split_and!.
Defined.

(** ** Concurrent subscribe calls *)

(** The steps of a call, taken one after the other with no other call in
    between, are the resolver. *)
Lemma call_alone_subscribeResolver (env : Env) (input : SubscribeInput)
    (uid : UserId) (db : Db) :
  call_alone env input uid db =
  (Done (subscribeResolver env input uid db).1,
   (subscribeResolver env input uid db).2).
Proof.
  unfold call_alone, subscribeResolver, try_catch, subscribe_body.
  cbn [call_steps call_step]. rewrite run_bind.
  unfold resume at 1. unfold findOneBy.
  destruct (head (filter (same_feed (input_url input) uid) (rows db)))
    as [existing|].
  - destruct (decide (Subscription.status existing = Active)); [done|].
    cbn [call_step]. rewrite run_bind. unfold resume at 1.
    destruct (save_entity (with_status existing Active) db)
      as [[updated|message] db1]; [|done].
    cbn [call_step]. rewrite run_bind. unfold resume at 1.
    by destruct (enqueueRssFeedFetch env _ db1) as [[[]|message] db2].
  - cbn [call_step]. rewrite run_bind. unfold resume at 1.
    unfold await_parseFeed.
    destruct (parseFeed env (input_url input)) as [[feed|]|message]; [|done..].
    cbn [call_step]. rewrite run_bind. unfold resume at 1.
    destruct (insert_having_count env _ _ _ _ _ _ _ _ _ db)
      as [[[|newSubscription others]|message] db1]; [done| |done].
    cbn [call_step]. rewrite run_bind. unfold resume.
    by destruct (enqueueRssFeedFetch env _ db1) as [[[]|message] db2].
Qed.

(** Replacing one element of a list under [omap]. *)
Lemma omap_insert_same {A B} (f : A → option B) (l : list A) (i : nat)
    (x y : A) :
  l !! i = Some x → f y = f x → omap f (<[i:=y]> l) = omap f l.
Proof.
  revert i. induction l as [|a l IH]; intros [|i] Hi Hf; simplify_eq/=.
  - by rewrite Hf.
  - by rewrite IH.
Qed.

Lemma omap_insert_new {A B} (f : A → option B) (l : list A) (i : nat)
    (x y : A) (b : B) :
  l !! i = Some x → f x = None → f y = Some b →
  omap f (<[i:=y]> l) ≡ₚ omap f l ++ [b].
Proof.
  revert i. induction l as [|a l IH]; intros [|i] Hi Hx Hy; simplify_eq/=.
  - rewrite Hx, Hy. by rewrite <- Permutation_cons_append.
  - specialize (IH i Hi Hx Hy). destruct (f a); simpl; by rewrite IH.
Qed.

Lemma sum_list_with_insert {A} (f : A → nat) (l : list A) (i : nat) (x y : A) :
  l !! i = Some x →
  (sum_list_with f (<[i:=y]> l) + f x = sum_list_with f l + f y)%nat.
Proof.
  revert i. induction l as [|a l IH]; intros [|i] Hi; simplify_eq/=; [lia|].
  specialize (IH i Hi). lia.
Qed.

Lemma filter_none {A} (P : A → Prop) `{∀ x, Decision (P x)} (l : list A) :
  Forall (λ x, ¬ P x) l → filter P l = [].
Proof.
  induction 1 as [|x l Hx _ IH]; [done|]. by rewrite filter_cons_False.
Qed.

Lemma filter_all {A} (P : A → Prop) `{∀ x, Decision (P x)} (l : list A) :
  Forall P l → filter P l = l.
Proof.
  induction 1 as [|x l Hx _ IH]; [done|]. by rewrite filter_cons_True, IH.
Qed.

(** Every step of a call that has not returned brings it closer to its
    return, whatever the store holds. *)
Lemma call_step_steps_left (env : Env) (input : SubscribeInput) (uid : UserId)
    (st : call_state) (db : Db) :
  returned st = false →
  (steps_left (call_step env input uid st db).1 < steps_left st)%nat.
Proof.
  intros Hst. destruct st; try discriminate Hst; cbn [call_step]; unfold resume.
  - destruct (findOneBy _ db) as [[[existing|]|message] db']; simpl; try lia.
    destruct (decide _); simpl; lia.
  - destruct (save_entity _ db) as [[updated|message] db']; simpl; lia.
  - destruct (enqueueRssFeedFetch env _ db) as [[[]|message] db']; simpl; lia.
  - destruct (await_parseFeed env _ db) as [[[feed|]|message] db']; simpl; lia.
  - destruct (insert_having_count env _ _ _ _ _ _ _ _ _ db)
      as [[[|row rest]|message] db']; simpl; lia.
  - destruct (enqueueRssFeedFetch env _ db) as [[[]|message] db']; simpl; lia.
Qed.

(** The calls return: from any state of the calls, some continuation of the
    execution brings every call to its [return]. *)
Lemma calls_return (env : Env) (uid : UserId) (inputs : list SubscribeInput)
    (calls : list call_state) (db : Db) :
  length calls = length inputs →
  ∃ (calls' : list call_state) (db' : Db),
    rtc (step env uid inputs) (calls, db) (calls', db')
    ∧ Forall (λ st, returned st = true) calls'.
Proof.
  remember (sum_list_with steps_left calls) as n eqn:Hn.
  revert calls db Hn. induction (lt_wf n) as [n _ IH]. intros calls db -> Hlen.
  destruct (decide (Forall (λ st, returned st = true) calls)) as [Hall|Hsome].
  { by exists calls, db. }
  apply not_Forall_Exists in Hsome; [|apply _].
  apply Exists_exists in Hsome as (st & Hin & Hst).
  apply list_elem_of_lookup in Hin as [i Hi].
  apply not_true_is_false in Hst.
  destruct (lookup_lt_is_Some_2 inputs i) as [input Hinput].
  { rewrite <- Hlen. by eapply lookup_lt_Some. }
  pose proof (call_step_steps_left env input uid st db Hst) as Hless.
  pose proof (sum_list_with_insert steps_left calls i st
                (call_step env input uid st db).1 Hi) as Hsum.
  destruct (IH (sum_list_with steps_left
                  (<[i:=(call_step env input uid st db).1]> calls))
               ltac:(lia) _ (call_step env input uid st db).2 eq_refl)
    as (calls' & db' & Hrun & Hdone).
  { by rewrite length_insert. }
  exists calls', db'. split; [|done].
  eapply rtc_l; [|exact Hrun]. by apply (step_call env uid inputs i input st).
Qed.

(** A step of the execution extends it, and so does a schedule. *)
Lemma reachable_step (env : Env) (uid : UserId) (inputs : list SubscribeInput)
    (db0 : Db) (s s' : list call_state * Db) :
  reachable env uid inputs db0 s → step env uid inputs s s' →
  reachable env uid inputs db0 s'.
Proof. intros Hreach Hstep. by eapply rtc_r. Qed.

Lemma run_schedule_reachable (env : Env) (uid : UserId)
    (inputs : list SubscribeInput) (db0 : Db) (schedule : list nat) :
  ∀ s, reachable env uid inputs db0 s →
       reachable env uid inputs db0 (run_schedule env uid inputs schedule s).
Proof.
  induction schedule as [|i schedule IH]; intros [calls db] Hreach; [done|].
  cbn [run_schedule fst snd].
  destruct (inputs !! i) as [input|] eqn:Hinput; [|by apply IH].
  destruct (calls !! i) as [st|] eqn:Hcall; [|by apply IH].
  destruct (returned st) eqn:Hst; [by apply IH|].
  apply IH. eapply reachable_step; [exact Hreach|].
  by apply (step_call env uid inputs i input st).
Qed.

Lemma call_ok_mono (env : Env) (input : SubscribeInput)
    (created created' : list Subscription.t) (st : call_state) :
  (∀ row, row ∈ created → row ∈ created') →
  call_ok env input created st → call_ok env input created' st.
Proof.
  intros Hsub. destruct st as [| | | | | |[]]; simpl; auto.
  intros (row & -> & Hrow). exists row. auto.
Qed.

Lemma call_ok_catch (env : Env) (input : SubscribeInput)
    (created : list Subscription.t) (message : string) :
  call_ok env input created (Done (subscribe_catch message))
  ∧ holds_row (Done (subscribe_catch message)) = 0%nat.
Proof. unfold subscribe_catch. by destruct (decide _). Qed.

Section Concurrent.
Context (env : Env) (uid : UserId) (inputs : list SubscribeInput) (db0 : Db).

(** The URLs are new to the user, who starts within the quota. *)
Hypothesis new_urls :
  ∀ input r, input ∈ inputs → r ∈ rows db0 →
             ¬ same_feed (input_url input) uid r.
Hypothesis within_quota :
  count_active_rss uid (rows db0) ≤ MAX_RSS_SUBSCRIPTIONS.

Lemma quota_invariant_initial :
  quota_invariant env uid inputs db0 (replicate (length inputs) AtFind, db0).
Proof.
  exists []. simpl. split_and!.
  - by rewrite app_nil_r.
  - constructor.
  - clear. induction inputs as [|input l IH]; simpl; by constructor.
  - induction (length inputs) as [|n IH]; [done|]. exact IH.
  - exact within_quota.
Qed.

Lemma quota_invariant_step (s s' : list call_state * Db) :
  quota_invariant env uid inputs db0 s → step env uid inputs s s' →
  quota_invariant env uid inputs db0 s'.
Proof.
  intros (created & Hrows & Hcreated & Hcalls & Hheld & Hquota) Hstep.
  destruct Hstep as [i input st calls db Hinput Hcall Hst].
  simpl in Hrows, Hcreated, Hcalls, Hheld, Hquota.
  pose proof (Forall2_lookup_lr _ _ _ _ _ _ Hcalls Hinput Hcall) as Hok.
  pose proof (λ st', sum_list_with_insert holds_row calls i st st' Hcall)
    as Hsum.
  assert (∀ created' st',
            (∀ row, row ∈ created → row ∈ created') →
            call_ok env input created' st' →
            Forall2 (λ input st, call_ok env input created' st) inputs
                    (<[i:=st']> calls)) as Hnext.
  { intros created' st' Hsub Hst'.
    rewrite <- (list_insert_id inputs i input) by done.
    apply Forall2_insert; [|done].
    eapply Forall2_impl; [exact Hcalls|].
    intros input' st'' Hok'. by eapply call_ok_mono. }
  (* a step that inserts nothing and leaves the call holding no more rows *)
  assert (∀ st' db',
            rows db' = rows db → call_ok env input created st' →
            (holds_row st' ≤ holds_row st)%nat →
            quota_invariant env uid inputs db0 (<[i:=st']> calls, db'))
    as Hsame.
  { intros st' db' Hrows' Hst' Hle. exists created. simpl. split_and!.
    - by rewrite Hrows'.
    - done.
    - by apply Hnext.
    - specialize (Hsum st'). lia.
    - by rewrite Hrows'. }
  destruct st as [| | | |feed|row|]; simpl in Hok; try done.
  - (* the lookup: a row it finds is one the calls have created *)
    cbn [call_step]. unfold resume.
    change (findOneBy (same_feed (input_url input) uid) db)
      with (Returned (head (filter (same_feed (input_url input) uid) (rows db))),
            db).
    destruct (head (filter (same_feed (input_url input) uid) (rows db)))
      as [existing|] eqn:Hhead; [|by apply Hsame].
    apply head_filter_Some in Hhead as [Hin Hfeed].
    rewrite Hrows, elem_of_app in Hin. destruct Hin as [Hin|Hin].
    { exfalso. eapply new_urls; [|exact Hin|exact Hfeed].
      by eapply list_elem_of_lookup_2. }
    rewrite Forall_forall in Hcreated.
    destruct (Hcreated existing Hin) as [(_ & _ & Hactive) _].
    rewrite decide_True by done. by apply Hsame.
  - (* the parser *)
    cbn [call_step]. unfold resume, await_parseFeed.
    destruct (parseFeed env (input_url input)) as [[feed|]|message] eqn:Hfeed.
    + by apply Hsame.
    + by apply Hsame.
    + destruct (call_ok_catch env input created message) as [Hcatch Hnone].
      cbn [fst snd]. apply Hsame; [done|done|]. rewrite Hnone. lia.
  - (* the conditional insert *)
    cbn [call_step]. unfold resume. rewrite insert_having_count_run.
    destruct (decide (count_active_rss uid (rows db) < MAX_RSS_SUBSCRIPTIONS))
      as [Hbelow|Hmet]; [|by apply Hsame].
    cbv zeta. eexists (created ++ [_]). simpl. split_and!.
    + by rewrite Hrows, app_assoc.
    + apply Forall_app. split; [done|]. constructor; [|done].
      split; [done|]. exists input, feed. split_and!; [|done..].
      by eapply list_elem_of_lookup_2.
    + apply Hnext.
      * intros r Hr. apply elem_of_app. by left.
      * simpl. apply elem_of_app. right. by apply list_elem_of_singleton.
    + specialize (Hsum (AtEnqueueNew (inserted_row env db (Feed.title feed)
                          (Feed.url feed) (or_null (Feed.description feed)) Rss
                          uid (or_null (Feed.thumbnail feed))
                          (nullish (input_autoAddToLibrary input))
                          (nullish (input_isPrivate input))))).
      rewrite length_app. simpl in *. lia.
    + unfold count_active_rss in *.
      rewrite filter_app, filter_cons_True, filter_nil by done.
      rewrite length_app. simpl. lia.
  - (* the fetch request *)
    cbn [call_step]. unfold resume, enqueueRssFeedFetch.
    destruct (enqueueFailure env _) as [message|].
    + destruct (call_ok_catch env input created message) as [Hcatch Hnone].
      cbn [fst snd]. apply Hsame; [done|done|]. rewrite Hnone. lia.
    + apply Hsame; [done| |done]. simpl. by exists row.
Qed.

Lemma quota_invariant_reachable (s : list call_state * Db) :
  reachable env uid inputs db0 s → quota_invariant env uid inputs db0 s.
Proof.
  unfold reachable. revert s.
  apply (rtc_ind_r (quota_invariant env uid inputs db0)).
  - apply quota_invariant_initial.
  - intros s1 s2 _ Hstep IH. by apply (quota_invariant_step s1).
Qed.

(** Every URL parses as a feed whose url is not the URL of another call,
    and the task queue takes every request. *)
Hypothesis feeds_parse :
  ∀ input, input ∈ inputs →
           ∃ feed, parseFeed env (input_url input) = Returned (Some feed).
Hypothesis own_urls :
  ∀ i j input input' feed,
    inputs !! i = Some input → inputs !! j = Some input' →
    parseFeed env (input_url input) = Returned (Some feed) →
    Feed.url feed = input_url input' → i = j.
Hypothesis queue_accepts : ∀ request, enqueueFailure env request = None.

Lemma owned_row_step (calls : list call_state) (i : nat) (st st' : call_state)
    (row : Subscription.t) :
  calls !! i = Some st → (past_insert st → past_insert st') →
  owned_row env inputs calls row →
  owned_row env inputs (<[i:=st']> calls) row.
Proof.
  intros Hcall Hpast (j & input & feed & stj & Hinput & Hfeed & Hurl & Hj & Hstj).
  destruct (decide (j = i)) as [->|Hne].
  - exists i, input, feed, st'. split_and!; [done..| |].
    + apply list_lookup_insert_eq. by eapply lookup_lt_Some.
    + apply Hpast. by simplify_eq.
  - exists j, input, feed, stj. split_and!; [done..| |done].
    by rewrite list_lookup_insert_ne.
Qed.

Lemma track_invariant_initial :
  track_invariant env inputs db0 (replicate (length inputs) AtFind, db0).
Proof.
  exists []. simpl. split_and!.
  - by rewrite app_nil_r.
  - constructor.
  - clear. induction inputs as [|input l IH]; simpl; by constructor.
Qed.

Lemma track_invariant_step (s s' : list call_state * Db) :
  track_invariant env inputs db0 s → step env uid inputs s s' →
  track_invariant env inputs db0 s'.
Proof.
  intros (created & Hrows & Howned & Htrack) Hstep.
  destruct Hstep as [i input st calls db Hinput Hcall Hst].
  simpl in Hrows, Howned, Htrack.
  pose proof (Forall2_lookup_lr _ _ _ _ _ _ Htrack Hinput Hcall) as Hon.
  assert (∀ st' db',
            rows db' = rows db → on_track env input st' →
            (past_insert st → past_insert st') →
            track_invariant env inputs db0 (<[i:=st']> calls, db')) as Hsame.
  { intros st' db' Hrows' Hst' Hpast. exists created. simpl. split_and!.
    - by rewrite Hrows'.
    - eapply Forall_impl; [exact Howned|].
      intros row. by apply owned_row_step with st.
    - rewrite <- (list_insert_id inputs i input) by done.
      by apply Forall2_insert. }
  destruct st as [| | | |feed|row|]; simpl in Hon; try done.
  - (* the lookup finds nothing: no other call inserts this URL *)
    cbn [call_step]. unfold resume.
    change (findOneBy (same_feed (input_url input) uid) db)
      with (Returned (head (filter (same_feed (input_url input) uid) (rows db))),
            db).
    rewrite filter_none; [by apply Hsame|].
    rewrite Hrows. apply Forall_app. split; apply Forall_forall; intros r Hr.
    + apply new_urls; [|done]. by eapply list_elem_of_lookup_2.
    + intros [Hurl _]. rewrite Forall_forall in Howned.
      destruct (Howned r Hr)
        as (j & input' & feed & stj & Hinput' & Hfeed & Hurl' & Hj & Hstj).
      assert (j = i) as ->.
      { apply (own_urls j i input' input feed); [done..|]. congruence. }
      rewrite Hcall in Hj. by simplify_eq.
  - (* the parser *)
    cbn [call_step]. unfold resume, await_parseFeed.
    destruct (feeds_parse input) as (feed & Hfeed).
    { by eapply list_elem_of_lookup_2. }
    rewrite Hfeed. by apply Hsame.
  - (* the conditional insert *)
    cbn [call_step]. unfold resume. rewrite insert_having_count_run.
    destruct (decide (count_active_rss uid (rows db) < MAX_RSS_SUBSCRIPTIONS))
      as [Hbelow|Hmet]; [|by apply Hsame].
    cbv zeta. eexists (created ++ [_]). simpl. split_and!.
    + by rewrite Hrows, app_assoc.
    + apply Forall_app. split.
      * eapply Forall_impl; [exact Howned|].
        intros r. by apply owned_row_step with (AtInsert feed).
      * constructor; [|done].
        eexists i, input, feed, _.
        split_and!;
          [ done | done | done
          | apply list_lookup_insert_eq; by eapply lookup_lt_Some
          | done ].
    + rewrite <- (list_insert_id inputs i input) by done.
      by apply Forall2_insert.
  - (* the fetch request *)
    cbn [call_step]. unfold resume, enqueueRssFeedFetch.
    rewrite queue_accepts. by apply Hsame.
Qed.

Lemma track_invariant_reachable (s : list call_state * Db) :
  reachable env uid inputs db0 s → track_invariant env inputs db0 s.
Proof.
  unfold reachable. revert s.
  apply (rtc_ind_r (track_invariant env inputs db0)).
  - apply track_invariant_initial.
  - intros s1 s2 _ Hstep IH. by apply (track_invariant_step s1).
Qed.
End Concurrent.

(** No more calls have succeeded than hold a row. *)
Lemma succeeded_holds_row (calls : list call_state) :
  (length (filter succeeded calls) ≤ sum_list_with holds_row calls)%nat.
Proof.
  induction calls as [|st calls IH]; [done|].
  rewrite filter_cons. cbn [sum_list_with].
  destruct st as [| | | | | |[]]; simpl; lia.
Qed.

(** A call that runs its steps with no other call in between is one
    execution of the calls: serving the calls one after the other is among
    the executions. *)
Lemma serial_steps (env : Env) (uid : UserId) (inputs : list SubscribeInput)
    (i : nat) (input : SubscribeInput) (n : nat) :
  inputs !! i = Some input →
  ∀ (st : call_state) (calls : list call_state) (db : Db),
    calls !! i = Some st →
    rtc (step env uid inputs) (calls, db)
        (<[i := (call_steps env input uid n st db).1]> calls,
         (call_steps env input uid n st db).2).
Proof.
  intros Hinput. induction n as [|n IH]; intros st calls db Hcall.
  - simpl. by rewrite list_insert_id.
  - cbn [call_steps].
    destruct (call_step env input uid st db) as [st' db'] eqn:Hstep.
    destruct (returned st) eqn:Hst.
    + destruct st; try discriminate Hst. simpl in Hstep. simplify_eq.
      by apply IH.
    + eapply rtc_l.
      { by apply (step_call env uid inputs i input st). }
      rewrite Hstep. cbn [fst snd].
      rewrite <- (list_insert_insert_eq calls i
                    (call_steps env input uid n st' db').1 st').
      apply IH. apply list_lookup_insert_eq. by eapply lookup_lt_Some.
Qed.

Lemma serial_call (env : Env) (uid : UserId) (inputs : list SubscribeInput)
    (db0 : Db) (i : nat) (input : SubscribeInput) (calls : list call_state)
    (db : Db) :
  inputs !! i = Some input → calls !! i = Some AtFind →
  reachable env uid inputs db0 (calls, db) →
  reachable env uid inputs db0
    (<[i := Done (subscribeResolver env input uid db).1]> calls,
     (subscribeResolver env input uid db).2).
Proof.
  intros Hinput Hcall Hreach. unfold reachable in *.
  etrans; [exact Hreach|].
  pose proof (serial_steps env uid inputs i input 4 Hinput AtFind calls db Hcall)
    as Hrun.
  fold (call_alone env input uid db) in Hrun.
  by rewrite call_alone_subscribeResolver in Hrun.
Qed.

Lemma schedule_reaches (env : Env) (uid : UserId) (inputs : list SubscribeInput)
    (db0 : Db) (schedule : list nat) (s : list call_state * Db) :
  run_schedule env uid inputs schedule (replicate (length inputs) AtFind, db0)
  = s →
  reachable env uid inputs db0 s.
Proof. intros <-. apply run_schedule_reachable. apply rtc_refl. Qed.




(** * Further properties of the resolvers *)

(** ** Unsubscribing *)

Lemma unsubscribeResolver_run (id_text : Id → string)
    (unsubscribe : Subscription.t → M unit)
    (name : string) (subscriptionId : nullable string) (uid : UserId) (db : Db) :
  unsubscribeResolver id_text unsubscribe name subscriptionId uid db =
  match head (filter (unsubscribe_key id_text name subscriptionId uid)
                     (rows db)) with
  | None => (UnsubscribeError [NotFound], db)
  | Some subscription =>
      match unsubscribe subscription db with
      | (Returned _, db') => (UnsubscribeSuccess subscription, db')
      | (Thrown _, db') => (UnsubscribeError [BadRequest], db')
      end
  end.
Proof.
  unfold unsubscribeResolver, try_catch, getOne. rewrite run_bind.
  unfold findOneBy.
  destruct (head (filter _ (rows db))) as [subscription|]; [|done].
  rewrite run_bind. by destruct (unsubscribe subscription db) as [[[]|?] ?].
Qed.

(** X1. A caller cannot unsubscribe what is not theirs: when no row of the
    caller has the given id (or, with an id that is absent, null or the
    empty string, the given name), also when a row of another user has it,
    the call answers NotFound, the store is as it was and the unsubscribe
    service has not run, whatever that service would do. *)
Theorem unsubscribe_not_the_callers (id_text : Id → string)
    (unsubscribe : Subscription.t → M unit)
    (name : string) (subscriptionId : nullable string) (uid : UserId) (db : Db) :
  (∀ r, r ∈ rows db →
        match subscriptionId with
        | Val i => if truthy i then id_text (Subscription.id r) = i
                   else Subscription.name r = name
        | _ => Subscription.name r = name
        end →
        Subscription.user r ≠ uid) →
  unsubscribeResolver id_text unsubscribe name subscriptionId uid db
  = (UnsubscribeError [NotFound], db).
Proof.
  intros Hother. rewrite unsubscribeResolver_run.
  rewrite (filter_none (unsubscribe_key id_text name subscriptionId uid));
    [done|].
  apply Forall_forall. intros r Hr [Huser Hkey]. by apply (Hother r).
Qed.

(** X2. When a subscription id that is not the empty string is given, the
    name plays no part: the call does the same for every name. An id that
    is the empty string or null is no id: the call looks the subscription
    up by its name, as it does without an id. And whatever the key, a
    subscription the call answers with is a row of the table that belongs
    to the caller and has the given id (or, without one, the given name),
    and the service has returned for it. *)
Theorem unsubscribe_by_id_ignores_name (id_text : Id → string)
    (unsubscribe : Subscription.t → M unit)
    (name : string) (subscriptionId : nullable string) (uid : UserId) (db : Db) :
  (∀ i name',
     i ≠ "" →
     unsubscribeResolver id_text unsubscribe name (Val i) uid db
     = unsubscribeResolver id_text unsubscribe name' (Val i) uid db)
  ∧ unsubscribeResolver id_text unsubscribe name (Val "") uid db
    = unsubscribeResolver id_text unsubscribe name Undefined uid db
  ∧ unsubscribeResolver id_text unsubscribe name Null uid db
    = unsubscribeResolver id_text unsubscribe name Undefined uid db
  ∧ (∀ subscription,
       (unsubscribeResolver id_text unsubscribe name subscriptionId uid db).1
       = UnsubscribeSuccess subscription →
       subscription ∈ rows db
       ∧ Subscription.user subscription = uid
       ∧ match subscriptionId with
         | Val i => if truthy i then id_text (Subscription.id subscription) = i
                    else Subscription.name subscription = name
         | _ => Subscription.name subscription = name
         end
       ∧ ∃ db', unsubscribe subscription db = (Returned (), db')).
Proof.
  split_and!.
  - intros i name' Hi. rewrite !unsubscribeResolver_run.
    rewrite (list_filter_iff (unsubscribe_key id_text name (Val i) uid)
                             (unsubscribe_key id_text name' (Val i) uid));
      [done|].
    intros r. unfold unsubscribe_key, truthy.
    by rewrite bool_decide_eq_true_2.
  - by rewrite !unsubscribeResolver_run.
  - by rewrite !unsubscribeResolver_run.
  - intros subscription. rewrite unsubscribeResolver_run.
    destruct (head (filter _ (rows db))) as [found|] eqn:Hhead; [|done].
    apply (head_filter_Some (unsubscribe_key id_text name subscriptionId uid))
      in Hhead as [Hin [Huser Hkey]].
    destruct (unsubscribe found db) as [[[]|message] db'] eqn:Hrun; [|done].
    simpl. intros [= <-]. split_and!; [done..|]. by exists db'.
Qed.

(** Bob asks to unsubscribe alice's row 4 and is told there is no such
    subscription; alice unsubscribes it, under any name. *)
Lemma unsubscribe_not_the_callers_witness :
  unsubscribeResolver pretty mark_unsubscribed "A blog" (Val "4") "bob" mixed_db
  = (UnsubscribeError [NotFound], mixed_db).
Proof.
  apply unsubscribe_not_the_callers.
  apply (Forall_forall (λ r, pretty (Subscription.id r) = "4" →
                             Subscription.user r ≠ "bob")).
  apply (bool_decide_unpack _). vm_compute. exact I.
Defined.

Lemma unsubscribe_by_id_ignores_name_witness :
  (unsubscribeResolver pretty mark_unsubscribed "no such name" (Val "4") "alice"
                       mixed_db).1
  = UnsubscribeSuccess
      (rss_row 4 "alice" "https://c.example/rss" Active 40 (Some 50) None)
  ∧ Subscription.user
      (rss_row 4 "alice" "https://c.example/rss" Active 40 (Some 50) None)
    = "alice"
  ∧ unsubscribeResolver pretty mark_unsubscribed "no such name" (Val "4")
                        "alice" mixed_db
    = unsubscribeResolver pretty mark_unsubscribed "another name" (Val "4")
                          "alice" mixed_db
  ∧ unsubscribeResolver pretty mark_unsubscribed "no such name" (Val "")
                        "alice" mixed_db
    = (UnsubscribeError [NotFound], mixed_db).
Proof.
  assert ("4" ≠ "") as Hid by discriminate.
  assert ((unsubscribeResolver pretty mark_unsubscribed "no such name"
             (Val "4") "alice" mixed_db).1
          = UnsubscribeSuccess
              (rss_row 4 "alice" "https://c.example/rss" Active 40 (Some 50)
                       None)) as Hrun by (vm_compute; reflexivity).
  split; [exact Hrun|].
  split.
  { exact (proj1 (proj2 (proj2 (proj2 (proj2
             (unsubscribe_by_id_ignores_name pretty mark_unsubscribed
                "no such name" (Val "4") "alice" mixed_db))) _ Hrun))). }
  split.
  { exact (proj1 (unsubscribe_by_id_ignores_name pretty mark_unsubscribed
                    "no such name" (Val "4") "alice" mixed_db)
                 "4" "another name" Hid). }
  vm_compute. reflexivity.
Defined.

(** ** What a subscribe call does to the table *)

(** The table after a call of [subscribeResolver], on each of its paths and
    whatever the task queue answers. *)
Lemma subscribe_rows (env : Env) (input : SubscribeInput) (uid : UserId)
    (db : Db) :
  match head (filter (same_feed (input_url input) uid) (rows db)) with
  | Some existing =>
      if decide (Subscription.status existing = Active)
      then (subscribeResolver env input uid db).2 = db
      else rows (subscribeResolver env input uid db).2
           = (λ r, if decide (Subscription.id r = Subscription.id existing)
                   then with_status existing Active else r) <$> rows db
  | None =>
      match parseFeed env (input_url input) with
      | Returned (Some feed) =>
          if decide (count_active_rss uid (rows db) < MAX_RSS_SUBSCRIPTIONS)
          then rows (subscribeResolver env input uid db).2
               = rows db ++ [inserted_row env db (Feed.title feed) (Feed.url feed)
                               (or_null (Feed.description feed)) Rss uid
                               (or_null (Feed.thumbnail feed))
                               (nullish (input_autoAddToLibrary input))
                               (nullish (input_isPrivate input))]
          else (subscribeResolver env input uid db).2 = db
      | _ => (subscribeResolver env input uid db).2 = db
      end
  end.
Proof.
  unfold subscribeResolver, try_catch, subscribe_body.
  rewrite run_bind.
  change (findOneBy (same_feed (input_url input) uid) db)
    with (Returned (head (filter (same_feed (input_url input) uid) (rows db))),
          db).
  destruct (head (filter _ (rows db))) as [existing|] eqn:Hhead.
  - apply (head_filter_Some (same_feed (input_url input) uid)) in Hhead
      as [Hin _].
    cbv beta iota.
    destruct (decide (Subscription.status existing = Active)); [done|].
    assert (Exists (has_id (Subscription.id (with_status existing Active)))
                   (rows db)) as Hex.
    { apply Exists_exists. by exists existing. }
    rewrite run_bind, (save_entity_run _ _ Hex), run_bind.
    unfold enqueueRssFeedFetch. by destruct (enqueueFailure env _).
  - cbv beta iota. rewrite run_bind. unfold await_parseFeed.
    destruct (parseFeed env (input_url input)) as [[feed|]|message]; [|done..].
    rewrite run_bind, insert_having_count_run.
    destruct (decide (count_active_rss uid (rows db) < MAX_RSS_SUBSCRIPTIONS));
      [|done].
    cbv beta iota zeta. rewrite run_bind. unfold enqueueRssFeedFetch.
    by destruct (enqueueFailure env _).
Qed.

Lemma NoDup_fmap_eq {A B} (f : A → B) (l : list A) (x y : A) :
  NoDup (f <$> l) → x ∈ l → y ∈ l → f x = f y → x = y.
Proof.
  induction l as [|a l IH]; csimpl; [by intros _ ?%elem_of_nil|].
  intros [Hnotin Hnodup]%NoDup_cons [->|Hx]%elem_of_cons [->|Hy]%elem_of_cons Heq.
  - done.
  - destruct Hnotin. rewrite Heq. by apply list_elem_of_fmap_2.
  - destruct Hnotin. rewrite <- Heq. by apply list_elem_of_fmap_2.
  - by apply IH.
Qed.

Lemma filter_fmap_unchanged {A} (P : A → Prop) `{∀ x, Decision (P x)}
    (g : A → A) (l : list A) :
  (∀ r, r ∈ l → g r = r ∨ (¬ P r ∧ ¬ P (g r))) →
  filter P (g <$> l) = filter P l.
Proof.
  induction l as [|a l IH]; csimpl; [done|]. intros Hl.
  rewrite !filter_cons, IH by (intros r Hr; apply Hl; by right).
  destruct (Hl a) as [->|[Hna Hnga]]; [by left|done|].
  by rewrite !decide_False.
Qed.

Lemma count_after_resubscribe (uid : UserId) (e : Subscription.t)
    (l : list Subscription.t) :
  NoDup (Subscription.id <$> l) → e ∈ l →
  Subscription.user e = uid → Subscription.type e = Rss →
  Subscription.status e = Unsubscribed →
  count_active_rss uid
    ((λ r, if decide (Subscription.id r = Subscription.id e)
           then with_status e Active else r) <$> l)
  = count_active_rss uid l + 1.
Proof.
  intros Hnodup Hin Huser Htype Hstatus. unfold count_active_rss.
  induction l as [|a l IH]; [by apply elem_of_nil in Hin|].
  csimpl in *. apply NoDup_cons in Hnodup as [Hnotin Hnodup].
  rewrite !filter_cons.
  destruct (decide (Subscription.id a = Subscription.id e)) as [Hid|Hid].
  - assert (a = e) as ->.
    { apply elem_of_cons in Hin as [->|Hin]; [done|].
      destruct Hnotin. rewrite Hid. by apply list_elem_of_fmap_2. }
    rewrite decide_True by done.
    rewrite (decide_False (P := active_rss_of uid e))
      by (intros (_ & _ & Hactive); congruence).
    replace (_ <$> l) with l; [simpl; lia|].
    rewrite <- (list_fmap_id l) at 1. apply list_fmap_ext.
    intros i r Hr. rewrite decide_False; [done|].
    intros Heq. destruct Hnotin. rewrite <- Heq.
    apply list_elem_of_fmap_2. by eapply list_elem_of_lookup_2.
  - apply elem_of_cons in Hin as [->|Hin]; [done|].
    specialize (IH Hnodup Hin).
    destruct (decide (active_rss_of uid a)); simpl; lia.
Qed.

(** X3. Subscribing a second time to a URL that was just subscribed to
    creates nothing: when a call creates a subscription for a feed that
    names the input URL as its own, a further call by the same user for
    that URL answers AlreadySubscribed and leaves the store as the first
    call left it. *)
Theorem subscribe_twice_already_subscribed (env : Env)
    (input again : SubscribeInput) (uid : UserId) (db : Db) (feed : Feed.t) :
  findOneBy (same_feed (input_url input) uid) db = (Returned None, db) →
  parseFeed env (input_url input) = Returned (Some feed) →
  Feed.url feed = input_url input →
  count_active_rss uid (rows db) < MAX_RSS_SUBSCRIPTIONS →
  input_url again = input_url input →
  subscribeResolver env again uid (subscribeResolver env input uid db).2
  = (SubscribeError [AlreadySubscribed], (subscribeResolver env input uid db).2).
Proof.
  intros Hfind Hfeed Hurl Hquota Hagain.
  apply (findOneBy_None (same_feed (input_url input) uid)) in Hfind as Hnone.
  pose proof (subscribe_rows env input uid db) as Hrows.
  rewrite filter_none, Hfeed, decide_True in Hrows by done. simpl in Hrows.
  remember (subscribeResolver env input uid db).2 as db1 eqn:Hdb1.
  unfold subscribeResolver, try_catch, subscribe_body.
  rewrite run_bind.
  change (findOneBy (same_feed (input_url again) uid) db1)
    with (Returned (head (filter (same_feed (input_url again) uid) (rows db1))),
          db1).
  rewrite Hrows, Hagain, filter_app, filter_none, app_nil_l by done.
  rewrite filter_cons_True by (unfold same_feed; simpl; by rewrite Hurl).
  reflexivity.
Qed.

(** X4. Re-subscribing is not counted against the quota: when the lookup
    finds an UNSUBSCRIBED row (and keys are unique), the call makes it
    ACTIVE whatever the number of active RSS subscriptions the caller
    already has, so that number grows by one, past 150 when it stood
    there, and the call never answers ExceededMaxSubscriptions. *)
Theorem resubscribe_ignores_quota (env : Env) (input : SubscribeInput)
    (uid : UserId) (db : Db) (existing : Subscription.t) :
  findOneBy (same_feed (input_url input) uid) db
  = (Returned (Some existing), db) →
  Subscription.status existing = Unsubscribed →
  NoDup (Subscription.id <$> rows db) →
  count_active_rss uid (rows (subscribeResolver env input uid db).2)
  = count_active_rss uid (rows db) + 1
  ∧ (subscribeResolver env input uid db).1
    ≠ SubscribeError [ExceededMaxSubscriptions].
Proof.
  intros Hfind Hstatus Hnodup.
  destruct (findOneBy_Some (same_feed (input_url input) uid) _ _ Hfind)
    as (Hhead & Hin & Hurl & Huser & Htype).
  split.
  - pose proof (subscribe_rows env input uid db) as Hrows.
    rewrite Hhead, decide_False in Hrows by congruence.
    rewrite Hrows. by apply count_after_resubscribe.
  - unfold subscribeResolver, try_catch, subscribe_body.
    rewrite run_bind, Hfind, decide_False by congruence.
    assert (Exists (has_id (Subscription.id (with_status existing Active)))
                   (rows db)) as Hex.
    { apply Exists_exists. by exists existing. }
    rewrite run_bind, (save_entity_run _ _ Hex), run_bind.
    unfold enqueueRssFeedFetch.
    destruct (enqueueFailure env _) as [message|]; simpl; [|done].
    unfold subscribe_catch. by destruct (decide _).
Qed.

(** X5. A subscribe call stays within the caller's own subscription: with
    unique keys, every row keeps its position, and is either as it was or
    was the caller's UNSUBSCRIBED row for the input URL and differs in its
    status only; at most one row is added, none removed; and what every
    other user is listed is the same before and after, whatever the
    parser and the task queue do. *)
Theorem subscribe_frame (env : Env) (input : SubscribeInput) (uid : UserId)
    (db : Db) :
  NoDup (Subscription.id <$> rows db) →
  (∀ k r, rows db !! k = Some r →
     rows (subscribeResolver env input uid db).2 !! k = Some r
     ∨ (same_feed (input_url input) uid r
        ∧ Subscription.status r = Unsubscribed
        ∧ rows (subscribeResolver env input uid db).2 !! k
          = Some (with_status r Active)))
  ∧ (length (rows db) ≤ length (rows (subscribeResolver env input uid db).2)
     ≤ S (length (rows db)))%nat
  ∧ (∀ other sort type, other ≠ uid →
       listed sort type other (subscribeResolver env input uid db).2
       = listed sort type other db).
Proof.
  intros Hnodup. pose proof (subscribe_rows env input uid db) as Hrows.
  destruct (head (filter _ (rows db))) as [existing|] eqn:Hhead.
  - apply (head_filter_Some (same_feed (input_url input) uid)) in Hhead
      as [Hin Hsame].
    destruct (decide (Subscription.status existing = Active)) as [|Hstatus].
    { rewrite Hrows. (split; [by left|split; [lia|done]]). }
    assert (∀ r, r ∈ rows db → Subscription.id r = Subscription.id existing →
                 r = existing) as Hkey.
    { intros r Hr. by apply (NoDup_fmap_eq Subscription.id (rows db)). }
    rewrite Hrows. split; [|split].
    + intros k r Hk. rewrite list_lookup_fmap, Hk. simpl.
      destruct (decide (Subscription.id r = Subscription.id existing)) as [Hid|];
        [|by left].
      right. rewrite (Hkey r) by (by eapply list_elem_of_lookup_2 || done).
      split_and!; [done| |done]. by destruct (Subscription.status existing).
    + rewrite length_fmap. lia.
    + intros other sort type Hother. rewrite !listed_eq, Hrows. f_equal.
      apply (filter_fmap_unchanged (where_clause other type)).
      intros r Hr.
      destruct (decide (Subscription.id r = Subscription.id existing)) as [Hid|];
        [|by left].
      right. rewrite (Hkey r Hr Hid).
      destruct Hsame as (_ & Huser & _).
      split; intros [Hu _]; apply Hother; by rewrite <- Hu.
  - destruct (parseFeed env (input_url input)) as [[feed|]|message];
      [|rewrite Hrows; (split; [by left|split; [lia|done]])..].
    destruct (decide (count_active_rss uid (rows db) < MAX_RSS_SUBSCRIPTIONS));
      [|rewrite Hrows; (split; [by left|split; [lia|done]])].
    rewrite Hrows. split; [|split].
    + intros k r Hk. left. by apply lookup_app_l_Some.
    + rewrite length_app. simpl. lia.
    + intros other sort type Hother. rewrite !listed_eq. f_equal.
      cbn [rows]. rewrite Hrows, filter_app, filter_cons, decide_False, filter_nil.
      * by rewrite app_nil_r.
      * intros [Hu _]. by apply Hother.
Qed.

(** X6. A subscription that a call creates shows in the caller's listings
    at once: the listing of RSS subscriptions and the unfiltered listing
    taken after the call hold the created row and are one row longer than
    before the call, in every sort order; the listing of newsletters is
    what it was. *)
Theorem subscribe_then_listed (env : Env) (input : SubscribeInput)
    (uid : UserId) (db : Db) (feed : Feed.t) (sort : nullable SortParams) :
  findOneBy (same_feed (input_url input) uid) db = (Returned None, db) →
  parseFeed env (input_url input) = Returned (Some feed) →
  count_active_rss uid (rows db) < MAX_RSS_SUBSCRIPTIONS →
  ∃ row : Subscription.t,
    rows (subscribeResolver env input uid db).2 = rows db ++ [row]
    ∧ (∀ type, type ≠ Val Newsletter →
         row ∈ listed sort type uid (subscribeResolver env input uid db).2
         ∧ listed sort type uid (subscribeResolver env input uid db).2
           ≡ₚ row :: listed sort type uid db)
    ∧ listed sort (Val Newsletter) uid (subscribeResolver env input uid db).2
      = listed sort (Val Newsletter) uid db.
Proof.
  intros Hfind Hfeed Hquota.
  apply (findOneBy_None (same_feed (input_url input) uid)) in Hfind as Hnone.
  pose proof (subscribe_rows env input uid db) as Hrows.
  rewrite filter_none, Hfeed, decide_True in Hrows by done. simpl in Hrows.
  eexists. split; [exact Hrows|]. split.
  - intros type Htype.
    assert (where_clause uid type
              (inserted_row env db (Feed.title feed) (Feed.url feed)
                 (or_null (Feed.description feed)) Rss uid
                 (or_null (Feed.thumbnail feed))
                 (nullish (input_autoAddToLibrary input))
                 (nullish (input_isPrivate input)))) as Hwhere.
    { split; [done|]. destruct type as [| |[|]]; simpl; auto. done. }
    split.
    + apply elem_of_listed. split; [done|]. rewrite Hrows.
      apply elem_of_app. right. by apply list_elem_of_singleton.
    + rewrite !listed_Permutation, Hrows, filter_app.
      rewrite filter_cons_True, filter_nil by done.
      by rewrite <- Permutation_cons_append.
  - rewrite !listed_eq, Hrows, filter_app, filter_cons_False, filter_nil.
    + by rewrite app_nil_r.
    + by intros [_ [? _]].
Qed.

(** X7. The quota counts what the caller can see: the number the quota
    statement of [subscribeResolver] compares with 150 is the number of
    ACTIVE rows in the caller's listing of RSS subscriptions, in every sort
    order. *)
Theorem quota_counts_listed_active (sort : nullable SortParams) (uid : UserId)
    (db : Db) :
  count_active_rss uid (rows db)
  = Z.of_nat (length (filter (λ r, Subscription.status r = Active)
                             (listed sort (Val Rss) uid db))).
Proof.
  unfold count_active_rss. f_equal.
  rewrite (listed_Permutation sort (Val Rss) uid db), list_filter_filter.
  f_equal. apply list_filter_iff. intros r.
  unfold active_rss_of, where_clause. tauto.
Qed.

Lemma subscribe_twice_already_subscribed_witness :
  subscribeResolver echo_env (subscribe_input "https://a.example/feed") "erin"
    (subscribeResolver echo_env (subscribe_input "https://a.example/feed")
                       "erin" nearly_full_db).2
  = (SubscribeError [AlreadySubscribed],
     (subscribeResolver echo_env (subscribe_input "https://a.example/feed")
                        "erin" nearly_full_db).2).
Proof.
  eapply subscribe_twice_already_subscribed;
    [vm_compute; reflexivity | reflexivity | reflexivity
    | vm_compute; reflexivity | reflexivity].
Defined.

(** Erin holds 150 active subscriptions and a lapsed one; subscribing to
    the lapsed one again gives her 151. *)
Lemma resubscribe_ignores_quota_witness :
  count_active_rss "erin" (rows full_db) = 150
  ∧ count_active_rss "erin"
      (rows (subscribeResolver echo_env
               (subscribe_input "https://lapsed.example/rss") "erin"
               full_db).2)
    = 150 + 1.
Proof.
  split; [vm_compute; reflexivity|].
  assert (NoDup (Subscription.id <$> rows full_db)) as Hnodup.
  { apply (bool_decide_unpack _). vm_compute. exact I. }
  assert (findOneBy (same_feed "https://lapsed.example/rss" "erin") full_db
          = (Returned (Some (rss_row 151 "erin" "https://lapsed.example/rss"
                                     Unsubscribed 0 None None)), full_db))
    as Hfind.
  { vm_compute. reflexivity. }
  exact (proj1 (resubscribe_ignores_quota echo_env
                  (subscribe_input "https://lapsed.example/rss") "erin" full_db
                  _ Hfind eq_refl Hnodup)).
Defined.

(** Alice subscribes again to her lapsed feed; bob's listing is as before. *)
Lemma subscribe_frame_witness :
  listed Undefined Undefined "bob"
    (subscribeResolver blog_env (subscribe_input "https://a.example/rss")
                       "alice" mixed_db).2
  = listed Undefined Undefined "bob" mixed_db.
Proof.
  assert (NoDup (Subscription.id <$> rows mixed_db)) as Hnodup.
  { apply (bool_decide_unpack _). vm_compute. exact I. }
  by apply (proj2 (proj2 (subscribe_frame blog_env
                            (subscribe_input "https://a.example/rss") "alice"
                            mixed_db Hnodup))).
Defined.

Lemma subscribe_then_listed_witness :
  ∃ row : Subscription.t,
    row ∈ listed Undefined (Val Rss) "erin"
            (subscribeResolver echo_env
               (subscribe_input "https://a.example/feed") "erin"
               nearly_full_db).2
    ∧ Subscription.url row = Some "https://a.example/feed".
Proof.
  assert (findOneBy (same_feed "https://a.example/feed" "erin") nearly_full_db
          = (Returned None, nearly_full_db)) as Hfind.
  { vm_compute. reflexivity. }
  assert (count_active_rss "erin" (rows nearly_full_db) < MAX_RSS_SUBSCRIPTIONS)
    as Hquota.
  { vm_compute. reflexivity. }
  destruct (subscribe_then_listed echo_env
              (subscribe_input "https://a.example/feed") "erin" nearly_full_db
              _ Undefined Hfind eq_refl Hquota) as (row & Hrows & Hlisted & _).
  exists row. split; [by apply Hlisted|].
  apply app_inj_tail in Hrows as [_ <-]. reflexivity.
Defined.

(** ** What an update does to the table *)

Lemma update_cases (input : UpdateSubscriptionInput.t) (uid : UserId) (db : Db) :
  updateSubscriptionResolver input uid db =
  match head (filter (owned (UpdateSubscriptionInput.id input) uid) (rows db)) with
  | Some r =>
      (UpdateSubscriptionSuccess (merge (update_partial input) r),
       {| rows := update_by_id (update_partial input) <$> rows db;
          next_id := next_id db;
          tasks := tasks db |})
  | None => (UpdateSubscriptionError [BadRequest], db)
  end.
Proof.
  destruct (head (filter _ (rows db))) as [r|] eqn:Hhead.
  - apply update_run. unfold findOneBy. by rewrite Hhead.
  - unfold updateSubscriptionResolver, try_catch, authTrx.
    rewrite !run_bind. unfold save.
    destruct (decide (Exists _ (rows db))); [|done].
    unfold findOneByOrFail. cbn [rows].
    rewrite (head_filter_fmap _ _ _
               (λ x, owned_update_by_id (update_partial input) _ _ x eq_refl)).
    by rewrite Hhead.
Qed.

Lemma merge_merge (p : DeepPartial.t) (r : Subscription.t) :
  merge p (merge p r) = merge p r.
Proof.
  unfold merge. simpl. f_equal.
  all: match goal with |- default _ ?x = _ => by destruct x end.
Qed.

Lemma update_by_id_idemp (p : DeepPartial.t) (r : Subscription.t) :
  update_by_id p (update_by_id p r) = update_by_id p r.
Proof.
  unfold update_by_id, has_id.
  destruct (decide (Subscription.id r = DeepPartial.id p)) as [Hid|Hid].
  - change (Subscription.id (merge p r)) with (Subscription.id r).
    rewrite decide_True by done. apply merge_merge.
  - by rewrite decide_False.
Qed.

(** X8. Only the owner can update a subscription: the call succeeds exactly
    when the table has a row with the given id that belongs to the caller,
    and then answers with a row that has this id and owner; in every other
    case, a missing id and another user's row alike, the answer is
    BadRequest. *)
Theorem update_subscription_only_own (input : UpdateSubscriptionInput.t)
    (uid : UserId) (db : Db) :
  ((∃ subscription,
      (updateSubscriptionResolver input uid db).1
      = UpdateSubscriptionSuccess subscription)
   ↔ ∃ r, r ∈ rows db ∧ Subscription.id r = UpdateSubscriptionInput.id input
          ∧ Subscription.user r = uid)
  ∧ (∀ subscription,
       (updateSubscriptionResolver input uid db).1
       = UpdateSubscriptionSuccess subscription →
       Subscription.id subscription = UpdateSubscriptionInput.id input
       ∧ Subscription.user subscription = uid)
  ∧ (∀ errorCodes,
       (updateSubscriptionResolver input uid db).1
       = UpdateSubscriptionError errorCodes →
       errorCodes = [BadRequest]).
Proof.
  rewrite update_cases.
  destruct (head (filter _ (rows db))) as [r|] eqn:Hhead.
  - apply (head_filter_Some (owned (UpdateSubscriptionInput.id input) uid))
      in Hhead as [Hin [Hid Huser]].
    split_and!.
    + split; [intros _; by exists r|intros _; by eexists].
    + by intros subscription [= <-].
    + done.
  - apply (head_filter_None (owned (UpdateSubscriptionInput.id input) uid))
      in Hhead.
    split_and!.
    + split; [by intros [? ?]|]. intros (r & Hin & Hid & Huser).
      by destruct (proj1 (Forall_forall _ _) Hhead r Hin).
    + done.
    + by intros errorCodes [= <-].
Qed.

(** X9. An update stays within the caller's own subscription. With unique
    keys, the table keeps its length, its key counter and the task queue;
    every row that has another id or another owner is as it was, at its
    position; and what every other user is listed is the same before and
    after. A call that fails leaves the whole store as it was (the write it
    made inside the transaction of [authTrx] is dropped). *)
Theorem update_subscription_frame (input : UpdateSubscriptionInput.t)
    (uid : UserId) (db : Db) :
  NoDup (Subscription.id <$> rows db) →
  length (rows (updateSubscriptionResolver input uid db).2) = length (rows db)
  ∧ next_id (updateSubscriptionResolver input uid db).2 = next_id db
  ∧ tasks (updateSubscriptionResolver input uid db).2 = tasks db
  ∧ (∀ k r, rows db !! k = Some r →
       Subscription.id r ≠ UpdateSubscriptionInput.id input
       ∨ Subscription.user r ≠ uid →
       rows (updateSubscriptionResolver input uid db).2 !! k = Some r)
  ∧ (∀ other sort type, other ≠ uid →
       listed sort type other (updateSubscriptionResolver input uid db).2
       = listed sort type other db)
  ∧ (∀ errorCodes,
       (updateSubscriptionResolver input uid db).1
       = UpdateSubscriptionError errorCodes →
       (updateSubscriptionResolver input uid db).2 = db).
Proof.
  intros Hnodup. rewrite update_cases.
  destruct (head (filter _ (rows db))) as [found|] eqn:Hhead; [|done].
  apply (head_filter_Some (owned (UpdateSubscriptionInput.id input) uid))
    in Hhead as [Hin [Hid Huser]].
  assert (∀ r, r ∈ rows db →
               Subscription.id r = UpdateSubscriptionInput.id input →
               r = found) as Hkey.
  { intros r Hr Heq.
    apply (NoDup_fmap_eq Subscription.id (rows db)); [done..|congruence]. }
  cbn [snd fst rows next_id tasks]. split_and!; [apply length_fmap|done..| | |done].
  - intros k r Hk Hother. rewrite list_lookup_fmap, Hk. simpl.
    unfold update_by_id, has_id.
    change (DeepPartial.id (update_partial input))
      with (UpdateSubscriptionInput.id input).
    destruct (decide (Subscription.id r = UpdateSubscriptionInput.id input))
      as [Heq|]; [|done].
    rewrite (Hkey r) in Hother by (by eapply list_elem_of_lookup_2 || done).
    by destruct Hother.
  - intros other sort type Hother. rewrite !listed_eq. f_equal. cbn [rows].
    apply (filter_fmap_unchanged (where_clause other type)).
    intros r Hr. unfold update_by_id, has_id.
    change (DeepPartial.id (update_partial input))
      with (UpdateSubscriptionInput.id input).
    destruct (decide (Subscription.id r = UpdateSubscriptionInput.id input))
      as [Heq|]; [|by left].
    right. rewrite (Hkey r Hr Heq).
    split; intros [Hu _]; apply Hother; simpl in Hu; congruence.
Qed.

(** X10. An update is idempotent: making the same call a second time gives
    the same answer and leaves the store as the first call left it. *)
Theorem update_subscription_idempotent (input : UpdateSubscriptionInput.t)
    (uid : UserId) (db : Db) :
  updateSubscriptionResolver input uid (updateSubscriptionResolver input uid db).2
  = updateSubscriptionResolver input uid db.
Proof.
  rewrite (update_cases input uid db).
  destruct (head (filter _ (rows db))) as [r|] eqn:Hhead.
  - cbn [snd]. rewrite update_cases. cbn [rows next_id tasks].
    rewrite (head_filter_fmap _ _ _
               (λ x, owned_update_by_id (update_partial input) _ _ x eq_refl)).
    rewrite Hhead. cbn [fmap option_fmap option_map].
    apply (head_filter_Some (owned (UpdateSubscriptionInput.id input) uid))
      in Hhead as [_ [Hid _]].
    replace (update_by_id (update_partial input) r)
      with (merge (update_partial input) r)
      by (unfold update_by_id; by rewrite decide_True).
    rewrite merge_merge, <- list_fmap_compose. do 2 f_equal.
    apply list_fmap_ext. intros i x _. apply update_by_id_idemp.
  - cbn [snd]. by rewrite update_cases, Hhead.
Qed.

(** Bob's attempt to rename alice's row 4 leaves alice's listing as it
    was. *)
Lemma update_subscription_frame_witness :
  listed Undefined Undefined "alice"
    (updateSubscriptionResolver
       {| UpdateSubscriptionInput.id := 4%nat;
          UpdateSubscriptionInput.name := Val "Mine";
          UpdateSubscriptionInput.description := Undefined;
          UpdateSubscriptionInput.lastFetchedAt := Undefined;
          UpdateSubscriptionInput.lastFetchedChecksum := Undefined;
          UpdateSubscriptionInput.status := Val Unsubscribed;
          UpdateSubscriptionInput.scheduledAt := Undefined;
          UpdateSubscriptionInput.autoAddToLibrary := Undefined;
          UpdateSubscriptionInput.isPrivate := Undefined |} "bob" mixed_db).2
  = listed Undefined Undefined "alice" mixed_db.
Proof.
  assert (NoDup (Subscription.id <$> rows mixed_db)) as Hnodup.
  { apply (bool_decide_unpack _). vm_compute. exact I. }
  by apply update_subscription_frame.
Defined.

Lemma count_after_activation (uid : UserId) (e : Subscription.t)
    (g : Subscription.t → Subscription.t) (l : list Subscription.t) :
  NoDup (Subscription.id <$> l) → e ∈ l →
  (∀ r, Subscription.id r ≠ Subscription.id e → g r = r) →
  ¬ active_rss_of uid e → active_rss_of uid (g e) →
  count_active_rss uid (g <$> l) = count_active_rss uid l + 1.
Proof.
  intros Hnodup Hin Hg Hbefore Hafter. unfold count_active_rss.
  induction l as [|a l IH]; [by apply elem_of_nil in Hin|].
  csimpl in *. apply NoDup_cons in Hnodup as [Hnotin Hnodup].
  rewrite !filter_cons.
  destruct (decide (Subscription.id a = Subscription.id e)) as [Hid|Hid].
  - assert (a = e) as ->.
    { apply elem_of_cons in Hin as [->|Hin]; [done|].
      destruct Hnotin. rewrite Hid. by apply list_elem_of_fmap_2. }
    rewrite decide_True, decide_False by done.
    replace (g <$> l) with l; [simpl; lia|].
    rewrite <- (list_fmap_id l) at 1. apply list_fmap_ext.
    intros i r Hr. symmetry. apply Hg.
    intros Heq. destruct Hnotin. rewrite <- Heq.
    apply list_elem_of_fmap_2. by eapply list_elem_of_lookup_2.
  - apply elem_of_cons in Hin as [->|Hin]; [done|].
    specialize (IH Hnodup Hin). rewrite (Hg a Hid).
    destruct (decide (active_rss_of uid a)); simpl; lia.
Qed.

Lemma resubscribe_run (env : Env) (input : SubscribeInput) (uid : UserId)
    (db : Db) (existing : Subscription.t) :
  head (filter (same_feed (input_url input) uid) (rows db)) = Some existing →
  Subscription.status existing ≠ Active →
  subscribeResolver env input uid db =
  match enqueueFailure env
          (resubscribe_request env input uid (with_status existing Active))
  with
  | None =>
      (SubscribeSuccess [with_status existing Active],
       {| rows := (λ r, if decide (Subscription.id r = Subscription.id existing)
                        then with_status existing Active else r) <$> rows db;
          next_id := next_id db;
          tasks := tasks db
                   ++ [resubscribe_request env input uid
                                           (with_status existing Active)] |})
  | Some message =>
      (subscribe_catch message,
       {| rows := (λ r, if decide (Subscription.id r = Subscription.id existing)
                        then with_status existing Active else r) <$> rows db;
          next_id := next_id db;
          tasks := tasks db |})
  end.
Proof.
  intros Hhead Hstatus.
  unfold subscribeResolver, try_catch, subscribe_body.
  rewrite run_bind.
  change (findOneBy (same_feed (input_url input) uid) db)
    with (Returned (head (filter (same_feed (input_url input) uid) (rows db))),
          db).
  rewrite Hhead. cbv beta iota. rewrite decide_False by done.
  apply (head_filter_Some (same_feed (input_url input) uid)) in Hhead
    as [Hin _].
  assert (Exists (has_id (Subscription.id (with_status existing Active)))
                 (rows db)) as Hex.
  { apply Exists_exists. by exists existing. }
  rewrite run_bind, (save_entity_run _ _ Hex), run_bind.
  unfold enqueueRssFeedFetch.
  change (Subscription.id (with_status existing Active))
    with (Subscription.id existing).
  by destruct (enqueueFailure env _).
Qed.

(** X11. An update that sets the status to ACTIVE is not counted against
    the quota either: on an UNSUBSCRIBED RSS row of the caller (keys being
    unique) it succeeds whatever the number of active RSS subscriptions
    the caller has, and that number grows by one. *)
Theorem update_reactivation_ignores_quota (input : UpdateSubscriptionInput.t)
    (uid : UserId) (db : Db) (r : Subscription.t) :
  findOneBy (owned (UpdateSubscriptionInput.id input) uid) db
  = (Returned (Some r), db) →
  Subscription.type r = Rss →
  Subscription.status r = Unsubscribed →
  UpdateSubscriptionInput.status input = Val Active →
  NoDup (Subscription.id <$> rows db) →
  (∃ subscription,
     (updateSubscriptionResolver input uid db).1
     = UpdateSubscriptionSuccess subscription
     ∧ Subscription.status subscription = Active)
  ∧ count_active_rss uid (rows (updateSubscriptionResolver input uid db).2)
    = count_active_rss uid (rows db) + 1.
Proof.
  intros Hfind Htype Hstatus Hinput Hnodup.
  destruct (findOneBy_Some (owned (UpdateSubscriptionInput.id input) uid)
              _ _ Hfind) as (Hhead & Hin & Hid & Huser).
  rewrite update_cases, Hhead. cbn [fst snd rows]. split.
  - eexists. split; [done|]. simpl. by rewrite Hinput.
  - apply (count_after_activation uid r); [done..| | |].
    + intros x Hx. unfold update_by_id, has_id. rewrite decide_False; [done|].
      change (DeepPartial.id (update_partial input))
        with (UpdateSubscriptionInput.id input). congruence.
    + intros (_ & _ & Hactive). congruence.
    + unfold update_by_id. rewrite decide_True by done.
      unfold active_rss_of. simpl. by rewrite Hinput.
Qed.

(** X12. Unsubscribing by an update and subscribing again is a round trip
    on the table: when the caller's ACTIVE row for a URL is set to
    UNSUBSCRIBED by an update that names no other field, a subscribe call
    for that URL puts every row of the table back as it was before the
    update, and, the task queue accepting the request, answers with the row
    as it was. *)
Theorem unsubscribe_by_update_then_subscribe (env : Env)
    (input : SubscribeInput) (uid : UserId) (db : Db) (r : Subscription.t) :
  findOneBy (same_feed (input_url input) uid) db = (Returned (Some r), db) →
  Subscription.status r = Active →
  NoDup (Subscription.id <$> rows db) →
  (updateSubscriptionResolver
     (status_update (Subscription.id r) Unsubscribed) uid db).1
  = UpdateSubscriptionSuccess (with_status r Unsubscribed)
  ∧ rows (subscribeResolver env input uid
            (updateSubscriptionResolver
               (status_update (Subscription.id r) Unsubscribed) uid db).2).2
    = rows db
  ∧ (enqueueFailure env (resubscribe_request env input uid r) = None →
     (subscribeResolver env input uid
        (updateSubscriptionResolver
           (status_update (Subscription.id r) Unsubscribed) uid db).2).1
     = SubscribeSuccess [r]).
Proof.
  intros Hfind Hstatus Hnodup.
  destruct (findOneBy_Some (same_feed (input_url input) uid) _ _ Hfind)
    as (Hhead & Hin & Hurl & Huser & Htype).
  assert (∀ x, x ∈ rows db → Subscription.id x = Subscription.id r → x = r)
    as Hkey.
  { intros x Hx. by apply (NoDup_fmap_eq Subscription.id (rows db)). }
  set (p := update_partial (status_update (Subscription.id r) Unsubscribed)).
  assert (merge p r = with_status r Unsubscribed) as Hmerge by done.
  assert (with_status (with_status r Unsubscribed) Active = r) as Hback.
  { rewrite !with_status_fields. destruct r. simpl in *. by subst. }
  rewrite update_cases.
  destruct (head (filter (owned _ uid) (rows db))) as [found|] eqn:Hown.
  2:{ apply (head_filter_None (owned (Subscription.id r) uid)) in Hown.
      by destruct (proj1 (Forall_forall _ _) Hown r Hin). }
  apply (head_filter_Some (owned (Subscription.id r) uid)) in Hown
    as [Hfound [Hid _]].
  rewrite (Hkey found Hfound Hid). fold p. rewrite Hmerge.
  cbn [fst snd]. split; [done|].
  set (db1 := {| rows := update_by_id p <$> rows db;
                 next_id := next_id db; tasks := tasks db |}).
  assert (head (filter (same_feed (input_url input) uid) (rows db1))
          = Some (with_status r Unsubscribed)) as Hhead1.
  { cbn [db1 rows].
    rewrite (head_filter_fmap (same_feed (input_url input) uid) (update_by_id p)),
      Hhead.
    - simpl. unfold update_by_id. by rewrite decide_True.
    - intros x. unfold update_by_id. by destruct (decide _). }
  rewrite (resubscribe_run env input uid db1 _ Hhead1) by done.
  rewrite Hback.
  change (Subscription.id (with_status r Unsubscribed)) with (Subscription.id r).
  assert ((λ x, if decide (Subscription.id x = Subscription.id r) then r else x)
            <$> rows db1 = rows db) as Hrows.
  { cbn [db1 rows]. rewrite <- list_fmap_compose.
    rewrite <- (list_fmap_id (rows db)) at 2. apply list_fmap_ext.
    intros i x Hx. simpl. unfold update_by_id, has_id.
    destruct (decide (Subscription.id x = DeepPartial.id p)) as [Hidx|Hidx].
    - rewrite decide_True by done. symmetry. apply Hkey; [|done].
      by eapply list_elem_of_lookup_2.
    - by rewrite decide_False. }
  destruct (enqueueFailure env _); cbn [fst snd rows]; by rewrite Hrows.
Qed.

(** Erin, at the quota, sets her lapsed subscription ACTIVE by an update. *)
Lemma update_reactivation_ignores_quota_witness :
  count_active_rss "erin"
    (rows (updateSubscriptionResolver (status_update 151 Active) "erin"
                                      full_db).2)
  = 150 + 1.
Proof.
  assert (NoDup (Subscription.id <$> rows full_db)) as Hnodup.
  { apply (bool_decide_unpack _). vm_compute. exact I. }
  assert (findOneBy (owned 151%nat "erin") full_db
          = (Returned (Some (rss_row 151 "erin" "https://lapsed.example/rss"
                                     Unsubscribed 0 None None)), full_db))
    as Hfind.
  { vm_compute. reflexivity. }
  assert (count_active_rss "erin" (rows full_db) = 150) as Hcount.
  { vm_compute. reflexivity. }
  rewrite <- Hcount.
  exact (proj2 (update_reactivation_ignores_quota (status_update 151 Active)
                  "erin" full_db _ Hfind eq_refl eq_refl eq_refl Hnodup)).
Defined.

(** Alice unsubscribes from row 4 by an update and subscribes again. *)
Lemma unsubscribe_by_update_then_subscribe_witness :
  rows (subscribeResolver blog_env (subscribe_input "https://c.example/rss")
          "alice"
          (updateSubscriptionResolver (status_update 4 Unsubscribed) "alice"
                                      mixed_db).2).2
  = rows mixed_db.
Proof.
  assert (NoDup (Subscription.id <$> rows mixed_db)) as Hnodup.
  { apply (bool_decide_unpack _). vm_compute. exact I. }
  assert (findOneBy (same_feed "https://c.example/rss" "alice") mixed_db
          = (Returned (Some (rss_row 4 "alice" "https://c.example/rss" Active
                                     40 (Some 50) None)), mixed_db)) as Hfind.
  { vm_compute. reflexivity. }
  exact (proj1 (proj2 (unsubscribe_by_update_then_subscribe blog_env
                         (subscribe_input "https://c.example/rss") "alice"
                         mixed_db _ Hfind eq_refl Hnodup))).
Defined.

(** ** Pages of the feed catalog, one after the other *)

Lemma length_removelast_nonempty {A} (l : list A) :
  l ≠ [] → length (removelast l) = pred (length l).
Proof.
  induction l as [|a [|b l] IH]; [done|done|]. intros _.
  change (removelast (a :: b :: l)) with (a :: removelast (b :: l)).
  cbn [length]. by rewrite IH.
Qed.

(** X13. Pages follow one another without gap or overlap, as long as the
    offsets stay below 2^53 - 1, where [Number] reads back what [String]
    writes: for a request that starts at such an integer offset, with a
    page size that is not negative, a request that passes the [endCursor]
    of the page back as [after] starts at the offset of the page plus the
    number of edges the page holds; every edge of the page carries that
    same cursor. *)
Theorem feeds_next_page_starts_after_edges (env : Env) (input next : FeedsInput)
    (edges : list FeedEdge) (pageInfo : PageInfo) (start : Z) :
  (∀ z, 0 ≤ z < 2 ^ 53 →
        String_ env (of_Z z) ≠ ""
        ∧ Number env (String_ env (of_Z z)) = of_Z z) →
  start_of env input = of_Z start →
  0 ≤ start →
  0 ≤ first_of input →
  feedsResolver env input = FeedsSuccess edges pageInfo →
  start + Z.of_nat (length edges) < 2 ^ 53 - 1 →
  after next = Val (endCursor pageInfo) →
  start_of env next = of_Z (start + Z.of_nat (length edges))
  ∧ Forall (λ edge, cursor edge = endCursor pageInfo) edges.
Proof.
  intros Hround Hstart Hpos Hfirst Hrun Hsafe Hafter.
  unfold feedsResolver in Hrun.
  destruct (searchFeeds env _ _ _ _ _) as [[feeds count]|message]; [|done].
  unfold feeds_page in Hrun. injection Hrun as <- <-. cbn [endCursor] in *.
  split; [|apply Forall_fmap; by apply Forall_true].
  rewrite length_fmap in *.
  assert (Z.of_nat (length (if bool_decide (Z.of_nat (length feeds)
                                            > first_of input)
                            then removelast feeds else feeds))
          = Z.of_nat (length feeds)
            - (if bool_decide (Z.of_nat (length feeds) > first_of input)
               then 1 else 0)) as Hlen.
  { destruct (bool_decide_reflect (Z.of_nat (length feeds) > first_of input))
      as [Hmore|_]; [|lia].
    rewrite length_removelast_nonempty by (intros ->; simpl in Hmore; lia).
    lia. }
  rewrite Hstart in Hafter.
  rewrite cursor_arithmetic in Hafter
    by (destruct (bool_decide _); lia).
  rewrite Hlen.
  replace (start + (Z.of_nat (length feeds)
                    - (if bool_decide (Z.of_nat (length feeds) > first_of input)
                       then 1 else 0)))
    with (start + Z.of_nat (length feeds)
          - (if bool_decide (Z.of_nat (length feeds) > first_of input)
             then 1 else 0)) by lia.
  assert (0 ≤ start + Z.of_nat (length feeds)
               - (if bool_decide (Z.of_nat (length feeds) > first_of input)
                  then 1 else 0) < 2 ^ 53) as Hrange.
  { destruct (bool_decide_reflect (Z.of_nat (length feeds) > first_of input));
      lia. }
  destruct (Hround _ Hrange) as [Hne HNumber].
  apply start_of_cursor; [lia|done..].
Qed.

(** X14. A page never holds more than 100 feeds: when the search returns
    no more entries than the limit it was given, the page has at most
    [first] edges, with 10 for an absent or zero [first] and 100 for one
    above 100, and they are the first entries the search returned, in its
    order. *)
Theorem feeds_page_size (env : Env) (input : FeedsInput) (feeds : list Feed.t)
    (count : Z) :
  searchFeeds env (or_empty_input (query input)) (first_of input + 1)
              (start_of env input) (feeds_sort_by input) (feeds_sort_order input)
  = Returned (feeds, count) →
  Z.of_nat (length feeds) ≤ first_of input + 1 →
  0 ≤ first_of input →
  ∃ edges pageInfo,
    feedsResolver env input = FeedsSuccess edges pageInfo
    ∧ Z.of_nat (length edges) ≤ first_of input ≤ 100
    ∧ node <$> edges = take (Z.to_nat (first_of input)) feeds
    ∧ totalCount pageInfo = count.
Proof.
  intros Hsearch Hlimit Hfirst.
  rewrite (feedsResolver_run _ _ _ _ Hsearch). unfold feeds_page.
  eexists _, _. split; [reflexivity|]. cbn [totalCount].
  rewrite fmap_node_edges, length_fmap.
  assert (first_of input ≤ 100) as Hcap by (unfold first_of; lia).
  destruct (bool_decide_reflect (Z.of_nat (length feeds) > first_of input))
    as [Hmore|Hless].
  - assert (feeds ≠ []) as Hne by (intros ->; simpl in Hmore; lia).
    rewrite length_removelast_nonempty by done.
    split_and!; [lia|done| |done].
    rewrite removelast_firstn_len. f_equal. lia.
  - split_and!; [lia|done| |done].
    symmetry. apply take_ge. lia.
Qed.

(** X15. A cursor that cannot be read is no error: with [after] absent,
    null, empty, or a string that [Number] reads as not-a-number, the
    request is served from offset 0, as the request without [after] is;
    the two answers differ in nothing but the [startCursor] that echoes the
    input. *)
Theorem feeds_unreadable_cursor (env : Env) (input : FeedsInput) :
  match after input with
  | Val c => c = "" ∨ Number env c = nan
  | _ => True
  end →
  start_of env input = of_Z 0
  ∧ feedsResolver env input
    = match feedsResolver env (with_after Undefined input) with
      | FeedsSuccess edges pageInfo =>
          FeedsSuccess edges
            {| hasPreviousPage := false;
               hasNextPage := hasNextPage pageInfo;
               startCursor := or_empty_input (after input);
               endCursor := endCursor pageInfo;
               totalCount := totalCount pageInfo |}
      | FeedsError errorCodes => FeedsError errorCodes
      end.
Proof.
  intros Hcursor.
  assert (start_of env input = of_Z 0) as Hstart.
  { unfold start_of, startCursor_of.
    destruct (after input) as [| |c]; [done..|].
    destruct Hcursor as [->|HNaN]; [done|].
    cbn [or_empty_input]. rewrite HNaN. by destruct (truthy c). }
  split; [done|]. unfold feedsResolver. rewrite Hstart.
  change (start_of env (with_after Undefined input)) with (of_Z 0).
  change (first_of (with_after Undefined input)) with (first_of input).
  change (query (with_after Undefined input)) with (query input).
  change (feeds_sort_by (with_after Undefined input)) with (feeds_sort_by input).
  change (feeds_sort_order (with_after Undefined input))
    with (feeds_sort_order input).
  destruct (searchFeeds env _ _ _ _ _) as [[feeds count]|message]; [|done].
  unfold feeds_page. rewrite Hstart.
  change (start_of env (with_after Undefined input)) with (of_Z 0).
  change (first_of (with_after Undefined input)) with (first_of input).
  reflexivity.
Qed.

(** X16. A negative [first] makes a page that claims a successor it does
    not have: whatever the search returns, [hasNextPage] is true; and when
    the search returns nothing (as it does for the limit 0 that
    [first = -1] asks for), the page has no edges and its [endCursor] is
    [String(start + 0 - 1)] as computed on doubles, which for an integer
    offset that is not negative and below 2^53 is one below the offset the
    page started from. *)
Theorem feeds_negative_first (env : Env) (input : FeedsInput)
    (feeds : list Feed.t) (count : Z) :
  first_of input < 0 →
  searchFeeds env (or_empty_input (query input)) (first_of input + 1)
              (start_of env input) (feeds_sort_by input) (feeds_sort_order input)
  = Returned (feeds, count) →
  ∃ edges pageInfo,
    feedsResolver env input = FeedsSuccess edges pageInfo
    ∧ hasNextPage pageInfo = true
    ∧ (feeds = [] →
       edges = []
       ∧ endCursor pageInfo
         = String_ env (js_sub (js_add (start_of env input) (of_Z 0)) (of_Z 1))
       ∧ ∀ start : Z,
           start_of env input = of_Z start → 0 ≤ start < 2 ^ 53 →
           endCursor pageInfo = String_ env (of_Z (start - 1))).
Proof.
  intros Hfirst Hsearch.
  rewrite (feedsResolver_run _ _ _ _ Hsearch). unfold feeds_page.
  eexists _, _. split; [reflexivity|]. cbn [hasNextPage endCursor].
  rewrite bool_decide_eq_true_2 by lia.
  split; [done|]. intros ->. split; [done|]. simpl length.
  split; [done|]. intros start Hstart Hrange. rewrite Hstart.
  change (Z.of_nat 0) with 0.
  rewrite (cursor_arithmetic start 0 true) by lia.
  f_equal. f_equal. lia.
Qed.

(** Beyond 2^53 the cursor of such a page is not one below the offset:
    after 9007199254740994 it is 9007199254740992. *)
Example feeds_negative_first_rounds :
  ∃ edges pageInfo,
    feedsResolver (catalog_env (replicate 25 blog_feed))
                  (feeds_input "9007199254740994" (-1))
    = FeedsSuccess edges pageInfo
    ∧ start_of (catalog_env (replicate 25 blog_feed))
               (feeds_input "9007199254740994" (-1))
      = of_Z 9007199254740994
    ∧ endCursor pageInfo = "9007199254740992".
Proof.
  eexists _, _. split; [vm_compute; reflexivity|].
  split; vm_compute; reflexivity.
Qed.

Lemma feeds_next_page_starts_after_edges_witness :
  start_of (catalog_env (replicate 25 blog_feed)) (feeds_input "10" 10)
  = of_Z 10
  ∧ start_of (catalog_env (replicate 25 blog_feed)) (feeds_input "20" 10)
    = of_Z (10 + 10).
Proof.
  assert (start_of (catalog_env (replicate 25 blog_feed)) (feeds_input "10" 10)
          = of_Z 10) as Hstart by (vm_compute; reflexivity).
  split; [exact Hstart|].
  assert (∃ edges pageInfo,
            feedsResolver (catalog_env (replicate 25 blog_feed))
                          (feeds_input "10" 10)
            = FeedsSuccess edges pageInfo
            ∧ length edges = 10%nat ∧ endCursor pageInfo = "20")
    as (edges & pageInfo & Hrun & Hlen & Hend).
  { eexists _, _. split; [vm_compute; reflexivity|]. by split. }
  change 10 with (Z.of_nat 10) at 3. rewrite <- Hlen.
  assert (0 ≤ 10) as Hpos by lia.
  assert (0 ≤ first_of (feeds_input "10" 10)) as Hfirst
    by (vm_compute; discriminate).
  assert (10 + Z.of_nat (length edges) < 2 ^ 53 - 1) as Hsafe
    by (rewrite Hlen; simpl; lia).
  assert (after (feeds_input "20" 10) = Val (endCursor pageInfo)) as Hafter
    by (by rewrite Hend).
  exact (proj1 (feeds_next_page_starts_after_edges
                  (catalog_env (replicate 25 blog_feed)) (feeds_input "10" 10)
                  (feeds_input "20" 10) edges pageInfo 10
                  builtin_round_trip Hstart Hpos Hfirst Hrun Hsafe Hafter)).
Defined.

Lemma feeds_page_size_witness :
  ∃ edges pageInfo,
    feedsResolver (catalog_env (replicate 25 blog_feed)) (feeds_input "20" 250)
    = FeedsSuccess edges pageInfo
    ∧ Z.of_nat (length edges) ≤ 100.
Proof.
  assert (searchFeeds (catalog_env (replicate 25 blog_feed))
            (or_empty_input (query (feeds_input "20" 250)))
            (first_of (feeds_input "20" 250) + 1)
            (start_of (catalog_env (replicate 25 blog_feed))
                      (feeds_input "20" 250))
            (feeds_sort_by (feeds_input "20" 250))
            (feeds_sort_order (feeds_input "20" 250))
          = Returned (replicate 5 blog_feed, 25)) as Hsearch
    by (vm_compute; reflexivity).
  destruct (feeds_page_size (catalog_env (replicate 25 blog_feed))
              (feeds_input "20" 250) (replicate 5 blog_feed) 25 Hsearch)
    as (edges & pageInfo & Hrun & [Hlen Hcap] & _).
  - vm_compute. discriminate.
  - vm_compute. discriminate.
  - exists edges, pageInfo. split; [done|]. lia.
Defined.

Lemma feeds_unreadable_cursor_witness :
  start_of (catalog_env (replicate 25 blog_feed)) (feeds_input "next" 10)
  = of_Z 0.
Proof.
  apply (feeds_unreadable_cursor (catalog_env (replicate 25 blog_feed))
           (feeds_input "next" 10)).
  right. vm_compute. reflexivity.
Defined.

Lemma feeds_negative_first_witness :
  ∃ edges pageInfo,
    feedsResolver (catalog_env (replicate 25 blog_feed)) (feeds_input "10" (-1))
    = FeedsSuccess edges pageInfo
    ∧ hasNextPage pageInfo = true
    ∧ edges = [] ∧ endCursor pageInfo = "9".
Proof.
  assert (searchFeeds (catalog_env (replicate 25 blog_feed))
            (or_empty_input (query (feeds_input "10" (-1))))
            (first_of (feeds_input "10" (-1)) + 1)
            (start_of (catalog_env (replicate 25 blog_feed))
                      (feeds_input "10" (-1)))
            (feeds_sort_by (feeds_input "10" (-1)))
            (feeds_sort_order (feeds_input "10" (-1)))
          = Returned ([], 25)) as Hsearch
    by (vm_compute; reflexivity).
  assert (start_of (catalog_env (replicate 25 blog_feed))
                   (feeds_input "10" (-1)) = of_Z 10) as Hstart
    by (vm_compute; reflexivity).
  assert (0 ≤ 10 < 2 ^ 53) as Hrange by lia.
  destruct (feeds_negative_first (catalog_env (replicate 25 blog_feed))
              (feeds_input "10" (-1)) [] 25)
    as (edges & pageInfo & Hrun & Hnext & Hempty).
  - vm_compute. reflexivity.
  - exact Hsearch.
  - exists edges, pageInfo.
    destruct (Hempty eq_refl) as (-> & _ & Hcursor).
    specialize (Hcursor 10 Hstart Hrange).
    split_and!; [done..|]. rewrite Hcursor. vm_compute. reflexivity.
Defined.

(** ** Scanning an OPML document or an HTML page *)

(** X17. An OPML document takes precedence: when a non-empty document is
    given, the answer depends on nothing but how that document parses, not
    on the URL and not on the network. A document that parses gives one
    candidate for each outline, in the order of the outlines, with the
    outline's url and title and with its type, "rss" standing in for a
    type that is missing or empty; one that does not parse gives
    BadRequest. *)
Theorem scan_opml_precedence (env : Env) (opml : string) (url : nullable string) :
  opml ≠ "" →
  (∀ (env' : Env) (url' : nullable string),
     parseOpml env' opml = parseOpml env opml →
     scanFeedsResolver env' (Val opml) url' = scanFeedsResolver env (Val opml) url)
  ∧ match parseOpml env opml with
    | Some outlines =>
        ∃ feeds,
          scanFeedsResolver env (Val opml) url = ScanFeedsSuccess feeds
          ∧ Feed.url <$> feeds = Feed.url <$> outlines
          ∧ Feed.title <$> feeds = Feed.title <$> outlines
          ∧ Forall2 (λ feed outline,
                       Feed.type feed
                       = Some (match Feed.type outline with
                               | Some type => if decide (type = "") then "rss"
                                              else type
                               | None => "rss"
                               end))
                    feeds outlines
    | None => scanFeedsResolver env (Val opml) url = ScanFeedsError [BadRequest]
    end.
Proof.
  intros Hopml.
  assert (or_undefined (Val opml) = Some opml) as Hgiven.
  { rewrite or_undefined_Val. by rewrite decide_False. }
  split.
  - intros env' url' Hsame. unfold scanFeedsResolver. by rewrite Hgiven, Hsame.
  - unfold scanFeedsResolver. rewrite Hgiven.
    destruct (parseOpml env opml) as [outlines|]; [|done].
    eexists. split; [reflexivity|].
    rewrite <- !list_fmap_compose. split_and!; [done..|].
    apply Forall2_fmap_l, Forall_Forall2_diag, Forall_forall.
    intros outline _. unfold of_outline, or_null, truthy. simpl.
    destruct (Feed.type outline) as [type|]; [|done].
    destruct (decide (type = "")) as [->|Hne]; [done|].
    by rewrite bool_decide_eq_true_2.
Qed.

(** X18. For an HTML page the candidates are the page's RSS links that
    have a non-empty address, in the order of the page: each has the
    link's address as url, its title, the empty string for a missing one,
    and the type "rss". The feed parser is not consulted, and a page
    without such links is answered with an empty list, not an error. *)
Theorem scan_html_links (env : Env) (opml url : nullable string) (u : string)
    (response : Response) :
  or_undefined opml = None →
  or_undefined url = Some u →
  axios_get env u = Returned response →
  isHtml response = true →
  ∃ feeds,
    scanFeedsResolver env opml url = ScanFeedsSuccess feeds
    ∧ Feed.url <$> feeds
      = filter (λ address, address ≠ "")
               (omap href (rss_links env (data response)))
    ∧ Forall (λ feed, Feed.url feed ≠ "" ∧ Feed.type feed = Some "rss") feeds
    ∧ (∀ feed, feed ∈ feeds ↔
         ∃ link address,
           link ∈ rss_links env (data response)
           ∧ href link = Some address ∧ address ≠ ""
           ∧ feed = {| Feed.title := default "" (link_title link);
                       Feed.url := address;
                       Feed.description := None;
                       Feed.thumbnail := None;
                       Feed.type := Some "rss" |}).
Proof.
  intros Hopml Hurl Hget Hhtml.
  unfold scanFeedsResolver, scan_url. rewrite Hopml, Hurl, Hget, Hhtml.
  eexists. split; [reflexivity|]. split_and!.
  - induction (rss_links env (data response)) as [|link links IH]; [done|].
    rewrite fmap_cons, filter_cons. cbn [omap list_omap].
    destruct link as [[address|] title]; cbn [href of_link or_empty default Feed.url].
    + unfold truthy at 1. rewrite filter_cons.
      destruct (decide (address ≠ "")) as [Hne|He].
      * rewrite decide_True by (by apply bool_decide_eq_true_2).
        rewrite fmap_cons. cbn [Feed.url]. by rewrite IH.
      * rewrite decide_False; [done|].
        intros Htrue%bool_decide_eq_true_1. done.
    + rewrite decide_False by done. exact IH.
  - apply Forall_forall. intros feed [Htruthy Hin]%list_elem_of_filter.
    apply list_elem_of_fmap in Hin as (link & -> & _).
    split; [|done]. unfold truthy in Htruthy.
    by apply bool_decide_eq_true_1 in Htruthy.
  - intros feed. rewrite list_elem_of_filter, list_elem_of_fmap. split.
    + intros [Htruthy (link & -> & Hin)].
      unfold truthy in Htruthy. apply bool_decide_eq_true_1 in Htruthy.
      destruct link as [[address|] title]; [|done].
      exists {| href := Some address; link_title := title |}, address.
      by split_and!.
    + intros (link & address & Hin & Hhref & Hne & ->).
      split; [by apply bool_decide_eq_true_2|].
      exists link. split; [|done].
      unfold of_link, or_empty. by rewrite Hhref.
Qed.

(** X19. A scan has one error only: whatever fails, a document that does
    not parse, neither document nor URL given, the fetch, the feed parser
    throwing or finding no feed, the error code is BadRequest. In
    particular a request with neither a non-empty document nor a non-empty
    URL is answered so without any fetch. *)
Theorem scan_errors_are_bad_request (env : Env) (opml url : nullable string)
    (errorCodes : list ErrorCode) :
  scanFeedsResolver env opml url = ScanFeedsError errorCodes →
  errorCodes = [BadRequest]
  ∧ (or_undefined opml = None → or_undefined url = None →
     ∀ env', scanFeedsResolver env' opml url = ScanFeedsError [BadRequest]).
Proof.
  intros Hrun. split.
  - unfold scanFeedsResolver, scan_url in Hrun.
    destruct (or_undefined opml) as [document|].
    { destruct (parseOpml env document); by simplify_eq. }
    destruct (or_undefined url) as [u|]; [|by simplify_eq].
    destruct (axios_get env u) as [response|message]; [|by simplify_eq].
    destruct (isHtml response); [done|].
    destruct (parseFeed env u) as [[feed|]|message]; by simplify_eq.
  - intros Hopml Hurl env'. unfold scanFeedsResolver. by rewrite Hopml, Hurl.
Qed.

(** The document decides, with or without a URL. *)
Lemma scan_opml_precedence_witness :
  scanFeedsResolver page_env (Val "<opml/>") Undefined
  = scanFeedsResolver page_env (Val "<opml/>") (Val "https://blog.example/")
  ∧ Feed.type <$> match scanFeedsResolver page_env (Val "<opml/>") Undefined with
                  | ScanFeedsSuccess feeds => feeds
                  | ScanFeedsError _ => []
                  end
    = [Some "rss"; Some "atom"].
Proof.
  split; [|reflexivity].
  apply (scan_opml_precedence page_env "<opml/>" (Val "https://blog.example/"));
    done.
Defined.

Lemma scan_html_links_witness :
  ∃ feeds,
    scanFeedsResolver page_env Undefined (Val "https://blog.example/")
    = ScanFeedsSuccess feeds
    ∧ Feed.url <$> feeds
      = ["https://blog.example/feed.xml"; "https://blog.example/comments.xml"].
Proof.
  destruct (scan_html_links page_env Undefined (Val "https://blog.example/")
              "https://blog.example/"
              {| data := "<html/>";
                 content_type := Some "text/html; charset=utf-8" |}
              eq_refl eq_refl eq_refl eq_refl)
    as (feeds & Hrun & Hurls & _).
  exists feeds. split; [exact Hrun|]. rewrite Hurls. reflexivity.
Defined.

Lemma scan_errors_are_bad_request_witness :
  scanFeedsResolver plain_text_env Undefined (Val "https://example.com/notes.txt")
  = ScanFeedsError [BadRequest].
Proof.
  assert (∃ errorCodes,
            scanFeedsResolver plain_text_env Undefined
                              (Val "https://example.com/notes.txt")
            = ScanFeedsError errorCodes) as [errorCodes Hrun].
  { eexists. vm_compute. reflexivity. }
  rewrite Hrun. f_equal.
  exact (proj1 (scan_errors_are_bad_request plain_text_env Undefined
                  (Val "https://example.com/notes.txt") errorCodes Hrun)).
Defined.

(** ** The answers of a subscribe call *)

(** The three ways a call of [subscribeResolver] can go once it has looked
    for a row: an ACTIVE row, an UNSUBSCRIBED row, or none. *)
Lemma subscribe_cases (env : Env) (input : SubscribeInput) (uid : UserId)
    (db : Db) :
  (∃ existing,
     head (filter (same_feed (input_url input) uid) (rows db)) = Some existing
     ∧ Subscription.status existing = Active
     ∧ subscribeResolver env input uid db
       = (SubscribeError [AlreadySubscribed], db))
  ∨ (∃ existing,
       head (filter (same_feed (input_url input) uid) (rows db)) = Some existing
       ∧ Subscription.status existing = Unsubscribed)
  ∨ findOneBy (same_feed (input_url input) uid) db = (Returned None, db).
Proof.
  destruct (head (filter (same_feed (input_url input) uid) (rows db)))
    as [existing|] eqn:Hhead.
  - destruct (Subscription.status existing) eqn:Hstatus.
    + left. exists existing. split_and!; [done..|].
      unfold subscribeResolver, try_catch, subscribe_body. rewrite run_bind.
      change (findOneBy (same_feed (input_url input) uid) db)
        with (Returned (head (filter (same_feed (input_url input) uid) (rows db))),
              db).
      rewrite Hhead. cbv beta iota. by rewrite decide_True.
    + right. left. by exists existing.
  - right. right. unfold findOneBy. by rewrite Hhead.
Qed.

Lemma subscribe_no_feed_run (env : Env) (input : SubscribeInput) (uid : UserId)
    (db : Db) :
  findOneBy (same_feed (input_url input) uid) db = (Returned None, db) →
  match parseFeed env (input_url input) with
  | Returned (Some feed) =>
      MAX_RSS_SUBSCRIPTIONS ≤ count_active_rss uid (rows db) →
      subscribeResolver env input uid db
      = (SubscribeError [ExceededMaxSubscriptions], db)
  | Returned None =>
      subscribeResolver env input uid db = (SubscribeError [NotFound], db)
  | Thrown message =>
      subscribeResolver env input uid db = (subscribe_catch message, db)
  end.
Proof.
  intros Hfind. unfold subscribeResolver, try_catch, subscribe_body.
  rewrite run_bind, Hfind, run_bind. unfold await_parseFeed.
  destruct (parseFeed env (input_url input)) as [[feed|]|message]; [|done..].
  intros Hfull. cbv beta iota.
  rewrite run_bind, insert_having_count_run, decide_False by lia. done.
Qed.

Lemma subscribe_catch_codes (message : string) :
  subscribe_catch message = SubscribeError [NotFound]
  ∨ subscribe_catch message = SubscribeError [BadRequest].
Proof. unfold subscribe_catch. destruct (decide _); auto. Qed.

(** X20. What a successful subscribe call answers with: exactly one
    subscription, which is a row of the table as the call leaves it, owned
    by the caller, of type RSS and ACTIVE; and the call has added exactly
    one request to the task queue, for the caller, the input URL and that
    subscription. *)
Theorem subscribe_success (env : Env) (input : SubscribeInput) (uid : UserId)
    (db : Db) (subscriptions : list Subscription.t) :
  (subscribeResolver env input uid db).1 = SubscribeSuccess subscriptions →
  ∃ subscription request,
    subscriptions = [subscription]
    ∧ subscription ∈ rows (subscribeResolver env input uid db).2
    ∧ Subscription.user subscription = uid
    ∧ Subscription.type subscription = Rss
    ∧ Subscription.status subscription = Active
    ∧ tasks (subscribeResolver env input uid db).2 = tasks db ++ [request]
    ∧ FetchRequest.userIds request = [uid]
    ∧ FetchRequest.url request = input_url input
    ∧ FetchRequest.subscriptionIds request = [Subscription.id subscription].
Proof.
  destruct (subscribe_cases env input uid db)
    as [(existing & _ & _ & ->)|[(existing & Hhead & Hstatus)|Hfind]]; [done| |].
  - rewrite (resubscribe_run env input uid db existing Hhead) by congruence.
    apply (head_filter_Some (same_feed (input_url input) uid)) in Hhead
      as [Hin (_ & Huser & Htype)].
    destruct (enqueueFailure env _) as [message|].
    { cbn [fst]. by destruct (subscribe_catch_codes message) as [-> | ->]. }
    cbn [fst snd rows tasks]. intros [= <-]. eexists _, _.
    split_and!; [reflexivity| |done..].
    apply list_elem_of_fmap. exists existing. by rewrite decide_True.
  - pose proof (subscribe_no_feed_run env input uid db Hfind) as Hno.
    destruct (parseFeed env (input_url input)) as [[feed|]|message] eqn:Hfeed.
    + destruct (decide (count_active_rss uid (rows db) < MAX_RSS_SUBSCRIPTIONS))
        as [Hquota|Hfull]; [|by rewrite Hno by lia].
      rewrite (subscribe_insert_run env input uid db feed Hfind Hfeed Hquota).
      cbv zeta. destruct (enqueueFailure env _) as [message|].
      { cbn [fst]. by destruct (subscribe_catch_codes message) as [-> | ->]. }
      cbn [fst snd rows tasks]. intros [= <-]. eexists _, _.
      split_and!; [reflexivity| |done..].
      apply elem_of_app. right. by apply list_elem_of_singleton.
    + by rewrite Hno.
    + rewrite Hno. cbn [fst].
      by destruct (subscribe_catch_codes message) as [-> | ->].
Qed.

(** X21. What a failed subscribe call leaves behind: it adds nothing to the
    task queue, and its error is a single code. AlreadySubscribed means the
    caller has an ACTIVE RSS row with the input URL, ExceededMaxSubscriptions
    means the caller has no row with the input URL and at least 150 active
    RSS rows, and in both cases the store is as it was. *)
Theorem subscribe_failure (env : Env) (input : SubscribeInput) (uid : UserId)
    (db : Db) (errorCodes : list ErrorCode) :
  (subscribeResolver env input uid db).1 = SubscribeError errorCodes →
  tasks (subscribeResolver env input uid db).2 = tasks db
  ∧ (∃ code, errorCodes = [code])
  ∧ (errorCodes = [AlreadySubscribed] →
     (subscribeResolver env input uid db).2 = db
     ∧ ∃ existing, existing ∈ rows db
                   ∧ same_feed (input_url input) uid existing
                   ∧ Subscription.status existing = Active)
  ∧ (errorCodes = [ExceededMaxSubscriptions] →
     (subscribeResolver env input uid db).2 = db
     ∧ Forall (λ r, ¬ same_feed (input_url input) uid r) (rows db)
     ∧ MAX_RSS_SUBSCRIPTIONS ≤ count_active_rss uid (rows db)).
Proof.
  destruct (subscribe_cases env input uid db)
    as [(existing & Hhead & Hstatus & ->)|[(existing & Hhead & Hstatus)|Hfind]].
  - cbn [fst snd]. intros [= <-].
    apply (head_filter_Some (same_feed (input_url input) uid)) in Hhead
      as [Hin Hsame].
    split_and!; [done|by eexists| |done].
    intros _. split; [done|]. by exists existing.
  - rewrite (resubscribe_run env input uid db existing Hhead) by congruence.
    destruct (enqueueFailure env _) as [message|]; [|done].
    cbn [fst snd tasks].
    destruct (subscribe_catch_codes message) as [-> | ->]; intros [= <-];
      (split_and!; [done|by eexists|done..]).
  - pose proof (subscribe_no_feed_run env input uid db Hfind) as Hno.
    apply (findOneBy_None (same_feed (input_url input) uid)) in Hfind as Hnone.
    destruct (parseFeed env (input_url input)) as [[feed|]|message] eqn:Hfeed.
    + destruct (decide (count_active_rss uid (rows db) < MAX_RSS_SUBSCRIPTIONS))
        as [Hquota|Hfull].
      * rewrite (subscribe_insert_run env input uid db feed Hfind Hfeed Hquota).
        cbv zeta. destruct (enqueueFailure env _) as [message|]; [|done].
        cbn [fst snd tasks].
        destruct (subscribe_catch_codes message) as [-> | ->]; intros [= <-];
          (split_and!; [done|by eexists|done..]).
      * rewrite Hno by lia. cbn [fst snd]. intros [= <-].
        split_and!; [done|by eexists|done|]. intros _. split_and!; [done..|lia].
    + rewrite Hno. cbn [fst snd]. intros [= <-].
      split_and!; [done|by eexists|done..].
    + rewrite Hno. cbn [fst snd].
      destruct (subscribe_catch_codes message) as [-> | ->]; intros [= <-];
        (split_and!; [done|by eexists|done..]).
Qed.

(** Alice subscribes again to her lapsed feed: the row she is answered with
    is ACTIVE, and one request is queued. *)
Lemma subscribe_success_witness :
  ∃ subscription request,
    (subscribeResolver blog_env (subscribe_input "https://a.example/rss")
                       "alice" mixed_db).1
    = SubscribeSuccess [subscription]
    ∧ Subscription.status subscription = Active
    ∧ tasks (subscribeResolver blog_env (subscribe_input "https://a.example/rss")
                               "alice" mixed_db).2
      = [request].
Proof.
  assert (∃ subscriptions,
            (subscribeResolver blog_env
               (subscribe_input "https://a.example/rss") "alice" mixed_db).1
            = SubscribeSuccess subscriptions) as [subscriptions Hrun].
  { eexists. vm_compute. reflexivity. }
  destruct (subscribe_success blog_env (subscribe_input "https://a.example/rss")
              "alice" mixed_db subscriptions Hrun)
    as (subscription & request & -> & _ & _ & _ & Hstatus & Htasks & _).
  exists subscription, request. by split_and!.
Defined.

(** Alice subscribes to a feed she already follows. *)
Lemma subscribe_failure_witness :
  (subscribeResolver blog_env (subscribe_input "https://b.example/rss")
                     "alice" mixed_db).2
  = mixed_db.
Proof.
  assert ((subscribeResolver blog_env (subscribe_input "https://b.example/rss")
                             "alice" mixed_db).1
          = SubscribeError [AlreadySubscribed]) as Hrun.
  { vm_compute. reflexivity. }
  exact (proj1 (proj1 (proj2 (proj2 (subscribe_failure blog_env
           (subscribe_input "https://b.example/rss") "alice" mixed_db
           [AlreadySubscribed] Hrun))) eq_refl)).
Defined.

(** * Text to speech: chunks and speech marks *)

Lemma atom_true (c : Z) :
  TextToSpeech.atom c = true ↔ c ≠ TextToSpeech.LS ∧ c ≠ TextToSpeech.PS.
Proof.
  unfold TextToSpeech.atom, TextToSpeech.dot, TextToSpeech.cr_or_lf,
    TextToSpeech.LF, TextToSpeech.CR, TextToSpeech.LS, TextToSpeech.PS.
  rewrite orb_true_iff, negb_true_iff, bool_decide_eq_false, bool_decide_eq_true.
  lia.
Qed.

Lemma chunk_length_pos : (0 < TextToSpeech.chunk_length)%nat.
Proof. unfold TextToSpeech.chunk_length. lia. Qed.

(** What one greedy match takes: a prefix of the text, all of it matching
    code units, no longer than the bound, and not empty when the text
    starts with a matching code unit. *)
Lemma repeat_atom_spec (n : nat) (text : list Z) :
  (TextToSpeech.repeat_atom n text).1 ++ (TextToSpeech.repeat_atom n text).2
  = text
  ∧ Forall (λ c, TextToSpeech.atom c = true) (TextToSpeech.repeat_atom n text).1
  ∧ (length (TextToSpeech.repeat_atom n text).1 ≤ n)%nat
  ∧ ((TextToSpeech.repeat_atom n text).1 = [] →
     n = 0%nat ∨ text = []
     ∨ ∃ c rest, text = c :: rest ∧ TextToSpeech.atom c = false).
Proof.
  revert text. induction n as [|n IH]; intros text.
  { simpl. split_and!; [done|constructor|done|by left]. }
  destruct text as [|c rest].
  { simpl. split_and!; [done|constructor|lia|by right; left]. }
  cbn [TextToSpeech.repeat_atom].
  destruct (TextToSpeech.atom c) eqn:Hc.
  - destruct (IH rest) as (Happ & Hall & Hlen & _).
    destruct (TextToSpeech.repeat_atom n rest) as [matched rest'].
    cbn [fst snd] in *. split_and!.
    + simpl. by rewrite Happ.
    + by constructor.
    + simpl. lia.
    + done.
  - cbn [fst snd]. split_and!; [done|constructor|simpl; lia|].
    intros _. right. right. by exists c, rest.
Qed.

(** On a text of matching code units a greedy match takes the first [n]. *)
Lemma repeat_atom_all (n : nat) (text : list Z) :
  Forall (λ c, TextToSpeech.atom c = true) text →
  TextToSpeech.repeat_atom n text = (take n text, drop n text).
Proof.
  revert text. induction n as [|n IH]; intros text Hall.
  { by destruct text. }
  destruct text as [|c rest]; [done|].
  apply Forall_cons in Hall as [Hc Hall].
  cbn [TextToSpeech.repeat_atom]. by rewrite Hc, (IH rest Hall).
Qed.

Lemma match_from_spec (fuel : nat) (text : list Z) :
  (length text ≤ fuel)%nat →
  concat (TextToSpeech.match_from fuel text)
  = filter (λ c, TextToSpeech.atom c = true) text
  ∧ Forall (λ chunk, chunk ≠ []
                     ∧ (length chunk ≤ TextToSpeech.chunk_length)%nat
                     ∧ Forall (λ c, TextToSpeech.atom c = true) chunk)
           (TextToSpeech.match_from fuel text).
Proof.
  revert text. induction fuel as [|fuel IH]; intros text Hfuel.
  { destruct text; [done|simpl in Hfuel; lia]. }
  destruct text as [|c rest]; [done|].
  cbn [TextToSpeech.match_from].
  destruct (repeat_atom_spec TextToSpeech.chunk_length (c :: rest))
    as (Happ & Hall & Hlen & Hempty).
  destruct (TextToSpeech.repeat_atom TextToSpeech.chunk_length (c :: rest))
    as [[|c' matched] rest'] eqn:Hmatch; cbn [fst snd] in *.
  - destruct (Hempty eq_refl) as [Hzero|[?|(c0 & rest0 & [= <- <-] & Hc)]];
      [pose proof chunk_length_pos; lia|done|].
    destruct (IH rest) as [Hconcat Hchunks]; [simpl in Hfuel; lia|].
    split; [|done]. rewrite filter_cons, decide_False by congruence. done.
  - assert (length rest' ≤ fuel)%nat as Hrest.
    { apply (f_equal length) in Happ. rewrite length_app in Happ.
      simpl in Happ, Hfuel. lia. }
    destruct (IH rest' Hrest) as [Hconcat Hchunks]. split.
    + rewrite <- Happ, filter_app. cbn [concat]. rewrite Hconcat. f_equal.
      symmetry. apply filter_all. apply Forall_forall. intros x Hx.
      by apply (proj1 (Forall_forall _ _) Hall).
    + constructor; [|done]. by split_and!.
Qed.

Lemma textChunks_eq (text : list Z) :
  TextToSpeech.textChunks text = TextToSpeech.match_from (length text) text.
Proof.
  unfold TextToSpeech.textChunks, TextToSpeech.match_global.
  by destruct (TextToSpeech.match_from (length text) text).
Qed.

(** On a text of matching code units the matches are the slices of the
    text, one bound long each. *)
Lemma match_from_slices (fuel : nat) :
  ∀ (text : list Z) (k : nat),
    (length text ≤ fuel)%nat →
    Forall (λ c, TextToSpeech.atom c = true) text →
    TextToSpeech.match_from fuel text !! k
    = if decide (k * TextToSpeech.chunk_length < length text)%nat
      then Some (take TextToSpeech.chunk_length
                      (drop (k * TextToSpeech.chunk_length) text))
      else None.
Proof.
  pose proof chunk_length_pos as Hpos.
  induction fuel as [|fuel IH]; intros text k Hfuel Hall.
  { destruct text; [|simpl in Hfuel; lia].
    rewrite decide_False by (simpl; lia). by destruct k. }
  destruct text as [|c rest].
  { rewrite decide_False by (simpl; lia). by destruct k. }
  cbn [TextToSpeech.match_from]. rewrite (repeat_atom_all _ _ Hall).
  destruct (take TextToSpeech.chunk_length (c :: rest)) as [|c' matched] eqn:Htake.
  { apply (f_equal length) in Htake. rewrite length_take in Htake.
    simpl in Htake. lia. }
  rewrite <- Htake. destruct k as [|k].
  - rewrite decide_True by (simpl; lia). by rewrite drop_0.
  - rewrite lookup_cons.
    rewrite (IH (drop TextToSpeech.chunk_length (c :: rest)) k).
    + rewrite length_drop, drop_drop.
      replace (TextToSpeech.chunk_length + k * TextToSpeech.chunk_length)%nat
        with (S k * TextToSpeech.chunk_length)%nat by lia.
      destruct (decide (k * _ < _ - _)%nat), (decide (S k * _ < _)%nat);
        try done; lia.
    + rewrite length_drop. simpl in *. lia.
    + by apply Forall_drop.
Qed.

Lemma text_chunks_concat_filter (text : list Z) :
  concat (TextToSpeech.textChunks text)
  = filter (λ c, c ≠ TextToSpeech.LS ∧ c ≠ TextToSpeech.PS) text.
Proof.
  rewrite textChunks_eq.
  destruct (match_from_spec (length text) text) as [Hconcat _]; [done|].
  rewrite Hconcat. apply list_filter_iff. intros c. apply atom_true.
Qed.

(** X22. The chunks lose nothing but the two Unicode separators: put end
    to end they are the text without its code units U+2028 and U+2029, so
    the text itself when it has none; every chunk is non-empty, at most
    1000 code units long, and free of those two. *)
Theorem text_chunks_concat (text : list Z) :
  concat (TextToSpeech.textChunks text)
  = filter (λ c, c ≠ TextToSpeech.LS ∧ c ≠ TextToSpeech.PS) text
  ∧ Forall (λ chunk, chunk ≠ [] ∧ (length chunk ≤ 1000)%nat
                     ∧ Forall (λ c, c ≠ TextToSpeech.LS ∧ c ≠ TextToSpeech.PS)
                              chunk)
           (TextToSpeech.textChunks text)
  ∧ (Forall (λ c, c ≠ TextToSpeech.LS ∧ c ≠ TextToSpeech.PS) text →
     concat (TextToSpeech.textChunks text) = text).
Proof.
  rewrite textChunks_eq.
  destruct (match_from_spec (length text) text) as [Hconcat Hchunks]; [done|].
  assert (concat (TextToSpeech.match_from (length text) text)
          = filter (λ c, c ≠ TextToSpeech.LS ∧ c ≠ TextToSpeech.PS) text)
    as Hfilter.
  { rewrite Hconcat. apply list_filter_iff. intros c. apply atom_true. }
  split_and!; [done| |].
  - eapply Forall_impl; [exact Hchunks|]. intros chunk (Hne & Hlen & Hall).
    split_and!; [done..|].
    eapply Forall_impl; [exact Hall|]. intros c. apply atom_true.
  - intros Hall. rewrite Hfilter. by apply filter_all.
Qed.

(** X23. A text without the two separators is cut every 1000 code units:
    chunk number k (from 0) is the 1000 code units of the text from
    position 1000 k on, fewer for the last chunk, and there are as many
    chunks as it takes to cover the text. Line feeds and carriage returns
    do not end a chunk. *)
Theorem text_chunks_slices (text : list Z) (k : nat) :
  Forall (λ c, c ≠ TextToSpeech.LS ∧ c ≠ TextToSpeech.PS) text →
  TextToSpeech.textChunks text !! k
  = (if decide (k * 1000 < length text)%nat
     then Some (take 1000 (drop (k * 1000) text))
     else None)
  ∧ length (TextToSpeech.textChunks text) = ((length text + 999) `div` 1000)%nat.
Proof.
  intros Hall.
  assert (Forall (λ c, TextToSpeech.atom c = true) text) as Hatoms.
  { eapply Forall_impl; [exact Hall|]. intros c. apply atom_true. }
  assert (∀ j, TextToSpeech.textChunks text !! j
               = if decide (j * 1000 < length text)%nat
                 then Some (take 1000 (drop (j * 1000) text))
                 else None) as Hlookup.
  { intros j. rewrite textChunks_eq.
    by rewrite (match_from_slices (length text) text j). }
  split; [apply Hlookup|].
  set (n := ((length text + 999) `div` 1000)%nat).
  assert (n * 1000 < length text + 1000 ∧ length text ≤ n * 1000)%nat as [Hlo Hhi].
  { pose proof (Nat.div_mod_eq (length text + 999) 1000) as Hdiv.
    pose proof (Nat.mod_upper_bound (length text + 999) 1000) as Hmod.
    fold n in Hdiv. lia. }
  destruct (Nat.lt_trichotomy (length (TextToSpeech.textChunks text)) n)
    as [Hlt|[Heq|Hgt]]; [|done|].
  - assert (TextToSpeech.textChunks text
              !! length (TextToSpeech.textChunks text) = None) as Hnone.
    { by apply lookup_ge_None_2. }
    rewrite Hlookup in Hnone.
    destruct (decide _) as [|Hge]; [done|]. nia.
  - assert (is_Some (TextToSpeech.textChunks text !! n)) as [chunk Hsome].
    { apply lookup_lt_is_Some. lia. }
    rewrite Hlookup in Hsome.
    destruct (decide _) as [Hin|]; [|done]. lia.
Qed.

Lemma text_chunks_slices_witness :
  length <$> TextToSpeech.textChunks TextToSpeech.long_text = [1000; 1000; 500]%nat
  ∧ TextToSpeech.textChunks TextToSpeech.long_text !! 2%nat
    = Some (take 1000 (drop (2 * 1000) TextToSpeech.long_text)).
Proof.
  split; [vm_compute; reflexivity|].
  assert (Forall (λ c, c ≠ TextToSpeech.LS ∧ c ≠ TextToSpeech.PS)
                 TextToSpeech.long_text) as Hall.
  { apply Forall_replicate. by split. }
  by rewrite (proj1 (text_chunks_slices TextToSpeech.long_text 2 Hall)).
Defined.

Lemma take_drop_middle_chunk {A} (before chunk behind : list A) (offset len : nat) :
  (offset + len ≤ length chunk)%nat →
  take len (drop (length before + offset) (before ++ chunk ++ behind))
  = take len (drop offset chunk).
Proof.
  intros Hin. rewrite drop_app_add, drop_app_le by lia.
  apply take_app_le. rewrite length_drop. lia.
Qed.

(** The loop of [synthesizeTextToSpeech] keeps the speech marks on their
    words: when the chunks done so far are as long as the character offset
    says and the marks collected so far point at their words, so do the
    marks of the whole run. *)
Lemma speak_chunks_located
    (speakTextAsync : nat → list Z → outcome (Z * list WordBoundary.t))
    (whole : list Z) :
  (∀ n chunk audioDuration events,
     speakTextAsync n chunk = Returned (audioDuration, events) →
     Forall (λ e, 0 ≤ WordBoundary.textOffset e
                  ∧ 0 ≤ WordBoundary.wordLength e
                  ∧ WordBoundary.textOffset e + WordBoundary.wordLength e
                    ≤ Z.of_nat (length chunk)
                  ∧ take (Z.to_nat (WordBoundary.wordLength e))
                         (drop (Z.to_nat (WordBoundary.textOffset e)) chunk)
                    = WordBoundary.text e) events) →
  ∀ (todo : list (list Z)) (n : nat) (timeOffset characterOffset : Z)
    (speechMarks result : list SpeechMark.t) (before : list Z),
    characterOffset = Z.of_nat (length before) →
    before ++ concat todo = whole →
    Forall (λ m, take (Z.to_nat (SpeechMark.length m))
                      (drop (Z.to_nat (SpeechMark.start m)) whole)
                 = SpeechMark.word m) speechMarks →
    TextToSpeech.speak_chunks speakTextAsync n todo timeOffset characterOffset
                              speechMarks
    = Returned result →
    Forall (λ m, take (Z.to_nat (SpeechMark.length m))
                      (drop (Z.to_nat (SpeechMark.start m)) whole)
                 = SpeechMark.word m) result.
Proof.
  intros Htruthful todo.
  induction todo as [|chunk todo IH];
    intros n timeOffset characterOffset speechMarks result before
           Hoffset Hwhole Hmarks Hrun.
  { simpl in Hrun. by injection Hrun as <-. }
  cbn [TextToSpeech.speak_chunks] in Hrun.
  destruct (speakTextAsync n chunk) as [[audioDuration events]|error] eqn:Hspeak;
    [|done].
  apply (IH _ _ _ _ _ (before ++ chunk)) in Hrun; [done| | |].
  - rewrite length_app. lia.
  - rewrite <- Hwhole. cbn [concat]. by rewrite <- app_assoc.
  - apply Forall_app. split; [done|]. apply Forall_fmap.
    eapply Forall_impl; [exact (Htruthful _ _ _ _ Hspeak)|].
    intros e (Hoff & Hlen & Hin & Hword). cbn.
    rewrite <- Hwhole, <- Hword, Hoffset. cbn [concat].
    replace (Z.to_nat (Z.of_nat (length before) + WordBoundary.textOffset e))
      with (length before + Z.to_nat (WordBoundary.textOffset e))%nat by lia.
    apply take_drop_middle_chunk. lia.
Qed.

(** X24. Speech marks point into the text: when every word boundary the
    synthesizer reports lies inside the chunk it was given and names the
    code units it spans there, every speech mark of a finished run spans
    its word in the input text without the code units U+2028 and U+2029,
    that is in the input text itself when it has none ([start] is the
    position of the word in the whole text, not in its chunk). The audio
    URL is the public URL of [speech/<id>.mp3]. *)
Theorem speech_marks_locate_words
    (speakTextAsync : nat → list Z → outcome (Z * list WordBoundary.t))
    (getFilePublicUrl : string → string)
    (input : TextToSpeech.TextToSpeechInput)
    (output : TextToSpeech.TextToSpeechOutput) :
  (∀ n chunk audioDuration events,
     speakTextAsync n chunk = Returned (audioDuration, events) →
     Forall (λ e, 0 ≤ WordBoundary.textOffset e
                  ∧ 0 ≤ WordBoundary.wordLength e
                  ∧ WordBoundary.textOffset e + WordBoundary.wordLength e
                    ≤ Z.of_nat (length chunk)
                  ∧ take (Z.to_nat (WordBoundary.wordLength e))
                         (drop (Z.to_nat (WordBoundary.textOffset e)) chunk)
                    = WordBoundary.text e) events) →
  TextToSpeech.synthesizeTextToSpeech speakTextAsync getFilePublicUrl input
  = Returned output →
  TextToSpeech.audioUrl output
  = getFilePublicUrl ("speech/" +:+ TextToSpeech.id input +:+ ".mp3")
  ∧ Forall (λ m, take (Z.to_nat (SpeechMark.length m))
                      (drop (Z.to_nat (SpeechMark.start m))
                            (filter (λ c, c ≠ TextToSpeech.LS
                                          ∧ c ≠ TextToSpeech.PS)
                                    (TextToSpeech.text input)))
                 = SpeechMark.word m)
           (TextToSpeech.speechMarks output)
  ∧ (Forall (λ c, c ≠ TextToSpeech.LS ∧ c ≠ TextToSpeech.PS)
            (TextToSpeech.text input) →
     Forall (λ m, take (Z.to_nat (SpeechMark.length m))
                       (drop (Z.to_nat (SpeechMark.start m))
                             (TextToSpeech.text input))
                  = SpeechMark.word m)
            (TextToSpeech.speechMarks output)).
Proof.
  intros Htruthful Hrun. unfold TextToSpeech.synthesizeTextToSpeech in Hrun.
  destruct (TextToSpeech.speak_chunks _ _ _ _ _ _) as [speechMarks|error]
    eqn:Hloop; [|done].
  injection Hrun as <-. cbn [TextToSpeech.audioUrl TextToSpeech.speechMarks].
  assert (Forall (λ m, take (Z.to_nat (SpeechMark.length m))
                            (drop (Z.to_nat (SpeechMark.start m))
                                  (filter (λ c, c ≠ TextToSpeech.LS
                                                ∧ c ≠ TextToSpeech.PS)
                                          (TextToSpeech.text input)))
                       = SpeechMark.word m) speechMarks) as Hlocated.
  { apply (speak_chunks_located speakTextAsync
             (filter (λ c, c ≠ TextToSpeech.LS ∧ c ≠ TextToSpeech.PS)
                     (TextToSpeech.text input))
             Htruthful (TextToSpeech.textChunks (TextToSpeech.text input))
             0%nat 0 0 [] speechMarks []);
      [reflexivity|apply text_chunks_concat_filter|constructor|exact Hloop]. }
  split_and!; [done..|].
  intros Hall. by rewrite filter_all in Hlocated.
Qed.

(** A text of 2500 code units, spoken as three words of 1000, 1000 and 500:
    the marks start at 0, 1000 and 2000. *)
Lemma speech_marks_locate_words_witness :
  ∃ output,
    TextToSpeech.synthesizeTextToSpeech TextToSpeech.one_word example_public_url
      {| TextToSpeech.id := "a1"; TextToSpeech.text := TextToSpeech.long_text |}
    = Returned output
    ∧ TextToSpeech.audioUrl output = "https://storage.example/speech/a1.mp3"
    ∧ SpeechMark.start <$> TextToSpeech.speechMarks output = [0; 1000; 2000]
    ∧ Forall (λ m, take (Z.to_nat (SpeechMark.length m))
                        (drop (Z.to_nat (SpeechMark.start m))
                              TextToSpeech.long_text)
                   = SpeechMark.word m)
             (TextToSpeech.speechMarks output).
Proof.
  eexists. split; [vm_compute; reflexivity|].
  split; [reflexivity|]. split; [reflexivity|].
  assert (Forall (λ c, c ≠ TextToSpeech.LS ∧ c ≠ TextToSpeech.PS)
                 TextToSpeech.long_text) as Hall.
  { apply Forall_replicate. by split. }
  refine (proj2 (proj2 (speech_marks_locate_words TextToSpeech.one_word
                          example_public_url
                          {| TextToSpeech.id := "a1";
                             TextToSpeech.text := TextToSpeech.long_text |}
                          _ _ _)) Hall).
  - intros n chunk audioDuration events [= <- <-].
    constructor; [|constructor]. cbn.
    rewrite Nat2Z.id, take_ge by done. split_and!; [lia..|done].
  - vm_compute. reflexivity.
Defined.

(** * Sign-in with Google: who gets which token *)

Lemma or_null_Some (x : option string) (s : string) :
  or_null x = Some s ↔ x = Some s ∧ s ≠ "".
Proof.
  unfold or_null, truthy. destruct x as [s'|]; [|by split; [|intros []]].
  destruct (bool_decide_reflect (s' ≠ "")) as [Hne|He].
  - split; [by intros [= <-]|by intros [[= <-] _]].
  - split; [done|]. by intros [[= <-] ?].
Qed.

(** X25. A session token is given to registered users only: when the
    answer of [handleGoogleWebAuth] carries an [authToken], the ID token
    was verified for the configured client, it certifies a non-empty
    e-mail address, the lookup of that address among the GOOGLE users
    found a user with a non-empty id and a profile, and the token is the
    non-empty one that [createWebAuthToken] made for that user's id; the
    answer carries no token for a pending user. *)
Theorem google_auth_token_only_for_registered (env : GoogleAuth.Env)
    (idToken : string) (isLocal isVercel : bool) (token : string) :
  GoogleAuth.authToken (GoogleAuth.handleGoogleWebAuth env idToken isLocal isVercel)
  = Some token →
  ∃ loginTicket email user profile,
    GoogleAuth.verifyIdToken env idToken (GoogleAuth.clientId env)
    = Returned loginTicket
    ∧ GoogleAuth.payload_email loginTicket = Some email ∧ email ≠ ""
    ∧ GoogleAuth.getWhere env email "GOOGLE" = Returned (Some user)
    ∧ GoogleAuth.user_id user ≠ ""
    ∧ GoogleAuth.profile user = Some profile
    ∧ GoogleAuth.createWebAuthToken env (GoogleAuth.user_id user)
      = Returned (Some token)
    ∧ token ≠ ""
    ∧ GoogleAuth.pendingUserAuth
        (GoogleAuth.handleGoogleWebAuth env idToken isLocal isVercel) = None.
Proof.
  unfold GoogleAuth.handleGoogleWebAuth, GoogleAuth.handle_body.
  destruct (GoogleAuth.verifyIdToken env idToken _) as [loginTicket|?];
    [|done].
  cbv zeta.
  destruct (or_null (GoogleAuth.payload_email loginTicket)) as [email|]
    eqn:Hemail; [|done].
  apply or_null_Some in Hemail as [Hemail Hne].
  destruct (GoogleAuth.getWhere env email "GOOGLE") as [user|?] eqn:Hwhere;
    [|done].
  destruct (or_null (GoogleAuth.user_id <$> user)) as [userId|] eqn:Hid.
  2:{ by destruct (GoogleAuth.createPendingUserToken env _). }
  apply or_null_Some in Hid as [Hid Hidne].
  destruct user as [user|]; [|done]. injection Hid as <-. cbn [mbind option_bind].
  destruct (GoogleAuth.profile user) as [profile|] eqn:Hprofile.
  2:{ by destruct (GoogleAuth.createPendingUserToken env _). }
  destruct (GoogleAuth.createWebAuthToken env _) as [authToken|?] eqn:Hcreate;
    [|done].
  destruct (or_null authToken) as [authToken'|] eqn:Htoken; [|done].
  apply or_null_Some in Htoken as [-> Htne].
  destruct (GoogleAuth.createSsoToken env _ _) as [ssoToken|?]; [|done].
  cbn. intros [= ->]. by exists loginTicket, email, user, profile.
Qed.

(** X26. A token for a pending user is given for verified addresses that
    have no complete account only: when the answer carries a
    [pendingUserAuth], the ID token was verified and certifies a non-empty
    e-mail address, the lookup found no user, or one with an empty id or
    without a profile, and the token is the one [createPendingUserToken]
    made for that address with provider GOOGLE; the answer carries no
    session token and redirects to the profile confirmation page. *)
Theorem google_auth_pending_only_without_account (env : GoogleAuth.Env)
    (idToken : string) (isLocal isVercel : bool) (pending : string) :
  GoogleAuth.pendingUserAuth
    (GoogleAuth.handleGoogleWebAuth env idToken isLocal isVercel)
  = Some pending →
  ∃ loginTicket email user,
    GoogleAuth.verifyIdToken env idToken (GoogleAuth.clientId env)
    = Returned loginTicket
    ∧ GoogleAuth.payload_email loginTicket = Some email ∧ email ≠ ""
    ∧ GoogleAuth.getWhere env email "GOOGLE" = Returned user
    ∧ match user with
      | Some user => GoogleAuth.user_id user = "" ∨ GoogleAuth.profile user = None
      | None => True
      end
    ∧ GoogleAuth.createPendingUserToken env
        {| GoogleAuth.email := email;
           GoogleAuth.sourceUserId :=
             default "" (or_null (GoogleAuth.getUserId loginTicket));
           GoogleAuth.provider := "GOOGLE";
           GoogleAuth.name := "";
           GoogleAuth.username := "" |}
      = Returned (Some pending)
    ∧ GoogleAuth.authToken
        (GoogleAuth.handleGoogleWebAuth env idToken isLocal isVercel) = None
    ∧ GoogleAuth.redirectURL
        (GoogleAuth.handleGoogleWebAuth env idToken isLocal isVercel)
      = GoogleAuth.baseURL env isLocal isVercel +:+ "/confirm-profile".
Proof.
  unfold GoogleAuth.handleGoogleWebAuth, GoogleAuth.handle_body.
  destruct (GoogleAuth.verifyIdToken env idToken _) as [loginTicket|?];
    [|done].
  cbv zeta.
  destruct (or_null (GoogleAuth.payload_email loginTicket)) as [email|]
    eqn:Hemail; [|done].
  apply or_null_Some in Hemail as [Hemail Hne].
  destruct (GoogleAuth.getWhere env email "GOOGLE") as [user|?] eqn:Hwhere;
    [|done].
  destruct (or_null (GoogleAuth.user_id <$> user)) as [userId|] eqn:Hid.
  - apply or_null_Some in Hid as [Hid Hidne].
    destruct user as [user|]; [|done]. injection Hid as <-.
    cbn [mbind option_bind].
    destruct (GoogleAuth.profile user) as [profile|] eqn:Hprofile.
    + destruct (GoogleAuth.createWebAuthToken env _) as [authToken|?]; [|done].
      destruct (or_null authToken); [|done].
      by destruct (GoogleAuth.createSsoToken env _ _).
    + destruct (GoogleAuth.createPendingUserToken env _) as [p|?] eqn:Hcreate;
        [|done].
      cbn. intros ->. exists loginTicket, email, (Some user).
      split_and!; try done. by right.
  - destruct (GoogleAuth.createPendingUserToken env _) as [p|?] eqn:Hcreate;
      [|done].
    cbn. intros ->. exists loginTicket, email, user.
    split_and!; try done.
    destruct user as [user|]; [|done]. left.
    cbn in Hid. unfold truthy in Hid.
    destruct (bool_decide_reflect (GoogleAuth.user_id user ≠ "")) as [|Hempty];
      [done|].
    by destruct (decide (GoogleAuth.user_id user = "")).
Qed.

(** X27. The answers of [handleGoogleWebAuth]: never both tokens. With a
    session token the redirect is the home page under the base URL, or the
    single-sign-on URL when the call is for Vercel; with a token for a
    pending user it is the profile confirmation page; with neither it is
    the login page with the error code AuthFailed, or the profile
    confirmation page when [createPendingUserToken] made no token. The
    base URL is that of the local client when [isLocal] is set, whatever
    [isVercel] says. An ID token that is not verified gets the login
    page. *)
Theorem google_auth_answers (env : GoogleAuth.Env) (idToken : string)
    (isLocal isVercel : bool) :
  match GoogleAuth.authToken
          (GoogleAuth.handleGoogleWebAuth env idToken isLocal isVercel),
        GoogleAuth.pendingUserAuth
          (GoogleAuth.handleGoogleWebAuth env idToken isLocal isVercel) with
  | Some _, Some _ => False
  | Some authToken, None =>
      ∃ ssoToken,
        GoogleAuth.createSsoToken env authToken
          (GoogleAuth.baseURL env isLocal isVercel +:+ "/home")
        = Returned ssoToken
        ∧ GoogleAuth.redirectURL
            (GoogleAuth.handleGoogleWebAuth env idToken isLocal isVercel)
          = if isVercel then GoogleAuth.ssoRedirectURL env ssoToken
            else GoogleAuth.baseURL env isLocal isVercel +:+ "/home"
  | None, Some _ =>
      GoogleAuth.redirectURL
        (GoogleAuth.handleGoogleWebAuth env idToken isLocal isVercel)
      = GoogleAuth.baseURL env isLocal isVercel +:+ "/confirm-profile"
  | None, None =>
      GoogleAuth.redirectURL
        (GoogleAuth.handleGoogleWebAuth env idToken isLocal isVercel)
      = GoogleAuth.baseURL env isLocal isVercel +:+ "/login?errorCodes="
        +:+ GoogleAuth.AuthFailed env
      ∨ GoogleAuth.redirectURL
          (GoogleAuth.handleGoogleWebAuth env idToken isLocal isVercel)
        = GoogleAuth.baseURL env isLocal isVercel +:+ "/confirm-profile"
  end
  ∧ GoogleAuth.baseURL env true isVercel = "http://localhost:3000"
  ∧ (∀ error,
       GoogleAuth.verifyIdToken env idToken (GoogleAuth.clientId env)
       = Thrown error →
       GoogleAuth.handleGoogleWebAuth env idToken isLocal isVercel
       = GoogleAuth.auth_failed env isLocal isVercel).
Proof.
  split_and!; [|done|].
  - unfold GoogleAuth.handleGoogleWebAuth, GoogleAuth.handle_body.
    destruct (GoogleAuth.verifyIdToken env idToken _) as [loginTicket|?];
      [|by left].
    cbv zeta.
    destruct (or_null (GoogleAuth.payload_email loginTicket)) as [email|];
      [|by left].
    destruct (GoogleAuth.getWhere env email "GOOGLE") as [user|?]; [|by left].
    destruct (or_null (GoogleAuth.user_id <$> user)) as [userId|].
    + destruct (user ≫= GoogleAuth.profile) as [profile|].
      * destruct (GoogleAuth.createWebAuthToken env _) as [authToken|?];
          [|by left].
        destruct (or_null authToken) as [authToken'|]; [|by left].
        destruct (GoogleAuth.createSsoToken env _ _) as [ssoToken|?] eqn:Hsso;
          [|by left].
        cbn. by exists ssoToken.
      * destruct (GoogleAuth.createPendingUserToken env _) as [[p|]|?];
          cbn; auto.
    + destruct (GoogleAuth.createPendingUserToken env _) as [[p|]|?];
        cbn; auto.
  - intros error Hverify.
    unfold GoogleAuth.handleGoogleWebAuth, GoogleAuth.handle_body.
    by rewrite Hverify.
Qed.

(** Ada is registered and gets a session; an address without an account
    gets a token for a pending user. *)
Lemma google_auth_token_only_for_registered_witness :
  GoogleAuth.authToken
    (GoogleAuth.handleGoogleWebAuth GoogleAuth.example_env "ada@example.com"
                                    false false)
  = Some "session:u-ada"
  ∧ ∃ loginTicket,
      GoogleAuth.verifyIdToken GoogleAuth.example_env "ada@example.com"
                               "client-1"
      = Returned loginTicket.
Proof.
  split; [reflexivity|].
  destruct (google_auth_token_only_for_registered GoogleAuth.example_env
              "ada@example.com" false false "session:u-ada" eq_refl)
    as (loginTicket & _ & _ & _ & Hverify & _).
  by exists loginTicket.
Defined.

Lemma google_auth_pending_only_without_account_witness :
  GoogleAuth.pendingUserAuth
    (GoogleAuth.handleGoogleWebAuth GoogleAuth.example_env "bob@example.com"
                                    true true)
  = Some "pending:bob@example.com"
  ∧ GoogleAuth.redirectURL
      (GoogleAuth.handleGoogleWebAuth GoogleAuth.example_env "bob@example.com"
                                      true true)
    = "http://localhost:3000/confirm-profile".
Proof.
  split; [reflexivity|].
  destruct (google_auth_pending_only_without_account GoogleAuth.example_env
              "bob@example.com" true true "pending:bob@example.com" eq_refl)
    as (_ & _ & _ & _ & _ & _ & _ & _ & _ & _ & Hredirect).
  exact Hredirect.
Defined.
